(** * data_validator.py: a shallow embedding of the validation engine

    The analyzers of [DataValidator] and [infer_schema] are translated
    function by function from [src/data_validator.py].  They are written
    against a small executable model of the dataframe library calls they make.

    Modelling conventions.
    - A Python [float] is a [pyfloat]: a binary64 number given by its
      rational value, [nan] or a signed infinity.  Every arithmetic operation
      rounds its exact result to the nearest binary64 number, ties to even,
      and overflows to an infinity ([b64]); the sign of zero is not
      represented.  Division by zero follows the language that performs it:
      Python's [/] raises [ZeroDivisionError], numpy's [/] yields [nan] or an
      infinity.
    - A column is a label together with a typed array ([int64], [float64],
      [bool], [object]).  A [float64] array holds binary64 numbers and
      infinities, and [nan] as its missing marker; in an [object] array the
      missing marker is [None] of [option].
    - The [DataFrame] passed to an analyzer is a Python object held by the
      caller.  Analyzers run in the monad [M], whose state is that object and
      whose outcome is a value or a raised exception.
    - Python dicts are insertion-ordered association lists.

    [create_database] of [src/create_database.py] is embedded after the
    analyzers: its name check as a function on strings, and its dealings
    with the database server as the list of events it produces against a
    server given as a parameter. *)

From Stdlib Require Import String List ZArith QArith Qround Lia Lqa Bool.
From Stdlib Require Import Qpower Qabs Qreduction.
From Stdlib Require Import Permutation Sorted Ascii.
Import ListNotations.
Local Open Scope string_scope.
Local Open Scope Q_scope.

(** ** Python values, exceptions and dicts *)

Inductive exn : Type :=
| KeyError (key : string)
| TypeError (msg : string)
| ValueError (msg : string)
| ZeroDivisionError.

Inductive result (A : Type) : Type :=
| Ok (a : A)
| Raise (e : exn).
Arguments Ok {A} a.
Arguments Raise {A} e.

Inductive pyfloat : Type :=
| Finite (q : Q)
| NaN
| Inf (negative : bool).

(** A scalar held in a cell.  [PFloat] is a finite float and [PInf] an
    infinite one.  [PUnhashable] stands for a list, a dict or a set stored in
    a cell: hashing it raises [TypeError]; [repr] writes out its content, so
    that two such values are equal when their [repr] is the same. *)
Inductive pyobj : Type :=
| PInt (z : Z)
| PFloat (q : Q)
| PInf (negative : bool)
| PBool (b : bool)
| PStr (s : string)
| PUnhashable (repr : string).

(** [None] is the missing marker ([None], [NaN]). *)
Definition cell : Type := option pyobj.

Definition hashable (v : pyobj) : bool :=
  match v with PUnhashable _ => false | _ => true end.

Definition as_number (v : pyobj) : option Q :=
  match v with
  | PInt z => Some (inject_Z z)
  | PFloat q => Some q
  | PBool b => Some (if b then 1 else 0)
  | _ => None
  end.

(** Python's [==] on scalars: finite numbers compare by value across [int],
    [float] and [bool]. *)
Definition py_eqb (v w : pyobj) : bool :=
  match as_number v, as_number w with
  | Some a, Some b => Qeq_bool a b
  | None, None =>
      match v, w with
      | PStr s, PStr t => String.eqb s t
      | PInf s, PInf t => Bool.eqb s t
      | PUnhashable r, PUnhashable r' => String.eqb r r'
      | _, _ => false
      end
  | _, _ => false
  end.

(** Equality of cells as [duplicated], [unique] and [value_counts] see it:
    two missing markers are equal. *)
Definition cell_eqb (a b : cell) : bool :=
  match a, b with
  | None, None => true
  | Some v, Some w => py_eqb v w
  | _, _ => false
  end.

Definition dict (V : Type) : Type := list (string * V).

Fixpoint dict_get {V} (d : dict V) (k : string) : option V :=
  match d with
  | [] => None
  | (k', v) :: d' => if String.eqb k k' then Some v else dict_get d' k
  end.

(** [d[k] = v]: an existing key keeps its position, a new key goes last. *)
Fixpoint dict_set {V} (d : dict V) (k : string) (v : V) : dict V :=
  match d with
  | [] => [(k, v)]
  | (k', v') :: d' =>
      if String.eqb k k' then (k', v) :: d' else (k', v') :: dict_set d' k v
  end.

Definition dict_keys {V} (d : dict V) : list string := map fst d.

(** [l[:k]], which is also what [head(k)] keeps: a negative [k] drops the
    last [-k] items. *)
Definition slice_to {A} (k : Z) (l : list A) : list A :=
  if (0 <=? k)%Z then firstn (Z.to_nat k) l
  else firstn (length l - Z.to_nat (- k)) l.

(** ** Floating point *)

(** Nearest integer, ties to the even one. *)
Definition round_half_even (q : Q) : Z :=
  let f := Qfloor q in
  let r := q - inject_Z f in
  if Qle_bool r (1 # 2) then
    (if Qeq_bool r (1 # 2) then (if Z.even f then f else f + 1)%Z else f)
  else (f + 1)%Z.

Definition pow2 (e : Z) : Q := (2 # 1) ^ e.

(** [floor (log2 x)] for a positive [x]. *)
Definition ilog2 (x : Q) : Z :=
  let e0 := (Z.log2 (Qnum x) - Z.log2 (Zpos (Qden x)))%Z in
  if Qle_bool (pow2 e0) x then e0 else (e0 - 1)%Z.

(** A positive number rounded to 53 significant bits.  The exponent is not
    taken below that of the smallest normal number: below it the spacing is
    that of the subnormal numbers, [2 ^ -1074]. *)
Definition round_pos (x : Q) : Q :=
  let e := Z.max (ilog2 x) (-1022) in
  inject_Z (round_half_even (x / pow2 (e - 52))) * pow2 (e - 52).

(** The binary64 number nearest to [x], ties to even, were there no largest
    one; in lowest terms. *)
Definition b64v (x : Q) : Q :=
  Qred match 0 ?= x with
       | Lt => round_pos x
       | Eq => 0
       | Gt => - round_pos (- x)
       end.

(** The binary64 result of an operation whose exact result is [x]. *)
Definition b64 (x : Q) : pyfloat :=
  let r := b64v x in
  if Qle_bool (pow2 1024) r then Inf false
  else if Qle_bool r (- pow2 1024) then Inf true
  else Finite r.

(** The conversion to binary64 of an [int64], or of a Python [int] of that
    size: it rounds from [2 ^ 53] on and cannot overflow. *)
Definition float_of_int (z : Z) : Q := b64v (inject_Z z).
Definition int_to_float (z : Z) : pyfloat := Finite (float_of_int z).

(** [int64] arithmetic wraps around. *)
Definition wrap64 (z : Z) : Z := ((z + 2 ^ 63) mod 2 ^ 64 - 2 ^ 63)%Z.

Definition fneg (a : pyfloat) : pyfloat :=
  match a with
  | Finite q => Finite (- q)
  | NaN => NaN
  | Inf s => Inf (negb s)
  end.

Definition fadd (a b : pyfloat) : pyfloat :=
  match a, b with
  | NaN, _ | _, NaN => NaN
  | Finite x, Finite y => b64 (x + y)
  | Inf s, Finite _ | Finite _, Inf s => Inf s
  | Inf s, Inf t => if Bool.eqb s t then Inf s else NaN
  end.

Definition fsub (a b : pyfloat) : pyfloat := fadd a (fneg b).

Definition fmul (a b : pyfloat) : pyfloat :=
  match a, b with
  | NaN, _ | _, NaN => NaN
  | Finite x, Finite y => b64 (x * y)
  | Inf s, Finite y | Finite y, Inf s =>
      if Qeq_bool y 0 then NaN else Inf (xorb s (negb (Qle_bool 0 y)))
  | Inf s, Inf t => Inf (xorb s t)
  end.

(** [a < b] and [a <= b]: false when an operand is [nan]. *)
Definition flt (a b : pyfloat) : bool :=
  match a, b with
  | NaN, _ | _, NaN => false
  | Finite x, Finite y => negb (Qle_bool y x)
  | Finite _, Inf s => negb s
  | Inf s, Finite _ => s
  | Inf s, Inf t => s && negb t
  end.

Definition fle (a b : pyfloat) : bool :=
  match a, b with
  | NaN, _ | _, NaN => false
  | Finite x, Finite y => Qle_bool x y
  | Finite _, Inf s => negb s
  | Inf s, Finite _ => s
  | Inf s, Inf t => s || negb t
  end.

(** Python's [float(a) / b] for two [int]s of machine size: both are
    converted to binary64 and the quotient is rounded; it cannot overflow. *)
Definition py_truediv (a b : Z) : result Q :=
  if (b =? 0)%Z then Raise ZeroDivisionError
  else Ok (b64v (float_of_int a / float_of_int b)).

(** numpy's [a / b] on an [int64] array element and an integer scalar. *)
Definition np_true_divide (a b : Z) : pyfloat :=
  if (b =? 0)%Z then
    (if (a =? 0)%Z then NaN else Inf (a <? 0)%Z)
  else Finite (b64v (float_of_int a / float_of_int b)).

(** Python's [round(x, ndigits)] for a finite [x] and a non-negative number
    of digits: the decimal number with [ndigits] digits nearest to the value
    of [x], ties to even.  The float that Python returns is the binary64
    number nearest to this decimal, and prints as it. *)
Definition py_round (x : Q) (ndigits : nat) : Q :=
  let scale := inject_Z (10 ^ Z.of_nat ndigits) in
  inject_Z (round_half_even (x * scale)) / scale.

(** ** The dataframe model *)

Inductive dtype : Type := int64 | float64 | bool_ | object_.

(** [str(dtype)] *)
Definition dtype_str (t : dtype) : string :=
  match t with
  | int64 => "int64"
  | float64 => "float64"
  | bool_ => "bool"
  | object_ => "object"
  end.

(** A [float64] array holds [nan] where a value is missing. *)
Inductive column_data : Type :=
| Int64Data (xs : list Z)
| Float64Data (xs : list pyfloat)
| BoolData (xs : list bool)
| ObjectData (xs : list cell).

Record Series : Type := mkSeries {
  name : string;
  data : column_data
}.

(** [index_len] is the length of the row index, which a frame has even when
    it has no column. *)
Record DataFrame : Type := mkFrame {
  index_len : nat;
  columns : list Series
}.

Definition series_dtype (s : Series) : dtype :=
  match data s with
  | Int64Data _ => int64
  | Float64Data _ => float64
  | BoolData _ => bool_
  | ObjectData _ => object_
  end.

Definition float_cell (x : pyfloat) : cell :=
  match x with
  | Finite q => Some (PFloat q)
  | NaN => None
  | Inf s => Some (PInf s)
  end.

Definition is_nan (x : pyfloat) : bool :=
  match x with NaN => true | _ => false end.

(** The cells of a series, whatever its array type. *)
Definition cells (s : Series) : list cell :=
  match data s with
  | Int64Data xs => map (fun z => Some (PInt z)) xs
  | Float64Data xs => map float_cell xs
  | BoolData xs => map (fun b => Some (PBool b)) xs
  | ObjectData xs => xs
  end.

Definition column_names (df : DataFrame) : list string :=
  map name (columns df).

Fixpoint unique_labels (l : list string) : bool :=
  match l with
  | [] => true
  | x :: l' => negb (existsb (String.eqb x) l') && unique_labels l'
  end.

(** A well-formed frame: labels are unique and every column has one cell per
    index entry. *)
Definition wf_frame (df : DataFrame) : bool :=
  unique_labels (column_names df)
  && forallb (fun s => (length (cells s) =? index_len df)%nat) (columns df).

(** [len(df)] *)
Definition len (df : DataFrame) : Z := Z.of_nat (index_len df).

(** [df.empty]: some axis has length zero. *)
Definition empty (df : DataFrame) : bool :=
  (index_len df =? 0)%nat
  || match columns df with [] => true | _ => false end.

Definition has_column (df : DataFrame) (c : string) : bool :=
  existsb (String.eqb c) (column_names df).

Definition find_series (c : string) (l : list Series) : option Series :=
  find (fun s => String.eqb c (name s)) l.

(** [df[c]] for a label [c]. *)
Definition getitem (df : DataFrame) (c : string) : result Series :=
  match find_series c (columns df) with
  | Some s => Ok s
  | None => Raise (KeyError c)
  end.

(** [s.isna().sum()] *)
Definition isna_sum (s : Series) : Z :=
  Z.of_nat (length (filter (fun c : cell => match c with None => true | _ => false end)
                           (cells s))).

(** [s.dropna()]: the array type is kept, missing cells are removed. *)
Definition dropna (s : Series) : Series :=
  mkSeries (name s)
    match data s with
    | Int64Data xs => Int64Data xs
    | Float64Data xs => Float64Data (filter (fun x => negb (is_nan x)) xs)
    | BoolData xs => BoolData xs
    | ObjectData xs =>
        ObjectData (filter (fun c : cell => match c with None => false | _ => true end) xs)
    end.

(** [s.empty] and [s.shape[0]] *)
Definition series_len (s : Series) : nat := length (cells s).
Definition series_empty (s : Series) : bool := (series_len s =? 0)%nat.

Definition all_hashable (l : list cell) : bool :=
  forallb (fun c : cell => match c with Some v => hashable v | None => true end) l.

(** Distinct cells in first-seen order. *)
Fixpoint distinct (l : list cell) (seen : list cell) : list cell :=
  match l with
  | [] => []
  | c :: l' =>
      if existsb (cell_eqb c) seen then distinct l' seen
      else c :: distinct l' (c :: seen)
  end.

(** [s.unique()]: hashing an unhashable cell raises. *)
Definition unique (s : Series) : result (list cell) :=
  if all_hashable (cells s) then Ok (distinct (cells s) [])
  else Raise (TypeError "unhashable type").

(** [s.nunique(dropna=True)] *)
Definition nunique (s : Series) : result Z :=
  match unique (dropna s) with
  | Ok l => Ok (Z.of_nat (length l))
  | Raise e => Raise e
  end.

Definition row_at (cols : list Series) (i : nat) : list cell :=
  map (fun s => nth i (cells s) None) cols.

Fixpoint row_eqb (r1 r2 : list cell) : bool :=
  match r1, r2 with
  | [], [] => true
  | a :: r1', b :: r2' => cell_eqb a b && row_eqb r1' r2'
  | _, _ => false
  end.

(** [keep="first"]: a row is marked when an earlier row is equal to it. *)
Fixpoint mark_duplicates (rows seen : list (list cell)) : list bool :=
  match rows with
  | [] => []
  | r :: rest =>
      if existsb (row_eqb r) seen then true :: mark_duplicates rest seen
      else false :: mark_duplicates rest (r :: seen)
  end.

(** [df.duplicated(subset=subset)].  The library returns an empty mask for an
    empty frame before it looks at [subset]; otherwise it raises [KeyError]
    for a label that is not a column.  With a single label to compare and
    unique column labels it hands over to [Series.duplicated], which compares
    the cells of that column by [==] and hashes none of them.  Otherwise it
    factorizes the compared columns, which hashes their cells, and marks the
    repeated rows; with no compared column the unpacking of the
    factorization raises [ValueError]. *)
Definition duplicated (df : DataFrame) (subset : option (list string))
  : result (list bool) :=
  if empty df then Ok []
  else
    let labels :=
      match subset with None => column_names df | Some l => l end in
    match find (fun c => negb (has_column df c)) labels with
    | Some c => Raise (KeyError c)
    | None =>
        let compared :=
          filter (fun s => existsb (String.eqb (name s)) labels) (columns df) in
        match compared with
        | [] => Raise (ValueError "not enough values to unpack")
        | _ :: _ =>
            if (length labels =? 1)%nat && unique_labels (column_names df)
               || forallb (fun s => all_hashable (cells s)) compared
            then Ok (mark_duplicates
                       (map (row_at compared) (seq 0 (index_len df))) [])
            else Raise (TypeError "unhashable type")
        end
    end.

(** [int(mask.sum())] *)
Definition mask_sum (mask : list bool) : Z :=
  Z.of_nat (length (filter (fun b : bool => b) mask)).

(** [df[mask]]: the index positions where the mask holds. *)
Fixpoint mask_positions (mask : list bool) (i : nat) : list nat :=
  match mask with
  | [] => []
  | b :: mask' =>
      if b then i :: mask_positions mask' (S i) else mask_positions mask' (S i)
  end.

(** [to_dict(orient="records")] of the rows at [positions]. *)
Definition to_dict_records (df : DataFrame) (positions : list nat)
  : list (dict cell) :=
  map (fun i =>
         fold_left (fun row s => dict_set row (name s) (nth i (cells s) None))
                   (columns df) [])
      positions.

(** [to_dict(orient="index")] of a frame indexed by [labels]: the index has
    to be unique. *)
Definition to_dict_index {V} (rows : list (string * V)) : result (dict V) :=
  if unique_labels (map fst rows) then Ok rows
  else Raise (ValueError "DataFrame index must be unique for orient='index'.").

Definition count_of (c : cell) (l : list cell) : Z :=
  Z.of_nat (length (filter (cell_eqb c) l)).

(** Stable insertion by decreasing count. *)
Fixpoint insert_by_count (x : cell * Z) (l : list (cell * Z)) : list (cell * Z) :=
  match l with
  | [] => [x]
  | y :: l' =>
      if (snd y <=? snd x)%Z then x :: l else y :: insert_by_count x l'
  end.

(** [s.value_counts(dropna=False)]: one entry per distinct cell, the missing
    marker included, most frequent first, ties in first-seen order. *)
Definition value_counts (s : Series) : result (list (cell * Z)) :=
  if all_hashable (cells s) then
    Ok (fold_right insert_by_count []
          (map (fun c => (c, count_of c (cells s))) (distinct (cells s) [])))
  else Raise (TypeError "unhashable type").

(** The values of a numeric array, missing cells left out: [int64] numbers,
    or binary64 numbers and infinities. *)
Inductive ndarray : Type :=
| IntArray (xs : list Z)
| FloatArray (xs : list pyfloat).

Definition array_len (arr : ndarray) : nat :=
  match arr with
  | IntArray xs => length xs
  | FloatArray xs => length xs
  end.

Definition numeric_values (s : Series) : option ndarray :=
  match data s with
  | Int64Data xs => Some (IntArray xs)
  | Float64Data xs => Some (FloatArray (filter (fun x => negb (is_nan x)) xs))
  | BoolData _ => None
  | ObjectData _ => None
  end.

Fixpoint insert_by {A} (leb : A -> A -> bool) (x : A) (l : list A) : list A :=
  match l with
  | [] => [x]
  | y :: l' => if leb x y then x :: l else y :: insert_by leb x l'
  end.

Definition sort_by {A} (leb : A -> A -> bool) (l : list A) : list A :=
  fold_right (insert_by leb) [] l.

(** [l[i]], where a negative [i] counts from the end. *)
Definition py_nth {A} (i : Z) (l : list A) (d : A) : A :=
  if (i <? 0)%Z then nth (Z.to_nat (Z.of_nat (length l) + i)) l d
  else nth (Z.to_nat i) l d.

(** The positions of the two neighbours of the virtual index in the sorted
    array; for a virtual index at or beyond the last position both are the
    last position, written [-1]. *)
Definition get_indexes (n : Z) (virtual_index : pyfloat) : Z * Z :=
  match virtual_index with
  | Finite h =>
      if Qle_bool (inject_Z (n - 1)) h then ((-1)%Z, (-1)%Z)
      else if Qle_bool 0 h then (Qfloor h, (Qfloor h + 1)%Z)
      else (0%Z, 0%Z)
  | NaN => ((-1)%Z, (-1)%Z)
  | Inf s => if s then (0%Z, 0%Z) else ((-1)%Z, (-1)%Z)
  end.

(** Linear interpolation as the array library computes it:
    [a + (b - a) * t], and [b - (b - a) * (1 - t)] from [t = 0.5] on.  The
    difference [b - a] is taken in the type of the array. *)
Definition np_lerp (a b diff_b_a t : pyfloat) : pyfloat :=
  if fle (Finite (1 # 2)) t
  then fsub b (fmul diff_b_a (fsub (Finite 1) t))
  else fadd a (fmul diff_b_a t).

(** The [q]-quantile of a non-empty array by linear interpolation, for a
    binary64 number [q] whose percentage is exact (as for 0.25 and 0.75): the
    virtual index [(n - 1) * q] is split into the position before it and the
    distance from that position, and the two neighbouring values of the
    sorted array are interpolated.  An [int64] array is not converted:
    [b - a] is an [int64] difference. *)
Definition np_quantile (arr : ndarray) (q : Q) : pyfloat :=
  let n := Z.of_nat (array_len arr) in
  let virtual_index := fmul (int_to_float (n - 1)) (Finite q) in
  let '(previous, next) := get_indexes n virtual_index in
  let gamma := fsub virtual_index (int_to_float previous) in
  match arr with
  | IntArray xs =>
      let sorted := sort_by Z.leb xs in
      let a := py_nth previous sorted 0%Z in
      let b := py_nth next sorted 0%Z in
      np_lerp (int_to_float a) (int_to_float b) (int_to_float (wrap64 (b - a)))
        gamma
  | FloatArray xs =>
      let sorted := sort_by fle xs in
      let a := py_nth previous sorted NaN in
      let b := py_nth next sorted NaN in
      np_lerp a b (fsub b a) gamma
  end.

(** [s.quantile(q)]: [nan] for an array without values, [TypeError] for an
    array of booleans or of objects. *)
Definition quantile (s : Series) (q : Q) : result pyfloat :=
  match numeric_values s with
  | None => Raise (TypeError "unsupported operand type")
  | Some arr =>
      if (array_len arr =? 0)%nat then Ok NaN else Ok (np_quantile arr q)
  end.

(** [int((s < bound).sum())] and [int((s > bound).sum())] on a numeric
    series without missing cells: an [int64] value is converted to binary64
    for the comparison. *)
Definition count_lt (arr : ndarray) (bound : pyfloat) : Z :=
  match arr with
  | IntArray xs =>
      Z.of_nat (length (filter (fun x => flt (int_to_float x) bound) xs))
  | FloatArray xs =>
      Z.of_nat (length (filter (fun x => flt x bound) xs))
  end.

Definition count_gt (arr : ndarray) (bound : pyfloat) : Z :=
  match arr with
  | IntArray xs =>
      Z.of_nat (length (filter (fun x => flt bound (int_to_float x)) xs))
  | FloatArray xs =>
      Z.of_nat (length (filter (fun x => flt bound x) xs))
  end.

Definition is_number (t : dtype) : bool :=
  match t with int64 | float64 => true | _ => false end.

(** [df.select_dtypes(include=["number"]).columns.tolist()] *)
Definition select_number_columns (df : DataFrame) : list string :=
  map name (filter (fun s => is_number (series_dtype s)) (columns df)).

(** ** The monad of analyzer code

    The state is the caller's [DataFrame] object.  [call] and [read] are the
    library's accessors: they hand back a fresh object and leave the frame as
    it is.  [put] is an in-place update; no analyzer uses it, which is what
    the frame lemmas below establish. *)

Definition M (A : Type) : Type := DataFrame -> DataFrame * result A.

Definition ret {A} (a : A) : M A := fun h => (h, Ok a).

Definition bind {A B} (m : M A) (k : A -> M B) : M B :=
  fun h =>
    match m h with
    | (h', Ok a) => k a h'
    | (h', Raise e) => (h', Raise e)
    end.

Definition lift {A} (r : result A) : M A := fun h => (h, r).

Definition read {A} (f : DataFrame -> A) : M A := fun h => (h, Ok (f h)).

Definition call {A} (f : DataFrame -> result A) : M A := fun h => (h, f h).

Definition put (df : DataFrame) : M unit := fun _ => (df, Ok tt).

(** [try: body except Exception: handler] *)
Definition try_except {A} (body handler : M A) : M A :=
  fun h =>
    match body h with
    | (h', Ok a) => (h', Ok a)
    | (h', Raise _) => handler h'
    end.

(** [for x in l: acc = body x acc] *)
Fixpoint for_each {X S} (l : list X) (body : X -> S -> M S) (acc : S) : M S :=
  match l with
  | [] => ret acc
  | x :: l' => bind (body x acc) (for_each l' body)
  end.

Declare Scope py_scope.
Delimit Scope py_scope with py.
Notation "x <- m ;; k" := (bind m (fun x => k))
  (at level 61, m at next level, right associativity) : py_scope.
Local Open Scope py_scope.

(** The outcome of running [m] on the frame [df], and the frame afterwards. *)
Definition run {A} (m : M A) (df : DataFrame) : result A := snd (m df).
Definition frame_after {A} (m : M A) (df : DataFrame) : DataFrame := fst (m df).

(** ** data_validator.py *)

Definition _iqr_bounds (series : Series) (factor : pyfloat)
  : result (pyfloat * pyfloat) :=
  match quantile series (1 # 4) with
  | Raise e => Raise e
  | Ok q1 =>
      match quantile series (3 # 4) with
      | Raise e => Raise e
      | Ok q3 =>
          let iqr := fsub q3 q1 in
          Ok (fsub q1 (fmul factor iqr), fadd q3 (fmul factor iqr))
      end
  end.

Record ColumnSchema : Type := mkColumnSchema {
  schema_dtype : string;
  schema_null_count : Z;
  schema_null_pct : Q;
  schema_unique : Z;
  schema_sample_values : list cell
}.

Definition infer_schema (sample_values : Z) : M (dict ColumnSchema) :=
  n <- read len ;;
  cols <- read column_names ;;
  for_each cols
    (fun col schema =>
       s <- call (fun df => getitem df col) ;;
       let dtype := dtype_str (series_dtype s) in
       let nulls := isna_sum s in
       null_pct <- (if (n =? 0)%Z then ret 0
                    else lift (py_truediv nulls n)) ;;
       uniq <- lift (nunique s) ;;
       values <- lift (unique (dropna s)) ;;
       let sample := slice_to sample_values values in
       ret (dict_set schema col
              (mkColumnSchema dtype nulls (py_round null_pct 4) uniq sample)))
    [].

Record MissingEntry : Type := mkMissingEntry {
  missing_count : Z;
  missing_pct : pyfloat
}.

Record MissingReport : Type := mkMissingReport {
  missing_rows : Z;
  missing_columns : Z;
  per_column : dict MissingEntry
}.

Definition missing_summary : M MissingReport :=
  n <- read len ;;
  counts <- read (fun df => map (fun s => (name s, isna_sum s)) (columns df)) ;;
  let col_summary :=
    map (fun '(c, k) => (c, mkMissingEntry k (np_true_divide k n))) counts in
  ncols <- read (fun df => Z.of_nat (length (columns df))) ;;
  per <- lift (to_dict_index col_summary) ;;
  ret (mkMissingReport n ncols per).

Record DuplicateReport : Type := mkDuplicateReport {
  duplicate_count : Z;
  sample_rows : list (dict cell)
}.

Definition duplicates (subset : option (list string)) : M DuplicateReport :=
  dup_mask <- match subset with
              | None => call (fun df => duplicated df None)
              | Some l => call (fun df => duplicated df (Some l))
              end ;;
  let count := mask_sum dup_mask in
  sample <- (if (count =? 0)%Z then ret []
             else read (fun df =>
                          to_dict_records df
                            (slice_to 5 (mask_positions dup_mask 0)))) ;;
  ret (mkDuplicateReport count sample).

Record Mismatch : Type := mkMismatch {
  mismatch_expected : string;
  mismatch_actual : option string
}.

Record DtypeReport : Type := mkDtypeReport {
  actual_dtypes : dict string;
  dtype_mismatches : dict Mismatch
}.

(** [act != exp] for [act] a string or [None] and [exp] a string. *)
Definition differs (act : option string) (exp : string) : bool :=
  match act with
  | Some a => negb (String.eqb a exp)
  | None => true
  end.

Definition dtype_issues (expected : option (dict string)) : M DtypeReport :=
  actual <- read (fun df =>
                    fold_left (fun d s => dict_set d (name s) (dtype_str (series_dtype s)))
                              (columns df) []) ;;
  let issues :=
    match expected with
    | None | Some [] => []
    | Some items =>
        fold_left
          (fun issues '(c, exp) =>
             let act := dict_get actual c in
             if differs act exp then dict_set issues c (mkMismatch exp act)
             else issues)
          items []
    end in
  ret (mkDtypeReport actual issues).

Inductive CardinalityEntry : Type :=
| CardValues (unique_values : Z) (top_values : list (cell * Z))
| CardError (error : string).

Definition cardinality_report (top_n : Z) : M (dict CardinalityEntry) :=
  cols <- read column_names ;;
  for_each cols
    (fun col report =>
       try_except
         (s <- call (fun df => getitem df col) ;;
          vc <- lift (value_counts s) ;;
          ret (dict_set report col
                 (CardValues (Z.of_nat (length vc)) (slice_to top_n vc))))
         (ret (dict_set report col (CardError "could not compute value_counts"))))
    [].

Inductive OutlierEntry : Type :=
| OutEmpty
| OutStats (n : Z) (low_bound high_bound : pyfloat) (below above : Z).

(** The values that [s < low] and [s > high] range over. *)
Definition series_numbers (s : Series) : ndarray :=
  match numeric_values s with Some arr => arr | None => IntArray [] end.

Definition outlier_summary (numeric_cols : option (list string))
  (factor : pyfloat) : M (dict OutlierEntry) :=
  numeric_cols <- match numeric_cols with
                  | None => read select_number_columns
                  | Some l => ret l
                  end ;;
  for_each numeric_cols
    (fun col summary =>
       s <- call (fun df => match getitem df col with
                            | Ok s => Ok (dropna s)
                            | Raise e => Raise e
                            end) ;;
       if series_empty s then ret (dict_set summary col OutEmpty)
       else
         bounds <- lift (_iqr_bounds s factor) ;;
         let '(low, high) := bounds in
         let n_low := count_lt (series_numbers s) low in
         let n_high := count_gt (series_numbers s) high in
         ret (dict_set summary col
                (OutStats (Z.of_nat (series_len s)) low high n_low n_high)))
    [].

Record Report : Type := mkReport {
  report_missing : MissingReport;
  report_duplicates : DuplicateReport;
  report_dtypes : DtypeReport;
  report_cardinality : dict CardinalityEntry;
  report_outliers : dict OutlierEntry
}.

Definition validate (expected_schema : option (dict string)) : M Report :=
  missing <- missing_summary ;;
  dups <- duplicates None ;;
  dtypes <- dtype_issues expected_schema ;;
  cardinality <- cardinality_report 5 ;;
  outliers <- outlier_summary None (Finite (3 # 2)) ;;
  ret (mkReport missing dups dtypes cardinality outliers).

(** ** create_database.py

    The database server is outside the program.  [connect] is the error that
    opening the connection raises, if any, and [server] the error that the
    server raises for a statement, given the events so far.  What the function
    does is the list of events it adds, in order. *)

Definition newline : ascii := "010"%char.

(** A character of the class [[a-zA-Z0-9_]]. *)
Definition is_word_char (c : ascii) : bool :=
  let n := nat_of_ascii c in
  ((97 <=? n)%nat && (n <=? 122)%nat)
  || ((65 <=? n)%nat && (n <=? 90)%nat)
  || ((48 <=? n)%nat && (n <=? 57)%nat)
  || (n =? 95)%nat.

(** The rest of a match of [[a-zA-Z0-9_]+$] after its first character: more
    characters of the class, then the end of the string, or one newline and
    the end of the string ([$] also matches before a final newline). *)
Fixpoint match_word_tail (s : string) : bool :=
  match s with
  | EmptyString => true
  | String c rest =>
      if is_word_char c then match_word_tail rest
      else Ascii.eqb c newline
           && match rest with EmptyString => true | String _ _ => false end
  end.

(** [re.match(r'^[a-zA-Z0-9_]+$', db_name)] as a truth value. *)
Definition re_match_name (db_name : string) : bool :=
  match db_name with
  | EmptyString => false
  | String c rest => is_word_char c && match_word_tail rest
  end.

Definition nl : string := String newline EmptyString.

Definition terminate_query (db_name : string) : string :=
  String.concat ""
    [nl; "        SELECT pg_terminate_backend(pg_stat_activity.pid)"; nl;
     "        FROM pg_stat_activity"; nl;
     "        WHERE pg_stat_activity.datname = '"; db_name; "'"; nl;
     "          AND pid <> pg_backend_pid();"; nl;
     "        "].

Definition drop_statement (db_name : string) : string :=
  String.concat "" ["DROP DATABASE IF EXISTS "; db_name; ";"].

Definition create_statement (db_name : string) : string :=
  String.concat "" ["CREATE DATABASE "; db_name; " ENCODING='UTF8';"].

Definition success_line (db_name : string) : string :=
  String.concat "" ["Database '"; db_name; "' created successfully."].

Inductive event : Type :=
| Connected
| Sent (sql : string)
| Closed
| Printed (line : string).

Inductive outcome : Type :=
| Returned
| RaisedValueError (msg : string)
| RaisedDatabaseError (msg : string).

Section Database.
Variable connect : option string.
Variable server : list event -> string -> option string.

(** [conn.execute(text(sql))] *)
Definition conn_execute (sql : string) (trace : list event)
  : list event * option string :=
  ((trace ++ [Sent sql])%list, server trace sql).

(** The [with] block closes the connection on every way out; the success
    line is printed after it. *)
Definition create_database (db_name : string) (trace : list event)
  : list event * outcome :=
  if negb (re_match_name db_name) then
    (trace, RaisedValueError "Invalid database name.")
  else
    match connect with
    | Some err => (trace, RaisedDatabaseError err)
    | None =>
        let t0 := (trace ++ [Connected])%list in
        let '(t1, r1) := conn_execute (terminate_query db_name) t0 in
        match r1 with
        | Some err => ((t1 ++ [Closed])%list, RaisedDatabaseError err)
        | None =>
            let '(t2, r2) := conn_execute (drop_statement db_name) t1 in
            match r2 with
            | Some err => ((t2 ++ [Closed])%list, RaisedDatabaseError err)
            | None =>
                let '(t3, r3) := conn_execute (create_statement db_name) t2 in
                match r3 with
                | Some err => ((t3 ++ [Closed])%list, RaisedDatabaseError err)
                | None =>
                    ((t3 ++ [Closed; Printed (success_line db_name)])%list,
                     Returned)
                end
            end
        end
    end.
End Database.

(** The names that [create_database] accepts, in words: a non-empty run of
    characters of the class, possibly followed by one newline. *)
Definition word (w : string) : Prop :=
  w <> EmptyString
  /\ forallb is_word_char (list_ascii_of_string w) = true.

(** ** Proof support: effect-free programs *)

(** [m] leaves the caller's frame as it found it, whatever its outcome. *)
Definition read_only {A} (m : M A) : Prop :=
  forall h, frame_after m h = h.

(** The pure loop that [for_each] computes when its body is [read_only]. *)
Fixpoint fold_result {X S} (l : list X) (step : X -> S -> result S) (acc : S)
  : result S :=
  match l with
  | [] => Ok acc
  | x :: l' =>
      match step x acc with
      | Ok acc' => fold_result l' step acc'
      | Raise e => Raise e
      end
  end.

(** The items of the expected schema that the loop visits. *)
Definition expected_items (expected : option (dict string)) : dict string :=
  match expected with Some items => items | None => [] end.

Definition actual_of (df : DataFrame) : dict string :=
  fold_left (fun d s => dict_set d (name s) (dtype_str (series_dtype s)))
            (columns df) [].

Definition issues_step (actual : dict string) (issues : dict Mismatch)
  (item : string * string) : dict Mismatch :=
  let '(c, exp) := item in
  let act := dict_get actual c in
  if differs act exp then dict_set issues c (mkMismatch exp act) else issues.

(** The entry that the loop of [cardinality_report] writes for [col]. *)
Definition cardinality_entry (df : DataFrame) (top_n : Z) (col : string)
  : CardinalityEntry :=
  match getitem df col with
  | Ok s =>
      match value_counts s with
      | Ok vc => CardValues (Z.of_nat (length vc)) (slice_to top_n vc)
      | Raise _ => CardError "could not compute value_counts"
      end
  | Raise _ => CardError "could not compute value_counts"
  end.

(** The descriptor that the loop of [infer_schema] computes for [col]. *)
Definition schema_entry (df : DataFrame) (sample_values : Z) (col : string)
  : result ColumnSchema :=
  match getitem df col with
  | Raise e => Raise e
  | Ok s =>
      match (if (len df =? 0)%Z then Ok 0
             else py_truediv (isna_sum s) (len df)) with
      | Raise e => Raise e
      | Ok null_pct =>
          match nunique s with
          | Raise e => Raise e
          | Ok uniq =>
              match unique (dropna s) with
              | Raise e => Raise e
              | Ok values =>
                  Ok (mkColumnSchema (dtype_str (series_dtype s)) (isna_sum s)
                        (py_round null_pct 4) uniq
                        (slice_to sample_values values))
              end
          end
      end
  end.

(** The step of a loop that computes [g k] and stores it under [k]. *)
Definition store_step {V} (g : string -> result V) (k : string) (d : dict V)
  : result (dict V) :=
  match g k with
  | Ok v => Ok (dict_set d k v)
  | Raise e => Raise e
  end.

(** The entry that the loop of [outlier_summary] computes for [col]. *)
Definition outlier_entry (df : DataFrame) (factor : pyfloat) (col : string)
  : result OutlierEntry :=
  match getitem df col with
  | Raise e => Raise e
  | Ok s0 =>
      let s := dropna s0 in
      if series_empty s then Ok OutEmpty
      else
        match _iqr_bounds s factor with
        | Raise e => Raise e
        | Ok (low, high) =>
            Ok (OutStats (Z.of_nat (series_len s)) low high
                  (count_lt (series_numbers s) low)
                  (count_gt (series_numbers s) high))
        end
  end.

(** The columns that [outlier_summary] loops over. *)
Definition selected_columns (df : DataFrame) (numeric_cols : option (list string))
  : list string :=
  match numeric_cols with
  | None => select_number_columns df
  | Some l => l
  end.

(** The bounds that [_iqr_bounds] computes from the quartiles. *)
Definition bounds_of (q1 q3 factor : pyfloat) : pyfloat * pyfloat :=
  let iqr := fsub q3 q1 in
  (fsub q1 (fmul factor iqr), fadd q3 (fmul factor iqr)).

(** The entry of a numeric column whose values, missing cells left out, are
    the non-empty array [arr]. *)
Definition stats_of (arr : ndarray) (factor : pyfloat) : OutlierEntry :=
  let '(low, high) :=
    bounds_of (np_quantile arr (1 # 4)) (np_quantile arr (3 # 4)) factor in
  OutStats (Z.of_nat (array_len arr)) low high
    (count_lt arr low) (count_gt arr high).

(** ** Proof support: binary64 numbers *)

Definition exponent (x : Q) : Z := Z.max (ilog2 x) (-1022).

(** [x] is a binary64 number. *)
Definition is_b64 (x : Q) : bool := Qeq_bool (b64v x) x.

(** The interpolation [np_lerp] on finite operands, as long as nothing
    overflows. *)
Definition qlerp (a b t : Q) : Q :=
  let d := b64v (b - a) in
  if Qle_bool (1 # 2) t then b64v (b - b64v (d * b64v (1 - t)))
  else b64v (a + b64v (d * t)).

(** Arrays on which the quartiles are computed without overflow and the
    conversion of the values to binary64 is exact: at most [2 ^ 50] values,
    which are integers of magnitude at most [2 ^ 53], or binary64 numbers of
    magnitude at most [2 ^ 1022]. *)
Definition regular_float (x : pyfloat) : bool :=
  match x with
  | Finite q => is_b64 q && Qle_bool (Qabs q) (pow2 1022)
  | _ => false
  end.

Definition regular_array (arr : ndarray) : bool :=
  (Z.of_nat (array_len arr) <=? 2 ^ 50)%Z
  && match arr with
     | IntArray xs => forallb (fun z => (Z.abs z <=? 2 ^ 53)%Z) xs
     | FloatArray xs => forallb regular_float xs
     end.

Definition float_value (x : pyfloat) : Q :=
  match x with Finite q => q | _ => 0 end.

(** The values of an array as rationals. *)
Definition array_values (arr : ndarray) : list Q :=
  match arr with
  | IntArray xs => map inject_Z xs
  | FloatArray xs => map float_value xs
  end.

Definition regular_value (y : Q) : Prop :=
  b64v y == y /\ Qabs y <= pow2 1022.

Fixpoint insert_sorted (x : Q) (l : list Q) : list Q :=
  match l with
  | [] => [x]
  | y :: l' => if Qle_bool x y then x :: l else y :: insert_sorted x l'
  end.

Definition sort (l : list Q) : list Q := fold_right insert_sorted [] l.

Definition order_statistic (xs : list Q) (i : Z) : Q :=
  nth (Z.to_nat i) (sort xs) 0.

(** The quantile of rationals that are binary64 numbers, when no operation
    overflows. *)
Definition qquantile (ys : list Q) (p : Q) : Q :=
  let arr := sort ys in
  let n := Z.of_nat (length ys) in
  let h := inject_Z (n - 1) * p in
  if Qle_bool (inject_Z (n - 1)) h then
    let x := nth (Z.to_nat (n - 1)) arr 0 in
    qlerp x x (h + 1)
  else
    qlerp (nth (Z.to_nat (Qfloor h)) arr 0)
          (nth (Z.to_nat (Qfloor h + 1)) arr 0)
          (h - inject_Z (Qfloor h)).

(** ** The outlier rule in the words of the specification

    The [p]-th percentile by linear interpolation between order statistics:
    with [h = (n - 1) * p], the value lies between the order statistics of
    rank [floor h] and [ceiling h], at the fraction [h - floor h] of the way.
    Counts use strict comparisons.  All of it in exact arithmetic. *)

Definition percentile_spec (xs : list Q) (p : Q) : Q :=
  let h := inject_Z (Z.of_nat (length xs) - 1) * p in
  let lower := order_statistic xs (Qfloor h) in
  let upper := order_statistic xs (Qceiling h) in
  lower + (h - inject_Z (Qfloor h)) * (upper - lower).

Definition strictly_less (x y : Q) : bool :=
  if Qlt_le_dec x y then true else false.

Definition count_below_spec (xs : list Q) (bound : Q) : Z :=
  Z.of_nat (length (filter (fun x => strictly_less x bound) xs)).

Definition count_above_spec (xs : list Q) (bound : Q) : Z :=
  Z.of_nat (length (filter (fun x => strictly_less bound x) xs)).

(** Exact interpolation, in the shape of the library's computation. *)
Definition lerp (a b t : Q) : Q := a + (b - a) * t.

Definition quantile_linear (xs : list Q) (q : Q) : Q :=
  let arr := sort xs in
  let n := Z.of_nat (length arr) in
  let virtual_index := inject_Z (n - 1) * q in
  let previous := Qfloor virtual_index in
  let next := Z.min (previous + 1) (n - 1) in
  let gamma := virtual_index - inject_Z previous in
  lerp (nth (Z.to_nat previous) arr 0) (nth (Z.to_nat next) arr 0) gamma.

(** * Lemmas *)

(** ** The monad *)

Create HintDb frame discriminated.

Lemma read_only_ret {A} (a : A) : read_only (ret a).
Proof. intro h; reflexivity. Qed.

Lemma read_only_lift {A} (r : result A) : read_only (lift r).
Proof. intro h; reflexivity. Qed.

Lemma read_only_read {A} (f : DataFrame -> A) : read_only (read f).
Proof. intro h; reflexivity. Qed.

Lemma read_only_call {A} (f : DataFrame -> result A) : read_only (call f).
Proof. intro h; reflexivity. Qed.

Lemma read_only_bind {A B} (m : M A) (k : A -> M B) :
  read_only m -> (forall a, read_only (k a)) -> read_only (bind m k).
Proof.
  intros Hm Hk h. unfold frame_after, bind.
  specialize (Hm h). unfold frame_after in Hm.
  destruct (m h) as [h' [a | e]]; simpl in *; subst.
  - apply Hk.
  - reflexivity.
Qed.

Lemma read_only_try_except {A} (body handler : M A) :
  read_only body -> read_only handler -> read_only (try_except body handler).
Proof.
  intros Hb Hh h. unfold frame_after, try_except.
  specialize (Hb h). unfold frame_after in Hb.
  destruct (body h) as [h' [a | e]]; simpl in *; subst.
  - reflexivity.
  - apply Hh.
Qed.

#[export] Hint Resolve read_only_ret read_only_lift read_only_read
  read_only_call read_only_bind read_only_try_except : frame.

Lemma read_only_for_each {X S} (l : list X) (body : X -> S -> M S) :
  (forall x acc, read_only (body x acc)) ->
  forall acc, read_only (for_each l body acc).
Proof.
  intros Hbody. induction l as [| x l IH]; intros acc; simpl.
  - apply read_only_ret.
  - apply read_only_bind; auto with frame.
Qed.


(** A program without in-place update is determined by its outcome. *)
Lemma read_only_run {A} (m : M A) (h : DataFrame) :
  read_only m -> m h = (h, run m h).
Proof.
  intros Hm. specialize (Hm h). unfold frame_after, run in *.
  destruct (m h); simpl in *; congruence.
Qed.

Lemma run_bind {A B} (m : M A) (k : A -> M B) (h : DataFrame) :
  read_only m ->
  run (bind m k) h =
  match run m h with Ok a => run (k a) h | Raise e => Raise e end.
Proof.
  intros Hm. unfold run at 1. unfold bind.
  rewrite (read_only_run m h Hm). destruct (run m h); reflexivity.
Qed.

Lemma run_for_each {X S} (l : list X) (body : X -> S -> M S) (h : DataFrame) :
  (forall x acc, read_only (body x acc)) ->
  forall acc,
    run (for_each l body acc) h =
    fold_result l (fun x acc => run (body x acc) h) acc.
Proof.
  intros Hbody. induction l as [| x l IH]; intros acc; simpl.
  - reflexivity.
  - rewrite run_bind by apply Hbody.
    destruct (run (body x acc) h); [apply IH | reflexivity].
Qed.

(** [put] is the one primitive that is not read-only. *)
Lemma put_not_read_only :
  ~ read_only (put (mkFrame 0 [])).
Proof.
  intros H. specialize (H (mkFrame 1 [])). discriminate H.
Qed.

(** ** Every analyzer is read-only *)

Ltac frame_step :=
  first
    [ apply read_only_ret | apply read_only_lift | apply read_only_read
    | apply read_only_call
    | apply read_only_for_each; intros
    | apply read_only_try_except
    | apply read_only_bind; [| intros] ].

Ltac frame_tac :=
  repeat (frame_step
          || match goal with
             | |- read_only (match ?x with _ => _ end) => destruct x
             | |- read_only (if ?b then _ else _) => destruct b
             end).

Lemma read_only_infer_schema k : read_only (infer_schema k).
Proof. unfold infer_schema. frame_tac. Qed.

Lemma read_only_missing_summary : read_only missing_summary.
Proof. unfold missing_summary. frame_tac. Qed.

Lemma read_only_duplicates subset : read_only (duplicates subset).
Proof. unfold duplicates. frame_tac. Qed.

Lemma read_only_dtype_issues expected : read_only (dtype_issues expected).
Proof. unfold dtype_issues. frame_tac. Qed.

Lemma read_only_cardinality_report top_n : read_only (cardinality_report top_n).
Proof. unfold cardinality_report. frame_tac. Qed.

Lemma read_only_outlier_summary cols factor :
  read_only (outlier_summary cols factor).
Proof. unfold outlier_summary. frame_tac. Qed.

Lemma read_only_validate expected : read_only (validate expected).
Proof.
  unfold validate.
  repeat first
    [ apply read_only_missing_summary | apply read_only_duplicates
    | apply read_only_dtype_issues | apply read_only_cardinality_report
    | apply read_only_outlier_summary | apply read_only_ret
    | apply read_only_bind; [| intros] ].
Qed.

(** ** Dicts *)

Lemma dict_get_set_eq {V} (d : dict V) k v :
  dict_get (dict_set d k v) k = Some v.
Proof.
  induction d as [| [k' v'] d IH]; simpl.
  - now rewrite String.eqb_refl.
  - destruct (String.eqb k k') eqn:E; simpl; rewrite E; auto.
Qed.

Lemma dict_get_set_neq {V} (d : dict V) k k' v :
  k' <> k -> dict_get (dict_set d k v) k' = dict_get d k'.
Proof.
  intros Hne. induction d as [| [k0 v0] d IH]; simpl.
  - destruct (String.eqb_spec k' k); congruence.
  - destruct (String.eqb_spec k k0) as [-> | Hk]; simpl.
    + destruct (String.eqb_spec k' k0); congruence.
    + destruct (String.eqb_spec k' k0); auto.
Qed.

Lemma dict_keys_set {V} (d : dict V) k v k' :
  In k' (dict_keys (dict_set d k v)) <-> k' = k \/ In k' (dict_keys d).
Proof.
  unfold dict_keys. induction d as [| [k0 v0] d IH]; simpl.
  - intuition.
  - destruct (String.eqb_spec k k0) as [-> | Hk]; simpl.
    + intuition.
    + rewrite IH. intuition.
Qed.

Lemma dict_get_none {V} (d : dict V) k :
  dict_get d k = None <-> ~ In k (dict_keys d).
Proof.
  unfold dict_keys. induction d as [| [k0 v0] d IH]; simpl.
  - intuition.
  - destruct (String.eqb_spec k k0) as [-> | Hk].
    + split; [discriminate | intros H; exfalso; apply H; now left].
    + rewrite IH. intuition.
Qed.

Lemma dict_get_some_in {V} (d : dict V) k v :
  dict_get d k = Some v -> In (k, v) d.
Proof.
  induction d as [| [k0 v0] d IH]; simpl; [discriminate |].
  destruct (String.eqb_spec k k0) as [-> | Hk].
  - intros [= ->]. now left.
  - intros H. right. auto.
Qed.

Lemma unique_labels_NoDup (l : list string) :
  unique_labels l = true <-> NoDup l.
Proof.
  induction l as [| x l IH]; simpl.
  - split; [constructor | reflexivity].
  - rewrite andb_true_iff, negb_true_iff, IH. split.
    + intros [Hx Hl]. constructor; auto.
      intros Hin. apply Bool.not_true_iff_false in Hx. apply Hx.
      apply existsb_exists. exists x. split; [assumption | apply String.eqb_refl].
    + intros H. inversion H as [| ? ? Hx Hl]; subst. split; auto.
      apply Bool.not_true_iff_false. intros He.
      apply existsb_exists in He. destruct He as [y [Hy Hxy]].
      apply String.eqb_eq in Hxy. subst. contradiction.
Qed.

(** In a dict with unique keys every item is what [dict_get] returns. *)
Lemma dict_get_in_unique {V} (d : dict V) k v :
  NoDup (dict_keys d) -> In (k, v) d -> dict_get d k = Some v.
Proof.
  unfold dict_keys. induction d as [| [k0 v0] d IH]; simpl; [tauto |].
  intros Hnd [Heq | Hin].
  - inversion Heq; subst. now rewrite String.eqb_refl.
  - inversion Hnd as [| ? ? Hk0 Hd]; subst.
    destruct (String.eqb_spec k k0) as [-> | Hk]; auto.
    exfalso. apply Hk0. apply in_map_iff. exists (k0, v). auto.
Qed.

(** ** Binary64 numbers *)

(** *** Rounding to an integer *)

Lemma round_half_even_close (q : Q) :
  - (1 # 2) <= inject_Z (round_half_even q) - q <= 1 # 2.
Proof.
  unfold round_half_even.
  pose proof (Qfloor_le q) as Hlo. pose proof (Qlt_floor q) as Hhi.
  rewrite inject_Z_plus in Hhi. change (inject_Z 1) with 1 in Hhi.
  set (f := Qfloor q) in *.
  destruct (Qle_bool (q - inject_Z f) (1 # 2)) eqn:Hle.
  - apply Qle_bool_iff in Hle.
    destruct (Qeq_bool (q - inject_Z f) (1 # 2)) eqn:Heq.
    + apply Qeq_bool_iff in Heq. destruct (Z.even f).
      * split; lra.
      * rewrite inject_Z_plus. change (inject_Z 1) with 1. split; lra.
    + split; lra.
  - assert (Hgt : ~ q - inject_Z f <= 1 # 2).
    { rewrite <- Qle_bool_iff. congruence. }
    rewrite inject_Z_plus. change (inject_Z 1) with 1. split; lra.
Qed.

Lemma round_half_even_comp (q q' : Q) :
  q == q' -> round_half_even q = round_half_even q'.
Proof.
  intros H. unfold round_half_even.
  rewrite (Qfloor_comp q q' H).
  assert (E : q - inject_Z (Qfloor q') == q' - inject_Z (Qfloor q')) by (rewrite H; reflexivity).
  rewrite (Qleb_comp _ _ E (1 # 2) (1 # 2) (Qeq_refl _)).
  rewrite (Qeqb_comp _ _ E (1 # 2) (1 # 2) (Qeq_refl _)).
  reflexivity.
Qed.

Lemma round_half_even_Z (z : Z) : round_half_even (inject_Z z) = z.
Proof.
  unfold round_half_even. rewrite Qfloor_Z.
  assert (E : inject_Z z - inject_Z z == 0) by ring.
  rewrite (Qleb_comp _ _ E (1 # 2) (1 # 2) (Qeq_refl _)).
  rewrite (Qeqb_comp _ _ E (1 # 2) (1 # 2) (Qeq_refl _)).
  reflexivity.
Qed.

Lemma round_half_even_floor (q : Q) :
  (Qfloor q <= round_half_even q <= Qfloor q + 1)%Z.
Proof.
  unfold round_half_even.
  destruct (Qle_bool _ _); [destruct (Qeq_bool _ _); [destruct (Z.even _) |] |]; lia.
Qed.

Lemma round_half_even_mono (q q' : Q) :
  q <= q' -> (round_half_even q <= round_half_even q')%Z.
Proof.
  intros H. pose proof (Qfloor_resp_le q q' H) as Hf.
  destruct (Z.eq_dec (Qfloor q) (Qfloor q')) as [E | E].
  - unfold round_half_even. rewrite <- E.
    set (f := Qfloor q) in *.
    destruct (Qle_bool (q - inject_Z f) (1 # 2)) eqn:H1;
      destruct (Qle_bool (q' - inject_Z f) (1 # 2)) eqn:H2;
      destruct (Qeq_bool (q - inject_Z f) (1 # 2)) eqn:H3;
      destruct (Qeq_bool (q' - inject_Z f) (1 # 2)) eqn:H4;
      destruct (Z.even f); try lia;
      try apply Qle_bool_iff in H1; try apply Qle_bool_iff in H2;
      try apply Qeq_bool_iff in H3; try apply Qeq_bool_iff in H4;
      try (apply Qeq_bool_neq in H3); try (apply Qeq_bool_neq in H4);
      try (assert (~ q - inject_Z f <= 1 # 2) by (rewrite <- Qle_bool_iff; congruence));
      try (assert (~ q' - inject_Z f <= 1 # 2) by (rewrite <- Qle_bool_iff; congruence));
      exfalso; lra.
  - pose proof (round_half_even_floor q). pose proof (round_half_even_floor q'). lia.
Qed.

(** *** Powers of two *)

Lemma pow2_pos (e : Z) : 0 < pow2 e.
Proof. apply Qpower_0_lt. reflexivity. Qed.

Lemma pow2_add (a b : Z) : pow2 (a + b) == pow2 a * pow2 b.
Proof. apply Qpower_plus. discriminate. Qed.

Lemma pow2_sub (a b : Z) : pow2 (a - b) == pow2 a / pow2 b.
Proof. apply Qpower_minus. discriminate. Qed.

Lemma pow2_le (a b : Z) : (a <= b)%Z -> pow2 a <= pow2 b.
Proof. intros H. apply Qpower_le_compat_l; [assumption | discriminate]. Qed.

Lemma pow2_lt (a b : Z) : (a < b)%Z -> pow2 a < pow2 b.
Proof. intros H. apply Qpower_lt_compat_l; [assumption | reflexivity]. Qed.

Lemma pow2_lt_inv (a b : Z) : pow2 a < pow2 b -> (a < b)%Z.
Proof. intros H. apply (Qpower_lt_compat_l_inv (2 # 1)); [assumption | reflexivity]. Qed.

Lemma pow2_Z (e : Z) : (0 <= e)%Z -> pow2 e == inject_Z (2 ^ e).
Proof. intros H. unfold pow2. rewrite Zpower_Qpower by assumption. reflexivity. Qed.

Lemma pow2_succ (e : Z) : pow2 (e + 1) == 2 * pow2 e.
Proof. rewrite pow2_add. change (pow2 1) with 2. ring. Qed.

Lemma pow2_0 : pow2 0 == 1.
Proof. reflexivity. Qed.

(** *** The exponent *)

Lemma ratio_between (A B PA PB : Q) :
  0 < PA -> 0 < PB -> PA <= A -> A < 2 * PA -> PB <= B -> B < 2 * PB ->
  PA / PB * (1 # 2) < A / B /\ A / B < PA / PB * 2.
Proof.
  intros HPA HPB H1 H2 H3 H4.
  assert (HB : 0 < B) by lra.
  split.
  - apply Qlt_shift_div_l; [assumption |].
    assert (E : PA / PB * (1 # 2) * B == (PA * B * (1 # 2)) / PB) by (field; lra).
    rewrite E. apply Qlt_shift_div_r; [assumption |]. nra.
  - apply Qlt_shift_div_r; [assumption |].
    assert (E : PA / PB * 2 * B == (PA * B * 2) / PB) by (field; lra).
    rewrite E. apply Qlt_shift_div_l; [assumption |]. nra.
Qed.

Lemma log2_bounds (a : Z) :
  (0 < a)%Z ->
  pow2 (Z.log2 a) <= inject_Z a /\ inject_Z a < 2 * pow2 (Z.log2 a).
Proof.
  intros Ha. pose proof (Z.log2_spec a Ha) as [H1 H2].
  pose proof (Z.log2_nonneg a) as Hn.
  rewrite <- pow2_succ. rewrite !pow2_Z by lia.
  rewrite <- Zle_Qle, <- Zlt_Qlt. split; [assumption |].
  now rewrite <- Z.add_1_r in H2.
Qed.

Lemma ilog2_spec (x : Q) :
  0 < x -> pow2 (ilog2 x) <= x /\ x < pow2 (ilog2 x + 1).
Proof.
  intros Hx. destruct x as [a b].
  assert (Ha : (0 < a)%Z).
  { unfold Qlt in Hx. simpl in Hx. lia. }
  unfold ilog2. simpl Qnum. simpl Qden.
  set (la := Z.log2 a). set (lb := Z.log2 (Z.pos b)).
  pose proof (log2_bounds a Ha) as [A1 A2]. fold la in A1, A2.
  pose proof (log2_bounds (Z.pos b) eq_refl) as [B1 B2]. fold lb in B1, B2.
  pose proof (pow2_pos la) as PA. pose proof (pow2_pos lb) as PB.
  pose proof (ratio_between _ _ _ _ PA PB A1 A2 B1 B2) as [L U].
  assert (Ex : a # b == inject_Z a / inject_Z (Z.pos b)) by apply Qmake_Qdiv.
  rewrite <- Ex in L, U. rewrite <- pow2_sub in L, U.
  destruct (Qle_bool (pow2 (la - lb)) (a # b)) eqn:Hle.
  - apply Qle_bool_iff in Hle. split; [assumption |].
    rewrite pow2_succ. lra.
  - assert (Hlt : ~ pow2 (la - lb) <= a # b).
    { rewrite <- Qle_bool_iff. congruence. }
    replace (la - lb - 1 + 1)%Z with (la - lb)%Z by lia.
    split; [| lra].
    assert (E : pow2 (la - lb) == 2 * pow2 (la - lb - 1)).
    { rewrite <- pow2_succ. replace (la - lb - 1 + 1)%Z with (la - lb)%Z by lia.
      reflexivity. }
    lra.
Qed.

Lemma ilog2_unique (x : Q) (e : Z) :
  pow2 e <= x -> x < pow2 (e + 1) -> ilog2 x = e.
Proof.
  intros H1 H2.
  assert (Hx : 0 < x) by (pose proof (pow2_pos e); lra).
  destruct (ilog2_spec x Hx) as [S1 S2].
  assert (A : (ilog2 x < e + 1)%Z) by (apply pow2_lt_inv; lra).
  assert (B : (e < ilog2 x + 1)%Z) by (apply pow2_lt_inv; lra).
  lia.
Qed.

Lemma ilog2_comp (x y : Q) : 0 < x -> x == y -> ilog2 x = ilog2 y.
Proof.
  intros Hx E. symmetry. destruct (ilog2_spec x Hx) as [S1 S2].
  apply ilog2_unique; rewrite <- E; assumption.
Qed.

Lemma ilog2_mono (x y : Q) : 0 < x -> x <= y -> (ilog2 x <= ilog2 y)%Z.
Proof.
  intros Hx Hxy.
  destruct (ilog2_spec x Hx) as [S1 S2].
  destruct (ilog2_spec y ltac:(lra)) as [T1 T2].
  assert (A : (ilog2 x < ilog2 y + 1)%Z) by (apply pow2_lt_inv; lra).
  lia.
Qed.

(** *** Rounding a positive number *)

Lemma round_pos_unfold (x : Q) :
  round_pos x
  = inject_Z (round_half_even (x / pow2 (exponent x - 52))) * pow2 (exponent x - 52).
Proof. reflexivity. Qed.

Lemma scaled_pow2 (a b : Z) : pow2 a / pow2 b == pow2 (a - b).
Proof. symmetry. apply pow2_sub. Qed.

Lemma div_le_div (x y c : Q) : 0 < c -> x <= y -> x / c <= y / c.
Proof.
  intros Hc H. apply Qle_shift_div_l; [assumption |].
  assert (E : x / c * c == x) by (field; lra). rewrite E. assumption.
Qed.

Lemma pow2_split (a k : Z) :
  (0 <= k)%Z -> pow2 a == inject_Z (2 ^ k) * pow2 (a - k).
Proof.
  intros Hk. rewrite <- pow2_Z by assumption. rewrite <- pow2_add.
  replace (k + (a - k))%Z with a by lia. reflexivity.
Qed.

Lemma div_mul_cancel (x c : Q) : 0 < c -> x / c * c == x.
Proof. intros Hc. field. lra. Qed.

Lemma mul_div_cancel (x c : Q) : 0 < c -> x * c / c == x.
Proof. intros Hc. field. lra. Qed.

Lemma exponent_ge (x : Q) : (ilog2 x <= exponent x)%Z /\ (-1022 <= exponent x)%Z.
Proof. unfold exponent. lia. Qed.

(** The rounded value lies between the powers of two around [x]. *)
Lemma round_pos_upper (x : Q) :
  0 < x -> round_pos x <= pow2 (exponent x + 1).
Proof.
  intros Hx. rewrite round_pos_unfold.
  set (e := exponent x). pose proof (pow2_pos (e - 52)) as Hq.
  destruct (ilog2_spec x Hx) as [_ S2].
  destruct (exponent_ge x) as [He _]. fold e in He.
  assert (Hx2 : x <= pow2 (e + 1)).
  { apply Qlt_le_weak. eapply Qlt_le_trans; [exact S2 |]. apply pow2_le. lia. }
  assert (E : pow2 (e + 1) == inject_Z (2 ^ 53) * pow2 (e - 52)).
  { rewrite (pow2_split (e + 1) 53) by lia.
    replace (e + 1 - 53)%Z with (e - 52)%Z by lia. reflexivity. }
  assert (Hm : x / pow2 (e - 52) <= inject_Z (2 ^ 53)).
  { apply Qle_shift_div_r; [assumption |]. rewrite <- E. assumption. }
  apply round_half_even_mono in Hm. rewrite round_half_even_Z in Hm.
  rewrite E. apply Qmult_le_compat_r; [| lra].
  rewrite <- Zle_Qle. assumption.
Qed.

Lemma round_pos_nonneg (x : Q) : 0 < x -> 0 <= round_pos x.
Proof.
  intros Hx. rewrite round_pos_unfold.
  set (e := exponent x). pose proof (pow2_pos (e - 52)) as Hq.
  assert (Hm : inject_Z 0 <= x / pow2 (e - 52)).
  { apply Qle_shift_div_l; [assumption |]. change (inject_Z 0) with 0. lra. }
  apply round_half_even_mono in Hm. rewrite round_half_even_Z in Hm.
  apply Qmult_le_0_compat; [| lra].
  change 0 with (inject_Z 0). rewrite <- Zle_Qle. assumption.
Qed.

Lemma round_pos_lower (x : Q) :
  0 < x -> (-1022 <= ilog2 x)%Z -> pow2 (ilog2 x) <= round_pos x.
Proof.
  intros Hx Hn. rewrite round_pos_unfold.
  assert (Ee : exponent x = ilog2 x) by (unfold exponent; lia).
  rewrite Ee. set (e := ilog2 x) in *.
  pose proof (pow2_pos (e - 52)) as Hq.
  destruct (ilog2_spec x Hx) as [S1 _]. fold e in S1.
  assert (E : pow2 e == inject_Z (2 ^ 52) * pow2 (e - 52)).
  { apply pow2_split. lia. }
  assert (Hm : inject_Z (2 ^ 52) <= x / pow2 (e - 52)).
  { apply Qle_shift_div_l; [assumption |]. rewrite <- E. assumption. }
  apply round_half_even_mono in Hm. rewrite round_half_even_Z in Hm.
  rewrite E. apply Qmult_le_compat_r; [| lra].
  rewrite <- Zle_Qle. assumption.
Qed.

Lemma round_pos_comp (x y : Q) : 0 < x -> x == y -> round_pos x == round_pos y.
Proof.
  intros Hx E. rewrite !round_pos_unfold. unfold exponent.
  rewrite <- (ilog2_comp x y Hx E).
  rewrite (round_half_even_comp (x / _) (y / pow2 (Z.max (ilog2 x) (-1022) - 52))).
  - reflexivity.
  - unfold Qdiv. apply Qmult_comp; [exact E | reflexivity].
Qed.

Lemma round_pos_mono (x y : Q) :
  0 < x -> x <= y -> round_pos x <= round_pos y.
Proof.
  intros Hx Hxy. assert (Hy : 0 < y) by lra.
  pose proof (ilog2_mono x y Hx Hxy) as Hl.
  destruct (Z.eq_dec (exponent x) (exponent y)) as [E | E].
  - rewrite !round_pos_unfold. rewrite <- E.
    pose proof (pow2_pos (exponent x - 52)) as Hq.
    apply Qmult_le_compat_r; [| lra].
    rewrite <- Zle_Qle. apply round_half_even_mono.
    now apply div_le_div.
  - assert (Hlt : (exponent x < exponent y)%Z) by (unfold exponent in *; lia).
    assert (Hny : (-1022 <= ilog2 y)%Z) by (unfold exponent in *; lia).
    assert (Ey : exponent y = ilog2 y) by (unfold exponent in *; lia).
    apply Qle_trans with (pow2 (exponent x + 1)); [now apply round_pos_upper |].
    apply Qle_trans with (pow2 (ilog2 y)); [apply pow2_le; lia |].
    now apply round_pos_lower.
Qed.

(** A number with at most 53 significant bits, on the grid of the
    subnormal numbers or a coarser one, is its own rounding. *)
Lemma round_pos_exact (x : Q) (k j : Z) :
  0 < x -> x == inject_Z k * pow2 j -> (k < 2 ^ 53)%Z -> (-1074 <= j)%Z ->
  round_pos x == x.
Proof.
  intros Hx E Hk Hj. rewrite round_pos_unfold.
  set (e := exponent x).
  pose proof (pow2_pos (e - 52)) as Hq.
  destruct (ilog2_spec x Hx) as [S1 _].
  assert (Hlog : (ilog2 x < 53 + j)%Z).
  { apply pow2_lt_inv. eapply Qle_lt_trans; [exact S1 |].
    rewrite E. rewrite pow2_add. rewrite (pow2_Z 53) by lia.
    apply Qmult_lt_compat_r; [apply pow2_pos |].
    rewrite <- Zlt_Qlt. assumption. }
  assert (He : (e - 52 <= j)%Z) by (unfold e, exponent; lia).
  assert (Em : x / pow2 (e - 52) == inject_Z (k * 2 ^ (j - (e - 52)))).
  { rewrite E. rewrite (pow2_split j (j - (e - 52))) by lia.
    replace (j - (j - (e - 52)))%Z with (e - 52)%Z by lia.
    rewrite inject_Z_mult. field. lra. }
  rewrite (round_half_even_comp _ _ Em), round_half_even_Z.
  rewrite <- Em. now apply div_mul_cancel.
Qed.

(** The rounding of a positive number has at most 53 significant bits. *)
Lemma round_pos_form (x : Q) :
  0 < x ->
  exists k j, round_pos x == inject_Z k * pow2 j
              /\ (0 <= k < 2 ^ 53)%Z /\ (-1074 <= j)%Z.
Proof.
  intros Hx. pose proof (round_pos_upper x Hx) as Hu.
  pose proof (round_pos_nonneg x Hx) as Hn.
  rewrite round_pos_unfold in *.
  set (e := exponent x) in *. set (M := round_half_even (x / pow2 (e - 52))) in *.
  pose proof (pow2_pos (e - 52)) as Hq.
  destruct (exponent_ge x) as [_ He]. fold e in He.
  assert (E : pow2 (e + 1) == inject_Z (2 ^ 53) * pow2 (e - 52)).
  { rewrite (pow2_split (e + 1) 53) by lia.
    replace (e + 1 - 53)%Z with (e - 52)%Z by lia. reflexivity. }
  assert (HM : (0 <= M <= 2 ^ 53)%Z).
  { split.
    - rewrite Zle_Qle. change (inject_Z 0) with 0.
      destruct (Qlt_le_dec (inject_Z M) 0) as [Hneg | ]; [| assumption].
      exfalso. nra.
    - rewrite Zle_Qle. rewrite E in Hu.
      destruct (Qlt_le_dec (inject_Z (2 ^ 53)) (inject_Z M)) as [Hbig | ]; [| assumption].
      exfalso. nra. }
  destruct (Z.eq_dec M (2 ^ 53)) as [EM | NM].
  - exists 1%Z, (e + 1)%Z. rewrite EM, <- E. split; [| lia].
    change (inject_Z 1) with 1. ring.
  - exists M, (e - 52)%Z. split; [reflexivity | lia].
Qed.

(** *** Rounding to binary64 *)

Lemma b64v_pos (x : Q) : 0 < x -> b64v x == round_pos x.
Proof.
  intros Hx. unfold b64v. rewrite Qred_correct.
  destruct (Qcompare_spec 0 x) as [H | H | H]; [exfalso; lra | reflexivity | exfalso; lra].
Qed.

Lemma b64v_neg (x : Q) : x < 0 -> b64v x == - round_pos (- x).
Proof.
  intros Hx. unfold b64v. rewrite Qred_correct.
  destruct (Qcompare_spec 0 x) as [H | H | H]; [exfalso; lra | exfalso; lra | reflexivity].
Qed.

Lemma b64v_zero (x : Q) : x == 0 -> b64v x = 0.
Proof.
  intros Hx. unfold b64v.
  destruct (Qcompare_spec 0 x) as [H | H | H]; [reflexivity | exfalso; lra | exfalso; lra].
Qed.

Lemma Qred_Qred (x : Q) : Qred (Qred x) = Qred x.
Proof. apply Qred_complete, Qred_correct. Qed.

Lemma b64v_reduced (x : Q) : Qred (b64v x) = b64v x.
Proof. unfold b64v. apply Qred_Qred. Qed.

Lemma b64v_comp (x y : Q) : x == y -> b64v x = b64v y.
Proof.
  intros E. rewrite <- (b64v_reduced x), <- (b64v_reduced y).
  apply Qred_complete.
  destruct (Qcompare_spec 0 x) as [H | H | H].
  - rewrite (b64v_zero x) by (symmetry; assumption).
    rewrite (b64v_zero y) by (rewrite <- E; symmetry; assumption). reflexivity.
  - rewrite (b64v_pos x H), (b64v_pos y) by (rewrite <- E; assumption).
    now apply round_pos_comp.
  - rewrite (b64v_neg x H), (b64v_neg y) by (rewrite <- E; assumption).
    apply Qopp_comp. apply round_pos_comp; [lra | now rewrite E].
Qed.

Lemma b64v_opp (x : Q) : b64v (- x) == - b64v x.
Proof.
  destruct (Qcompare_spec 0 x) as [H | H | H].
  - rewrite (b64v_zero x) by (symmetry; assumption).
    rewrite (b64v_zero (- x)) by (rewrite <- H; reflexivity). reflexivity.
  - rewrite (b64v_pos x H), (b64v_neg (- x)) by lra.
    apply Qopp_comp. apply round_pos_comp; [lra | ring].
  - rewrite (b64v_neg x H), (b64v_pos (- x)) by lra. ring.
Qed.

Lemma b64v_nonneg (x : Q) : 0 <= x -> 0 <= b64v x.
Proof.
  intros Hx. destruct (Qcompare_spec 0 x) as [H | H | H].
  - rewrite (b64v_zero x) by (symmetry; assumption). lra.
  - rewrite (b64v_pos x H). now apply round_pos_nonneg.
  - lra.
Qed.

Lemma b64v_nonpos (x : Q) : x <= 0 -> b64v x <= 0.
Proof.
  intros Hx. pose proof (b64v_nonneg (- x) ltac:(lra)) as H.
  rewrite b64v_opp in H. lra.
Qed.

Lemma b64v_mono (x y : Q) : x <= y -> b64v x <= b64v y.
Proof.
  intros Hxy.
  destruct (Qlt_le_dec 0 x) as [Hx | Hx].
  - rewrite (b64v_pos x Hx), (b64v_pos y) by lra. now apply round_pos_mono.
  - destruct (Qlt_le_dec y 0) as [Hy | Hy].
    + rewrite (b64v_neg y Hy), (b64v_neg x) by lra.
      apply Qopp_le_compat. apply round_pos_mono; lra.
    + apply Qle_trans with 0; [now apply b64v_nonpos | now apply b64v_nonneg].
Qed.

(** Numbers with at most 53 significant bits on the grid of the binary64
    numbers are binary64 numbers. *)
Lemma b64v_exact (x : Q) (k j : Z) :
  x == inject_Z k * pow2 j -> (Z.abs k < 2 ^ 53)%Z -> (-1074 <= j)%Z ->
  b64v x == x.
Proof.
  intros E Hk Hj. pose proof (pow2_pos j) as Hp.
  destruct (Qcompare_spec 0 x) as [H | H | H].
  - rewrite (b64v_zero x) by (symmetry; assumption). assumption.
  - rewrite (b64v_pos x H). apply (round_pos_exact x k j); try assumption. lia.
  - rewrite (b64v_neg x H).
    rewrite (round_pos_exact (- x) (- k) j); try lra; try lia.
    rewrite E, inject_Z_opp. ring.
Qed.

Lemma b64v_Z (z : Z) : (Z.abs z <= 2 ^ 53)%Z -> b64v (inject_Z z) == inject_Z z.
Proof.
  intros Hz. destruct (Z.eq_dec (Z.abs z) (2 ^ 53)) as [E | E].
  - apply (b64v_exact _ (Z.sgn z) 53); [| destruct z; simpl; lia | lia].
    rewrite (pow2_Z 53) by lia. rewrite <- inject_Z_mult.
    apply inject_Z_injective. destruct z; simpl in *; lia.
  - apply (b64v_exact _ z 0); [| lia | lia].
    rewrite pow2_0. ring.
Qed.

Lemma b64v_pow2 (e : Z) : (-1074 <= e)%Z -> b64v (pow2 e) == pow2 e.
Proof.
  intros He. apply (b64v_exact _ 1 e); [| reflexivity | assumption].
  change (inject_Z 1) with 1. ring.
Qed.

Lemma b64v_form (x : Q) :
  exists k j, b64v x == inject_Z k * pow2 j
              /\ (Z.abs k < 2 ^ 53)%Z /\ (-1074 <= j)%Z.
Proof.
  destruct (Qcompare_spec 0 x) as [H | H | H].
  - exists 0%Z, 0%Z. rewrite (b64v_zero x) by (symmetry; assumption).
    split; [reflexivity | lia].
  - destruct (round_pos_form x H) as (k & j & E & Hk & Hj).
    exists k, j. rewrite (b64v_pos x H). split; [assumption | lia].
  - destruct (round_pos_form (- x) ltac:(lra)) as (k & j & E & Hk & Hj).
    exists (- k)%Z, j. rewrite (b64v_neg x H), E, inject_Z_opp.
    split; [ring | lia].
Qed.

(** A rounded number is a fixed point of the rounding. *)
Lemma b64v_idem (x : Q) : b64v (b64v x) = b64v x.
Proof.
  destruct (b64v_form x) as (k & j & E & Hk & Hj).
  pose proof (b64v_exact (b64v x) k j E Hk Hj) as H.
  transitivity (Qred (b64v (b64v x))); [symmetry; apply b64v_reduced |].
  transitivity (Qred (b64v x)); [| apply b64v_reduced].
  apply Qred_complete. exact H.
Qed.

Lemma is_b64_iff (x : Q) : is_b64 x = true <-> b64v x == x.
Proof. apply Qeq_bool_iff. Qed.

Lemma is_b64_b64v (x : Q) : is_b64 (b64v x) = true.
Proof. apply is_b64_iff. rewrite b64v_idem. reflexivity. Qed.

(** A binary64 number is a multiple of the smallest subnormal number. *)
Lemma b64_on_grid (x : Q) :
  b64v x == x -> exists k, x == inject_Z k * pow2 (-1074).
Proof.
  intros H. destruct (b64v_form x) as (k & j & E & Hk & Hj).
  exists (k * 2 ^ (j + 1074))%Z. rewrite <- H, E.
  rewrite (pow2_split j (j + 1074)) by lia.
  replace (j - (j + 1074))%Z with (-1074)%Z by lia.
  rewrite inject_Z_mult. ring.
Qed.

(** Below the smallest normal number every multiple of the smallest
    subnormal number is a binary64 number. *)
Lemma b64v_subnormal (x : Q) (k : Z) :
  x == inject_Z k * pow2 (-1074) -> Qabs x < pow2 (-1022) -> b64v x == x.
Proof.
  intros E Hx. apply (b64v_exact x k (-1074)); [assumption | | lia].
  pose proof (pow2_pos (-1074)) as Hp.
  assert (E2 : pow2 (-1022) == inject_Z (2 ^ 52) * pow2 (-1074)).
  { apply (pow2_split (-1022) 52). lia. }
  rewrite E2 in Hx.
  apply Z.abs_lt. rewrite !Zlt_Qlt.
  destruct (Qabs_Qle_condition x (Qabs x)) as [Hc _].
  specialize (Hc (Qle_refl _)).
  assert (Lt52 : inject_Z (2 ^ 52) < inject_Z (2 ^ 53)) by (rewrite <- Zlt_Qlt; lia).
  rewrite inject_Z_opp.
  split.
  - destruct (Qlt_le_dec (- inject_Z (2 ^ 53)) (inject_Z k)); [assumption |].
    exfalso. nra.
  - destruct (Qlt_le_dec (inject_Z k) (inject_Z (2 ^ 53))); [assumption |].
    exfalso. nra.
Qed.

(** Rounding moves a number by at most half the spacing at its exponent. *)
Lemma round_pos_close (x : Q) :
  0 < x ->
  - pow2 (exponent x - 53) <= round_pos x - x <= pow2 (exponent x - 53).
Proof.
  intros Hx. rewrite round_pos_unfold.
  set (e := exponent x). pose proof (pow2_pos (e - 52)) as Hq.
  pose proof (round_half_even_close (x / pow2 (e - 52))) as Hc.
  set (M := inject_Z (round_half_even (x / pow2 (e - 52)))) in *.
  assert (Ex : x == x / pow2 (e - 52) * pow2 (e - 52)).
  { symmetry. now apply div_mul_cancel. }
  set (m := x / pow2 (e - 52)) in *.
  assert (E : pow2 (e - 52) == 2 * pow2 (e - 53)).
  { rewrite <- pow2_succ. replace (e - 53 + 1)%Z with (e - 52)%Z by lia. reflexivity. }
  pose proof (pow2_pos (e - 53)) as Hq'.
  clearbody m e M.
  assert (G : - pow2 (e - 53) <= M * pow2 (e - 52) - m * pow2 (e - 52) <= pow2 (e - 53)).
  { rewrite E. split; nra. }
  rewrite <- Ex in G. exact G.
Qed.

Lemma b64v_close_unit (x : Q) :
  0 <= x <= 1 -> - pow2 (-53) <= b64v x - x <= pow2 (-53).
Proof.
  intros [H0 H1]. pose proof (pow2_pos (-53)) as Hp.
  destruct (Qcompare_spec 0 x) as [H | H | H].
  - rewrite (b64v_zero x) by (symmetry; assumption). rewrite <- H. split; lra.
  - rewrite (b64v_pos x H).
    pose proof (round_pos_close x H) as Hc.
    assert (He : (exponent x <= 0)%Z).
    { unfold exponent. destruct (ilog2_spec x H) as [S1 _].
      assert ((ilog2 x < 1)%Z) by (apply pow2_lt_inv; change (pow2 1) with 2; lra).
      lia. }
    pose proof (pow2_le (exponent x - 53) (-53) ltac:(lia)). split; lra.
  - lra.
Qed.

(** *** Overflow *)

Lemma b64_finite (x : Q) :
  - (3 * pow2 1022) <= x <= 3 * pow2 1022 -> b64 x = Finite (b64v x).
Proof.
  intros [H1 H2].
  assert (E3 : b64v (3 * pow2 1022) == 3 * pow2 1022).
  { apply (b64v_exact _ 3 1022); [reflexivity | lia | lia]. }
  assert (E4 : pow2 1024 == 4 * pow2 1022).
  { rewrite (pow2_split 1024 2) by lia. reflexivity. }
  pose proof (pow2_pos 1022) as Hp.
  apply b64v_mono in H1. apply b64v_mono in H2.
  rewrite b64v_opp in H1. rewrite E3 in H1, H2.
  unfold b64.
  destruct (Qle_bool (pow2 1024) (b64v x)) eqn:A.
  - apply Qle_bool_iff in A. exfalso. lra.
  - destruct (Qle_bool (b64v x) (- pow2 1024)) eqn:B; [| reflexivity].
    apply Qle_bool_iff in B. exfalso. lra.
Qed.

(** *** Quotients of counts *)

Lemma float_of_int_mono (a b : Z) :
  (a <= b)%Z -> float_of_int a <= float_of_int b.
Proof. intros H. apply b64v_mono. now rewrite <- Zle_Qle. Qed.

Lemma float_of_int_small (z : Z) :
  (Z.abs z <= 2 ^ 53)%Z -> float_of_int z == inject_Z z.
Proof. apply b64v_Z. Qed.

Lemma float_of_int_0 : float_of_int 0 = 0.
Proof. reflexivity. Qed.

Lemma float_of_int_1 : float_of_int 1 = 1.
Proof. reflexivity. Qed.

(** The rounded quotient of two counts [k <= n] is between 0 and 1. *)
Lemma float_quotient_unit (k n : Z) :
  (0 <= k <= n)%Z -> (0 < n)%Z ->
  0 <= b64v (float_of_int k / float_of_int n) <= 1.
Proof.
  intros Hk Hn.
  pose proof (float_of_int_mono 0 k ltac:(lia)) as H0.
  pose proof (float_of_int_mono k n ltac:(lia)) as H1.
  pose proof (float_of_int_mono 1 n ltac:(lia)) as H2.
  rewrite float_of_int_0 in H0. rewrite float_of_int_1 in H2.
  set (a := float_of_int k) in *. set (b := float_of_int n) in *.
  assert (Hq : 0 <= a / b <= 1).
  { split.
    - apply Qle_shift_div_l; lra.
    - apply Qle_shift_div_r; lra. }
  split.
  - apply b64v_nonneg. tauto.
  - apply Qle_trans with (b64v 1); [apply b64v_mono; tauto |].
    change (b64v 1) with 1. apply Qle_refl.
Qed.

(** Up to [2 ^ 53] rows the rounded quotient is within [2 ^ -53] of the
    exact one. *)
Lemma float_quotient_close (k n : Z) :
  (0 <= k <= n)%Z -> (0 < n <= 2 ^ 53)%Z ->
  - pow2 (-53)
  <= b64v (float_of_int k / float_of_int n) - inject_Z k / inject_Z n
  <= pow2 (-53).
Proof.
  intros Hk Hn.
  assert (Ek : float_of_int k == inject_Z k) by (apply float_of_int_small; lia).
  assert (En : float_of_int n == inject_Z n) by (apply float_of_int_small; lia).
  assert (E : float_of_int k / float_of_int n == inject_Z k / inject_Z n).
  { rewrite Ek, En. reflexivity. }
  rewrite (b64v_comp _ _ E).
  apply b64v_close_unit.
  assert (H0 : 0 <= inject_Z k).
  { change 0 with (inject_Z 0). rewrite <- Zle_Qle. lia. }
  assert (H1 : inject_Z k <= inject_Z n) by (rewrite <- Zle_Qle; lia).
  assert (H2 : 0 < inject_Z n).
  { change 0 with (inject_Z 0). rewrite <- Zlt_Qlt. lia. }
  split.
  - apply Qle_shift_div_l; lra.
  - apply Qle_shift_div_r; lra.
Qed.

(** *** Order and arithmetic of floats *)

Lemma b64_cases (x : Q) :
  (b64 x = Inf false /\ pow2 1024 <= b64v x)
  \/ (b64 x = Inf true /\ b64v x <= - pow2 1024)
  \/ (b64 x = Finite (b64v x) /\ - pow2 1024 < b64v x < pow2 1024).
Proof.
  unfold b64. pose proof (pow2_pos 1024) as Hp.
  destruct (Qle_bool (pow2 1024) (b64v x)) eqn:A.
  - apply Qle_bool_iff in A. auto.
  - assert (A' : ~ pow2 1024 <= b64v x) by (rewrite <- Qle_bool_iff; congruence).
    destruct (Qle_bool (b64v x) (- pow2 1024)) eqn:B.
    + apply Qle_bool_iff in B. auto.
    + assert (B' : ~ b64v x <= - pow2 1024) by (rewrite <- Qle_bool_iff; congruence).
      right. right. split; [reflexivity | lra].
Qed.

Lemma b64_not_nan (x : Q) : b64 x <> NaN.
Proof.
  destruct (b64_cases x) as [[E _] | [[E _] | [E _]]]; rewrite E; discriminate.
Qed.

Lemma b64_comp (x y : Q) : x == y -> b64 x = b64 y.
Proof. intros E. unfold b64. now rewrite (b64v_comp x y E). Qed.

(** Rounding is monotone, overflow included. *)
Lemma b64_mono (x y : Q) : x <= y -> fle (b64 x) (b64 y) = true.
Proof.
  intros H. apply b64v_mono in H. pose proof (pow2_pos 1024) as Hp.
  destruct (b64_cases x) as [[E A] | [[E A] | [E A]]];
    destruct (b64_cases y) as [[E' A'] | [[E' A'] | [E' A']]];
    rewrite E, E'; simpl; try reflexivity; try (exfalso; lra).
  apply Qle_bool_iff. assumption.
Qed.

Lemma b64_nonneg_cases (x : Q) :
  0 <= x ->
  b64 x = Inf false \/ (b64 x = Finite (b64v x) /\ 0 <= b64v x).
Proof.
  intros H. apply b64v_nonneg in H. pose proof (pow2_pos 1024) as Hp.
  destruct (b64_cases x) as [[E A] | [[E A] | [E A]]]; auto.
  exfalso. lra.
Qed.

Lemma fle_refl_finite (x : Q) : fle (Finite x) (Finite x) = true.
Proof. apply Qle_bool_iff. lra. Qed.

Ltac qbool :=
  repeat match goal with
         | H : negb _ = true |- _ => apply negb_true_iff in H
         | H : negb _ = false |- _ => apply negb_false_iff in H
         | H : Qle_bool _ _ = true |- _ => apply Qle_bool_iff in H
         | H : Qle_bool _ _ = false |- _ =>
             apply Bool.not_true_iff_false in H; rewrite Qle_bool_iff in H
         | |- negb _ = true => apply negb_true_iff
         | |- negb _ = false => apply negb_false_iff
         | |- Qle_bool _ _ = true => apply Qle_bool_iff
         | |- Qle_bool _ _ = false =>
             apply Bool.not_true_iff_false; rewrite Qle_bool_iff
         end.

Ltac fcases :=
  intros; simpl in *;
  repeat match goal with b : bool |- _ => destruct b end;
  simpl in *; try discriminate; try reflexivity; try (qbool; lra).

Lemma flt_fle_trans (x a b : pyfloat) :
  flt x a = true -> fle a b = true -> flt x b = true.
Proof. destruct x, a, b; fcases. Qed.

Lemma fle_flt_trans (a b x : pyfloat) :
  fle a b = true -> flt b x = true -> flt a x = true.
Proof. destruct x, a, b; fcases. Qed.

Lemma fle_trans (a b c : pyfloat) :
  fle a b = true -> fle b c = true -> fle a c = true.
Proof. destruct a, b, c; fcases. Qed.

(** No number lies below [low] and above [high] when [low <= high]. *)
Lemma flt_fle_disjoint (x low high : pyfloat) :
  fle low high = true -> flt x low = true -> flt high x = true -> False.
Proof. destruct x, low, high; fcases. Qed.

Lemma flt_irrefl (x : pyfloat) : flt x x = false.
Proof. destruct x; fcases. Qed.

Lemma fle_not_flt (low high : pyfloat) :
  fle low high = true -> flt high low = false.
Proof. destruct low, high; fcases. Qed.

(** ** Missing-value analyzer *)

Lemma filter_length_le {A} (f : A -> bool) (l : list A) :
  (length (filter f l) <= length l)%nat.
Proof.
  induction l as [| x l IH]; simpl; [lia |]. destruct (f x); simpl; lia.
Qed.

Lemma filter_length_mono {A} (f g : A -> bool) (l : list A) :
  (forall x, f x = true -> g x = true) ->
  (length (filter f l) <= length (filter g l))%nat.
Proof.
  intros Hfg. induction l as [| x l IH]; simpl; [lia |].
  destruct (f x) eqn:Hf.
  - rewrite (Hfg x Hf). simpl. lia.
  - destruct (g x); simpl; lia.
Qed.

Lemma filter_disjoint_length {A} (f g : A -> bool) (l : list A) :
  (forall x, f x = true -> g x = true -> False) ->
  (length (filter f l) + length (filter g l) <= length l)%nat.
Proof.
  intros Hfg. induction l as [| x l IH]; simpl; [lia |].
  destruct (f x) eqn:Hf, (g x) eqn:Hg; simpl; try lia.
  exfalso. eauto.
Qed.

Lemma isna_sum_bounds (s : Series) :
  (0 <= isna_sum s <= Z.of_nat (length (cells s)))%Z.
Proof.
  unfold isna_sum. split; [lia |]. apply inj_le, filter_length_le.
Qed.

(** What [missing_summary] computes, as one expression. *)
Lemma run_missing_summary (df : DataFrame) :
  run missing_summary df =
  match
    to_dict_index
      (map (fun '(c, k) => (c, mkMissingEntry k (np_true_divide k (len df))))
           (map (fun s => (name s, isna_sum s)) (columns df)))
  with
  | Ok per =>
      Ok (mkMissingReport (len df) (Z.of_nat (length (columns df))) per)
  | Raise e => Raise e
  end.
Proof.
  unfold run, missing_summary, bind, read, lift, ret. simpl.
  destruct (to_dict_index _); reflexivity.
Qed.

Lemma wf_frame_unique (df : DataFrame) :
  wf_frame df = true -> unique_labels (column_names df) = true.
Proof. unfold wf_frame. now intros [H _]%andb_true_iff. Qed.

Lemma wf_frame_lengths (df : DataFrame) (s : Series) :
  wf_frame df = true -> In s (columns df) -> length (cells s) = index_len df.
Proof.
  unfold wf_frame. intros [_ H]%andb_true_iff Hin.
  rewrite forallb_forall in H. apply Nat.eqb_eq. auto.
Qed.




(** C1.  The code at a Dataset with one float column and no row: the
    analyzer returns [nan] as the column's [missing_pct], where the claim
    asks for 0.0; [nan] is not between 0 and 1 either. *)
Theorem missing_summary_zero_rows_is_nan :
  run missing_summary (mkFrame 0 [mkSeries "x" (Float64Data [])])
  = Ok (mkMissingReport 0 1 [("x", mkMissingEntry 0 NaN)]).
Proof. reflexivity. Qed.

(** ** Dtype checker *)

Lemma run_dtype_issues (df : DataFrame) (expected : option (dict string)) :
  run (dtype_issues expected) df =
  Ok (mkDtypeReport (actual_of df)
        (fold_left (issues_step (actual_of df)) (expected_items expected) [])).
Proof.
  unfold run, dtype_issues, bind, read, ret. simpl. fold (actual_of df).
  destruct expected as [[| item items] |]; reflexivity.
Qed.

Lemma differs_true_iff (act : option string) (exp : string) :
  differs act exp = true <-> act <> Some exp.
Proof.
  destruct act as [a |]; simpl.
  - rewrite negb_true_iff. destruct (String.eqb_spec a exp); split; congruence.
  - split; [discriminate | reflexivity].
Qed.

Lemma actual_fold_none (cols : list Series) (d : dict string) (c : string) :
  dict_get (fold_left (fun d s => dict_set d (name s) (dtype_str (series_dtype s)))
                      cols d) c = None
  <-> dict_get d c = None /\ ~ In c (map name cols).
Proof.
  revert d. induction cols as [| s cols IH]; intros d; simpl.
  - tauto.
  - rewrite IH. destruct (String.eqb_spec c (name s)) as [-> | Hne].
    + rewrite dict_get_set_eq. split; [intros [H _]; discriminate | tauto].
    + rewrite dict_get_set_neq by assumption. intuition congruence.
Qed.

Lemma actual_fold_keep (cols : list Series) (d : dict string) c v :
  ~ In c (map name cols) -> dict_get d c = Some v ->
  dict_get (fold_left (fun d s => dict_set d (name s) (dtype_str (series_dtype s)))
                      cols d) c = Some v.
Proof.
  revert d. induction cols as [| s cols IH]; intros d Hc Hd; simpl in *.
  - assumption.
  - apply IH; [intros H; apply Hc; now right |].
    rewrite dict_get_set_neq; [assumption |].
    intros ->. apply Hc. now left.
Qed.

Lemma actual_fold_unique (cols : list Series) (d : dict string) (s : Series) :
  NoDup (map name cols) -> In s cols ->
  dict_get (fold_left (fun d s => dict_set d (name s) (dtype_str (series_dtype s)))
                      cols d) (name s)
  = Some (dtype_str (series_dtype s)).
Proof.
  revert d. induction cols as [| s0 cols IH]; intros d Hnd Hin; simpl in *.
  - contradiction.
  - inversion Hnd as [| ? ? Hs0 Hcols]; subst. destruct Hin as [-> | Hin].
    + apply actual_fold_keep; [assumption | apply dict_get_set_eq].
    + apply IH; assumption.
Qed.

Lemma issues_fold_keys (actual : dict string) (items : dict string)
  (acc : dict Mismatch) (c : string) :
  In c (dict_keys (fold_left (issues_step actual) items acc)) <->
  In c (dict_keys acc)
  \/ exists exp, In (c, exp) items /\ dict_get actual c <> Some exp.
Proof.
  revert acc. induction items as [| [c0 exp0] items IH]; intros acc; simpl.
  - split; [auto | intros [H | [exp [[] _]]]; assumption].
  - rewrite IH. unfold issues_step.
    destruct (differs (dict_get actual c0) exp0) eqn:E.
    + rewrite dict_keys_set. apply differs_true_iff in E. split.
      * intros [[-> | H] | [exp [Hin Hne]]]; eauto.
      * intros [H | [exp [[Heq | Hin] Hne]]]; eauto.
        inversion Heq; subst. auto.
    + assert (Hn : ~ dict_get actual c0 <> Some exp0).
      { rewrite <- differs_true_iff. congruence. }
      split.
      * intros [H | [exp [Hin Hne]]]; eauto.
      * intros [H | [exp [[Heq | Hin] Hne]]]; eauto.
        inversion Heq; subst. contradiction.
Qed.

Lemma issues_fold_actual (actual : dict string) (items : dict string)
  (acc : dict Mismatch) :
  (forall c m, dict_get acc c = Some m -> mismatch_actual m = dict_get actual c) ->
  forall c m,
    dict_get (fold_left (issues_step actual) items acc) c = Some m ->
    mismatch_actual m = dict_get actual c.
Proof.
  revert acc. induction items as [| [c0 exp0] items IH]; intros acc Hacc; simpl.
  - assumption.
  - apply IH. unfold issues_step.
    destruct (differs (dict_get actual c0) exp0); [| assumption].
    intros c m. destruct (String.eqb_spec c c0) as [-> | Hne].
    + rewrite dict_get_set_eq. intros [= <-]. reflexivity.
    + rewrite dict_get_set_neq by assumption. apply Hacc.
Qed.

(** C2, as the code has it.  The checker always returns.  A label has no
    entry in [actual_dtypes] exactly when it is not a column of the Dataset.
    [dtype_mismatches] holds exactly the labels of the expected schema whose
    expected kind is not the actual one, where a label that is not a column
    has no actual kind and so is always listed, with [None] as its actual
    kind.  It is empty when the expected schema is omitted or empty. *)
Theorem dtype_mismatches_exact :
  forall (df : DataFrame) (expected : option (dict string)),
  exists rep,
    run (dtype_issues expected) df = Ok rep
    /\ (forall c, dict_get (actual_dtypes rep) c = None <-> has_column df c = false)
    /\ (unique_labels (column_names df) = true ->
        forall s, In s (columns df) ->
          dict_get (actual_dtypes rep) (name s) = Some (dtype_str (series_dtype s)))
    /\ (forall c, In c (dict_keys (dtype_mismatches rep)) <->
          exists exp, In (c, exp) (expected_items expected)
                      /\ dict_get (actual_dtypes rep) c <> Some exp)
    /\ (forall c m, dict_get (dtype_mismatches rep) c = Some m ->
          mismatch_actual m = dict_get (actual_dtypes rep) c)
    /\ (expected = None \/ expected = Some [] -> dtype_mismatches rep = []).
Proof.
  intros df expected. rewrite run_dtype_issues. eexists. split; [reflexivity |].
  simpl. repeat split.
  - unfold actual_of. rewrite actual_fold_none. intros [_ Hc].
    unfold has_column, column_names. apply Bool.not_true_iff_false.
    intros He. apply Hc. apply existsb_exists in He.
    destruct He as [x [Hx Hcx]]. apply String.eqb_eq in Hcx. now subst.
  - unfold actual_of. rewrite actual_fold_none. intros Hc. split; [reflexivity |].
    intros Hin. apply Bool.not_true_iff_false in Hc. apply Hc.
    unfold has_column, column_names. apply existsb_exists.
    exists c. split; [assumption | apply String.eqb_refl].
  - intros Hu s Hs. apply actual_fold_unique; [| assumption].
    now apply unique_labels_NoDup.
  - rewrite issues_fold_keys. simpl. intros [[] | H]; assumption.
  - rewrite issues_fold_keys. auto.
  - apply issues_fold_actual. simpl. discriminate.
  - intros [-> | ->]; reflexivity.
Qed.

(** C2, the claim as written fails: a label of the expected schema that is
    not a column of the Dataset is listed in [dtype_mismatches]. *)
Lemma dtype_mismatches_lists_absent_column :
  exists rep,
    run (dtype_issues (Some [("b", "int64")]))
        (mkFrame 1 [mkSeries "a" (Int64Data [1%Z])]) = Ok rep
    /\ has_column (mkFrame 1 [mkSeries "a" (Int64Data [1%Z])]) "b" = false
    /\ dict_get (dtype_mismatches rep) "b" = Some (mkMismatch "int64" None).
Proof. eexists. repeat split. Qed.

(** ** Report builder *)

Lemma run_validate (expected : option (dict string)) (df : DataFrame) :
  run (validate expected) df =
  match run missing_summary df with
  | Raise e => Raise e
  | Ok missing =>
      match run (duplicates None) df with
      | Raise e => Raise e
      | Ok dups =>
          match run (dtype_issues expected) df with
          | Raise e => Raise e
          | Ok dtypes =>
              match run (cardinality_report 5) df with
              | Raise e => Raise e
              | Ok cardinality =>
                  match run (outlier_summary None (Finite (3 # 2))) df with
                  | Raise e => Raise e
                  | Ok outliers =>
                      Ok (mkReport missing dups dtypes cardinality outliers)
                  end
              end
          end
      end
  end.
Proof.
  unfold validate.
  rewrite run_bind by apply read_only_missing_summary.
  destruct (run missing_summary df); [| reflexivity].
  rewrite run_bind by apply read_only_duplicates.
  destruct (run (duplicates None) df); [| reflexivity].
  rewrite run_bind by apply read_only_dtype_issues.
  destruct (run (dtype_issues expected) df); [| reflexivity].
  rewrite run_bind by apply read_only_cardinality_report.
  destruct (run (cardinality_report 5) df); [| reflexivity].
  rewrite run_bind by apply read_only_outlier_summary.
  destruct (run (outlier_summary None (Finite (3 # 2))) df); reflexivity.
Qed.

(** C3, as the code has it.  [validate] has no handler around its
    sub-checks.  It returns a report exactly when all five sub-checks return,
    and the report then holds their five results; when it raises, the error
    is the one a sub-check raised; and as soon as one sub-check raises,
    [validate] raises and returns no report, so neither the other results
    nor an error marker reach the caller. *)
Theorem validate_propagates_failure :
  forall (expected : option (dict string)) (df : DataFrame),
    (forall rep,
        run (validate expected) df = Ok rep <->
        run missing_summary df = Ok (report_missing rep)
        /\ run (duplicates None) df = Ok (report_duplicates rep)
        /\ run (dtype_issues expected) df = Ok (report_dtypes rep)
        /\ run (cardinality_report 5) df = Ok (report_cardinality rep)
        /\ run (outlier_summary None (Finite (3 # 2))) df = Ok (report_outliers rep))
    /\ (forall e,
          run (validate expected) df = Raise e ->
          run missing_summary df = Raise e
          \/ run (duplicates None) df = Raise e
          \/ run (dtype_issues expected) df = Raise e
          \/ run (cardinality_report 5) df = Raise e
          \/ run (outlier_summary None (Finite (3 # 2))) df = Raise e)
    /\ (forall e,
          run missing_summary df = Raise e
          \/ run (duplicates None) df = Raise e
          \/ run (dtype_issues expected) df = Raise e
          \/ run (cardinality_report 5) df = Raise e
          \/ run (outlier_summary None (Finite (3 # 2))) df = Raise e ->
          exists e', run (validate expected) df = Raise e').
Proof.
  intros expected df. rewrite run_validate.
  destruct (run missing_summary df) as [m | e1].
  2: { split; [| split].
       - intros rep. split; [discriminate | intros (H & _); discriminate].
       - intros e [= ->]. auto.
       - intros e _. eexists; reflexivity. }
  destruct (run (duplicates None) df) as [d | e2].
  2: { split; [| split].
       - intros rep. split; [discriminate | intros (_ & H & _); discriminate].
       - intros e [= ->]. auto.
       - intros e _. eexists; reflexivity. }
  destruct (run (dtype_issues expected) df) as [t | e3].
  2: { split; [| split].
       - intros rep. split; [discriminate | intros (_ & _ & H & _); discriminate].
       - intros e [= ->]. auto.
       - intros e _. eexists; reflexivity. }
  destruct (run (cardinality_report 5) df) as [c | e4].
  2: { split; [| split].
       - intros rep. split; [discriminate | intros (_ & _ & _ & H & _); discriminate].
       - intros e [= ->]. auto.
       - intros e _. eexists; reflexivity. }
  destruct (run (outlier_summary None (Finite (3 # 2))) df) as [o | e5].
  2: { split; [| split].
       - intros rep. split; [discriminate | intros (_ & _ & _ & _ & H); discriminate].
       - intros e [= ->]. auto 6.
       - intros e _. eexists; reflexivity. }
  split; [| split].
  - intros rep. split.
    + intros [= <-]. simpl. auto.
    + destruct rep; simpl. intros (H1 & H2 & H3 & H4 & H5). congruence.
  - intros e H. discriminate.
  - intros e [H | [H | [H | [H | H]]]]; discriminate.
Qed.

(** C3, the claim as written fails: on a one-row Dataset with a column that
    holds a list and a column of integers, the Duplicate Detector raises
    while the four other sub-checks return, and [validate] raises instead of
    returning a report with four results and an error marker. *)
Lemma validate_does_not_isolate_failures :
  let df := mkFrame 1 [mkSeries "x" (ObjectData [Some (PUnhashable "[1]")]);
                       mkSeries "y" (Int64Data [7%Z])] in
  run (duplicates None) df = Raise (TypeError "unhashable type")
  /\ (exists m, run missing_summary df = Ok m)
  /\ (exists t, run (dtype_issues None) df = Ok t)
  /\ (exists c, run (cardinality_report 5) df = Ok c)
  /\ (exists o, run (outlier_summary None (Finite (3 # 2))) df = Ok o)
  /\ run (validate None) df = Raise (TypeError "unhashable type")
  /\ ~ (exists rep, run (validate None) df = Ok rep).
Proof.
  cbv zeta. repeat split; try (eexists; reflexivity).
  intros [rep H]. discriminate H.
Qed.

(** ** Duplicate detector *)

Lemma run_duplicates (subset : option (list string)) (df : DataFrame) :
  run (duplicates subset) df =
  match duplicated df subset with
  | Raise e => Raise e
  | Ok dup_mask =>
      Ok (mkDuplicateReport (mask_sum dup_mask)
            (if (mask_sum dup_mask =? 0)%Z then []
             else to_dict_records df (slice_to 5 (mask_positions dup_mask 0))))
  end.
Proof.
  unfold run, duplicates, bind, call, read, ret.
  destruct subset as [l |]; simpl;
    (destruct (duplicated df _) as [mask | e]; simpl; [| reflexivity]);
    destruct (mask_sum mask =? 0)%Z; reflexivity.
Qed.

(** C4, as the code has it.  When [subset] names a label that is not a
    column, the detector raises [KeyError] for such a label on every Dataset
    that has at least one row and one column; on an empty Dataset the library
    answers before it looks at [subset], and the detector returns the normal
    report of no duplicate. *)
Theorem duplicates_unknown_subset_column :
  forall (df : DataFrame) (subset : list string) (c : string),
    In c subset -> has_column df c = false ->
    if empty df then
      run (duplicates (Some subset)) df = Ok (mkDuplicateReport 0 [])
    else
      exists c', In c' subset /\ has_column df c' = false
                 /\ run (duplicates (Some subset)) df = Raise (KeyError c').
Proof.
  intros df subset c Hin Hc. rewrite run_duplicates. unfold duplicated.
  destruct (empty df); [reflexivity |].
  destruct (find (fun c0 => negb (has_column df c0)) subset) as [c' |] eqn:Hfind.
  - apply find_some in Hfind. destruct Hfind as [Hin' Hc'].
    apply negb_true_iff in Hc'. exists c'. auto.
  - exfalso. apply (find_none _ _ Hfind) in Hin. rewrite Hc in Hin. discriminate.
Qed.

(** An instance: two rows, one column, and a subset that names [zz]. *)
Lemma duplicates_unknown_subset_column_witness :
  exists c',
    In c' ["id"; "zz"] /\ has_column (mkFrame 2 [mkSeries "id" (Int64Data [1; 1]%Z)]) c' = false
    /\ run (duplicates (Some ["id"; "zz"]))
           (mkFrame 2 [mkSeries "id" (Int64Data [1; 1]%Z)])
       = Raise (KeyError c').
Proof.
  apply (duplicates_unknown_subset_column
           (mkFrame 2 [mkSeries "id" (Int64Data [1; 1]%Z)]) ["id"; "zz"] "zz").
  - simpl. auto.
  - reflexivity.
Defined.

(** C4, the claim as written fails: on a Dataset with one column and no row,
    a subset naming an unknown column gives the normal report. *)
Lemma duplicates_unknown_column_on_empty_frame :
  has_column (mkFrame 0 [mkSeries "x" (Float64Data [])]) "zz" = false
  /\ run (duplicates (Some ["zz"])) (mkFrame 0 [mkSeries "x" (Float64Data [])])
     = Ok (mkDuplicateReport 0 []).
Proof. split; reflexivity. Qed.

(** ** Loops that fill a dict, one key per item *)

Lemma fold_set_get_notin {V} (f : string -> V) (l : list string) (acc : dict V) c :
  ~ In c l ->
  dict_get (fold_left (fun d k => dict_set d k (f k)) l acc) c = dict_get acc c.
Proof.
  revert acc. induction l as [| k l IH]; intros acc Hc; simpl in *.
  - reflexivity.
  - rewrite IH by tauto. apply dict_get_set_neq. intros ->. tauto.
Qed.

Lemma fold_set_get_in {V} (f : string -> V) (l : list string) (acc : dict V) c :
  In c l ->
  dict_get (fold_left (fun d k => dict_set d k (f k)) l acc) c = Some (f c).
Proof.
  revert acc. induction l as [| k l IH]; intros acc Hin; simpl in *.
  - contradiction.
  - destruct (in_dec string_dec c l) as [Hl | Hl].
    + apply IH; assumption.
    + destruct Hin as [-> | Hin]; [| contradiction].
      rewrite fold_set_get_notin by assumption. apply dict_get_set_eq.
Qed.

Lemma fold_set_keys {V} (f : string -> V) (l : list string) (acc : dict V) c :
  In c (dict_keys (fold_left (fun d k => dict_set d k (f k)) l acc)) <->
  In c (dict_keys acc) \/ In c l.
Proof.
  revert acc. induction l as [| k l IH]; intros acc; simpl.
  - tauto.
  - rewrite IH, dict_keys_set. intuition.
Qed.

Lemma fold_result_ext {X S} (l : list X) (f g : X -> S -> result S) :
  (forall x acc, f x acc = g x acc) ->
  forall acc, fold_result l f acc = fold_result l g acc.
Proof.
  intros Hfg. induction l as [| x l IH]; intros acc; simpl.
  - reflexivity.
  - rewrite Hfg. destruct (g x acc); auto.
Qed.

(** A loop whose body always writes [f k] under the key [k]. *)
Lemma fold_result_set {V} (f : string -> V) (l : list string) (acc : dict V) :
  fold_result l (fun k d => Ok (dict_set d k (f k))) acc
  = Ok (fold_left (fun d k => dict_set d k (f k)) l acc).
Proof.
  revert acc. induction l as [| k l IH]; intros acc; simpl; auto.
Qed.

(** ** Cardinality analyzer *)

Lemma read_only_cardinality_body (top_n : Z) (col : string)
  (report : dict CardinalityEntry) :
  read_only
    (try_except
       (s <- call (fun df => getitem df col) ;;
        vc <- lift (value_counts s) ;;
        ret (dict_set report col
               (CardValues (Z.of_nat (length vc)) (slice_to top_n vc))))
       (ret (dict_set report col (CardError "could not compute value_counts")))).
Proof. frame_tac. Qed.

Lemma run_cardinality_report (top_n : Z) (df : DataFrame) :
  run (cardinality_report top_n) df =
  Ok (fold_left (fun d k => dict_set d k (cardinality_entry df top_n k))
                (column_names df) []).
Proof.
  unfold cardinality_report. rewrite run_bind by apply read_only_read.
  unfold run at 1, read. simpl.
  rewrite run_for_each by (intros; apply read_only_cardinality_body).
  rewrite <- fold_result_set. apply fold_result_ext.
  intros col report. unfold cardinality_entry, run, try_except, bind, call, lift, ret.
  simpl. destruct (getitem df col) as [s | e]; simpl; [| reflexivity].
  destruct (value_counts s); reflexivity.
Qed.

Lemma getitem_ok_in (df : DataFrame) (c : string) (s : Series) :
  getitem df c = Ok s -> In s (columns df) /\ name s = c.
Proof.
  unfold getitem, find_series.
  destruct (find _ (columns df)) as [s' |] eqn:Hfind; [| discriminate].
  intros [= ->]. apply find_some in Hfind. destruct Hfind as [Hin Heq].
  apply String.eqb_eq in Heq. auto.
Qed.

Lemma getitem_ok_name (df : DataFrame) (c : string) (s : Series) :
  getitem df c = Ok s -> In c (column_names df).
Proof.
  intros H. apply getitem_ok_in in H. destruct H as [Hin <-].
  unfold column_names. now apply in_map.
Qed.

Lemma getitem_raise (df : DataFrame) (c : string) (e : exn) :
  getitem df c = Raise e -> has_column df c = false /\ e = KeyError c.
Proof.
  unfold getitem, find_series, has_column, column_names.
  destruct (find _ (columns df)) as [s' |] eqn:Hfind; [discriminate |].
  intros [= <-]. split; [| reflexivity].
  apply Bool.not_true_iff_false. intros He. apply existsb_exists in He.
  destruct He as [x [Hx Hcx]]. apply in_map_iff in Hx.
  destruct Hx as [s [<- Hs]]. apply (find_none _ _ Hfind) in Hs.
  simpl in Hs. congruence.
Qed.

Lemma has_column_false_getitem (df : DataFrame) (c : string) :
  has_column df c = false -> getitem df c = Raise (KeyError c).
Proof.
  intros Hc. destruct (getitem df c) as [s | e] eqn:E.
  - apply getitem_ok_name in E. exfalso.
    apply Bool.not_true_iff_false in Hc. apply Hc.
    unfold has_column. apply existsb_exists. exists c.
    split; [assumption | apply String.eqb_refl].
  - apply getitem_raise in E. destruct E as [_ ->]. reflexivity.
Qed.

(** C6, as the code has it.  The analyzer never raises.  Its report has one
    entry per column of the Dataset and no other entry.  The entry of a
    column whose frequency count fails is the error entry with the message
    [could not compute value_counts]; the entry of every other column holds
    the number of distinct cells and the first [top_n] frequency counts,
    whatever happened for the columns around it. *)
Theorem cardinality_report_isolates_columns :
  forall (df : DataFrame) (top_n : Z),
  exists report,
    run (cardinality_report top_n) df = Ok report
    /\ (forall c, In c (dict_keys report) <-> In c (column_names df))
    /\ (forall c s,
          getitem df c = Ok s ->
          dict_get report c =
          Some (match value_counts s with
                | Ok vc => CardValues (Z.of_nat (length vc)) (slice_to top_n vc)
                | Raise _ => CardError "could not compute value_counts"
                end)).
Proof.
  intros df top_n. rewrite run_cardinality_report.
  eexists. split; [reflexivity |]. split.
  - intros c. rewrite fold_set_keys. simpl. tauto.
  - intros c s Hs. rewrite fold_set_get_in by (eapply getitem_ok_name; eauto).
    unfold cardinality_entry. rewrite Hs. reflexivity.
Qed.

(** C6, the claim as written fails: the error entry of a column that cannot
    be counted does not carry the message [unsupported column kind].  The
    column next to it still gets its normal entry. *)
Lemma cardinality_error_message_differs :
  let df := mkFrame 2 [mkSeries "x" (ObjectData [Some (PUnhashable "[1]"); None]);
                       mkSeries "y" (Int64Data [7; 7]%Z)] in
  run (cardinality_report 5) df
  = Ok [("x", CardError "could not compute value_counts");
        ("y", CardValues 1 [(Some (PInt 7), 2%Z)])]
  /\ CardError "could not compute value_counts" <> CardError "unsupported column kind".
Proof. cbv zeta. split; [reflexivity | discriminate]. Qed.

(** ** Loops that may raise *)

Section StoreLoop.
Context {V : Type}.
Variable g : string -> result V.

Lemma store_loop_ok (l : list string) (acc d : dict V) :
  fold_result l (store_step g) acc = Ok d ->
  (forall c, In c l -> exists v, g c = Ok v /\ dict_get d c = Some v)
  /\ (forall c, ~ In c l -> dict_get d c = dict_get acc c)
  /\ (forall c, In c (dict_keys d) <-> In c (dict_keys acc) \/ In c l).
Proof.
  revert acc. induction l as [| k l IH]; intros acc H; simpl in H.
  - inversion H; subst. simpl. repeat split; tauto.
  - unfold store_step at 1 in H. destruct (g k) as [v |] eqn:Hk; [| discriminate].
    apply IH in H. destruct H as (Hin & Hout & Hkeys). repeat split.
    + intros c [<- | Hc]; [| auto].
      destruct (in_dec string_dec k l) as [Hl | Hl]; [auto |].
      exists v. split; [assumption |].
      rewrite Hout by assumption. apply dict_get_set_eq.
    + intros c Hc. simpl in Hc. rewrite Hout by tauto.
      apply dict_get_set_neq. intros ->. tauto.
    + rewrite Hkeys, dict_keys_set. simpl. intuition.
    + rewrite Hkeys, dict_keys_set. simpl. intuition.
Qed.

Lemma store_loop_total (l : list string) (acc : dict V) :
  (forall c, In c l -> exists v, g c = Ok v) ->
  exists d, fold_result l (store_step g) acc = Ok d.
Proof.
  revert acc. induction l as [| k l IH]; intros acc H; simpl.
  - eauto.
  - unfold store_step at 1. destruct (H k (or_introl eq_refl)) as [v ->].
    apply IH. intros c Hc. apply H. now right.
Qed.

Lemma store_loop_raise (l : list string) (acc : dict V) (e : exn) :
  fold_result l (store_step g) acc = Raise e ->
  exists c, In c l /\ g c = Raise e.
Proof.
  revert acc. induction l as [| k l IH]; intros acc H; simpl in H.
  - discriminate.
  - unfold store_step at 1 in H. destruct (g k) as [v |] eqn:Hk.
    + apply IH in H. destruct H as [c [Hc He]]. exists c. simpl. auto.
    + inversion H; subst. exists k. simpl. auto.
Qed.

Lemma store_loop_fails (l : list string) (acc : dict V) (c : string) (e : exn) :
  In c l -> g c = Raise e ->
  exists e', fold_result l (store_step g) acc = Raise e'.
Proof.
  revert acc. induction l as [| k l IH]; intros acc Hin Hc; simpl in *.
  - contradiction.
  - unfold store_step at 1. destruct (g k) as [v |] eqn:Hk; [| eauto].
    destruct Hin as [-> | Hin]; [congruence |]. apply IH; assumption.
Qed.
End StoreLoop.

(** ** Rounding *)

(** Rounding to four digits moves a number by at most half a unit of the
    fourth digit. *)
Lemma py_round_4_close (x : Q) :
  - (1 # 20000) <= py_round x 4 - x <= 1 # 20000.
Proof.
  unfold py_round. change (inject_Z (10 ^ Z.of_nat 4)) with (10000 # 1).
  pose proof (round_half_even_close (x * (10000 # 1))) as H.
  set (z := inject_Z (round_half_even (x * (10000 # 1)))) in *.
  unfold Qdiv. change (/ (10000 # 1)) with (1 # 10000). split; lra.
Qed.

Lemma py_round_zero : py_round 0 4 == 0.
Proof. reflexivity. Qed.

(** ** Schema inferencer *)

Lemma read_only_infer_schema_body (n k : Z) (col : string)
  (schema : dict ColumnSchema) :
  read_only
    (s <- call (fun df => getitem df col) ;;
     null_pct <- (if (n =? 0)%Z then ret 0
                  else lift (py_truediv (isna_sum s) n)) ;;
     uniq <- lift (nunique s) ;;
     values <- lift (unique (dropna s)) ;;
     ret (dict_set schema col
            (mkColumnSchema (dtype_str (series_dtype s)) (isna_sum s)
               (py_round null_pct 4) uniq (slice_to k values)))).
Proof. frame_tac. Qed.

Lemma run_infer_schema (k : Z) (df : DataFrame) :
  run (infer_schema k) df =
  fold_result (column_names df) (store_step (schema_entry df k)) [].
Proof.
  unfold infer_schema.
  rewrite run_bind by apply read_only_read. unfold run at 1, read. simpl.
  rewrite run_bind by apply read_only_read. unfold run at 1, read. simpl.
  rewrite run_for_each by (intros; apply read_only_infer_schema_body).
  apply fold_result_ext. intros col schema.
  unfold store_step, schema_entry, run, bind, call, lift, ret. simpl.
  destruct (getitem df col) as [s | e]; simpl; [| reflexivity].
  destruct (len df =? 0)%Z; simpl.
  - destruct (nunique s); simpl; [| reflexivity].
    destruct (unique (dropna s)); reflexivity.
  - destruct (py_truediv _ _); simpl; [| reflexivity].
    destruct (nunique s); simpl; [| reflexivity].
    destruct (unique (dropna s)); reflexivity.
Qed.

Lemma all_hashable_dropna (s : Series) :
  all_hashable (cells s) = true -> all_hashable (cells (dropna s)) = true.
Proof.
  unfold all_hashable, cells, dropna. destruct (data s) as [xs | xs | xs | xs]; simpl; auto.
  - intros _. apply forallb_forall. intros c Hc. apply in_map_iff in Hc.
    destruct Hc as [[q | | b] [<- _]]; reflexivity.
  - rewrite !forallb_forall. intros H c Hc. apply H.
    apply filter_In in Hc. tauto.
Qed.

Lemma inject_Z_zero (z : Z) : inject_Z z == 0 -> z = 0%Z.
Proof. unfold Qeq. simpl. lia. Qed.

Lemma unique_raises_type_error (s : Series) (e : exn) :
  unique s = Raise e -> e = TypeError "unhashable type".
Proof. unfold unique. destruct (all_hashable (cells s)); congruence. Qed.

Lemma schema_entry_no_zero_division (df : DataFrame) (k : Z) (c : string) :
  schema_entry df k c <> Raise ZeroDivisionError.
Proof.
  unfold schema_entry. destruct (getitem df c) as [s | e] eqn:Hs.
  - destruct (Z.eqb_spec (len df) 0) as [E | E].
    + unfold nunique. destruct (unique (dropna s)) as [l | e] eqn:Hu.
      * discriminate.
      * apply unique_raises_type_error in Hu. subst. discriminate.
    + unfold py_truediv.
      destruct (Z.eqb_spec (len df) 0) as [E' | _]; [contradiction |].
      unfold nunique. destruct (unique (dropna s)) as [l | e] eqn:Hu.
      * discriminate.
      * apply unique_raises_type_error in Hu. subst. discriminate.
  - apply getitem_raise in Hs. destruct Hs as [_ ->]. discriminate.
Qed.

Lemma in_column_names_getitem (df : DataFrame) (c : string) :
  In c (column_names df) -> exists s, getitem df c = Ok s.
Proof.
  intros Hin. destruct (getitem df c) as [s | e] eqn:E; [eauto |].
  apply getitem_raise in E. destruct E as [Hc _]. exfalso.
  apply Bool.not_true_iff_false in Hc. apply Hc.
  unfold has_column. apply existsb_exists. exists c.
  split; [assumption | apply String.eqb_refl].
Qed.

(** C9, as the code has it.  The inferencer never raises a division error.
    It returns a schema whenever every cell can be hashed.  In the schema it
    returns, the descriptor of every column holds the column's count of
    missing cells and, as [null_pct], 0 when the Dataset has no row and
    otherwise the binary64 quotient of that count by the number of rows,
    rounded to four decimal digits.  The rounded value is within 0.00005 of
    the quotient, and on a well-formed Dataset of at most [2 ^ 53] rows the
    quotient is within [2 ^ -53] of the exact ratio. *)
Theorem infer_schema_null_pct_rounded :
  forall (df : DataFrame) (k : Z),
    run (infer_schema k) df <> Raise ZeroDivisionError
    /\ ((forall s, In s (columns df) -> all_hashable (cells s) = true) ->
        exists schema, run (infer_schema k) df = Ok schema)
    /\ (forall schema,
          run (infer_schema k) df = Ok schema ->
          forall c, In c (column_names df) ->
            exists s e,
              getitem df c = Ok s /\ dict_get schema c = Some e
              /\ schema_null_count e = isna_sum s
              /\ (len df = 0%Z -> schema_null_pct e == 0)
              /\ (len df <> 0%Z ->
                  let quotient :=
                    b64v (float_of_int (isna_sum s) / float_of_int (len df)) in
                  schema_null_pct e = py_round quotient 4
                  /\ - (1 # 20000) <= schema_null_pct e - quotient <= 1 # 20000
                  /\ (wf_frame df = true -> (len df <= 2 ^ 53)%Z ->
                      - pow2 (-53)
                      <= quotient - inject_Z (isna_sum s) / inject_Z (len df)
                      <= pow2 (-53)))).
Proof.
  intros df k. rewrite run_infer_schema. split; [| split].
  - intros H. apply store_loop_raise in H. destruct H as [c [_ Hc]].
    exact (schema_entry_no_zero_division df k c Hc).
  - intros Hh. apply store_loop_total. intros c Hc.
    destruct (in_column_names_getitem df c Hc) as [s Hs].
    pose proof (getitem_ok_in df c s Hs) as [Hin _].
    pose proof (all_hashable_dropna s (Hh s Hin)) as Hd.
    unfold schema_entry, nunique, unique, py_truediv. rewrite Hs, Hd.
    destruct (len df =? 0)%Z; eauto.
  - intros schema Hrun c Hc.
    apply store_loop_ok in Hrun. destruct Hrun as (Hin & _ & _).
    destruct (Hin c Hc) as [e [He Hget]].
    unfold schema_entry in He.
    destruct (getitem df c) as [s | x] eqn:Hs; [| discriminate].
    exists s, e. split; [reflexivity |]. split; [assumption |].
    destruct (Z.eqb_spec (len df) 0) as [E | E].
    + destruct (nunique s); [| discriminate].
      destruct (unique (dropna s)); [| discriminate].
      inversion He; subst; simpl. repeat split; try contradiction.
    + unfold py_truediv in He.
      destruct (Z.eqb_spec (len df) 0) as [E' | _]; [contradiction |].
      destruct (nunique s); [| discriminate].
      destruct (unique (dropna s)); [| discriminate].
      inversion He; subst; simpl. split; [reflexivity |].
      split; [contradiction |]. intros _. split; [reflexivity |].
      split; [apply py_round_4_close |].
      intros Hwf Hsize.
      pose proof (getitem_ok_in df c s Hs) as [Hin' _].
      pose proof (isna_sum_bounds s) as Hb.
      rewrite (wf_frame_lengths df s Hwf Hin') in Hb. fold (len df) in Hb.
      apply float_quotient_close; lia.
Qed.

(** C9, the claim as written fails: with one missing cell in three rows the
    reported ratio is 0.3333, which is not one third. *)
Lemma infer_schema_null_pct_not_exact :
  let df := mkFrame 3 [mkSeries "x" (Float64Data [NaN; Finite 1; Finite (5 # 2)])] in
  exists schema e,
    run (infer_schema 5) df = Ok schema
    /\ dict_get schema "x" = Some e
    /\ schema_null_count e = 1%Z
    /\ len df = 3%Z
    /\ schema_null_pct e == 3333 # 10000
    /\ ~ schema_null_pct e == 1 # 3.
Proof.
  cbv zeta. eexists. eexists. split; [vm_compute; reflexivity |].
  split; [reflexivity |]. simpl. repeat split. intros H. discriminate H.
Qed.

(** ** Sorting and order statistics *)

Lemma insert_sorted_length (x : Q) (l : list Q) :
  length (insert_sorted x l) = S (length l).
Proof.
  induction l as [| y l IH]; simpl; [reflexivity |].
  destruct (Qle_bool x y); simpl; auto.
Qed.

Lemma sort_length (l : list Q) : length (sort l) = length l.
Proof.
  induction l as [| x l IH]; simpl; [reflexivity |].
  rewrite insert_sorted_length. now f_equal.
Qed.

Lemma insert_sorted_perm (x : Q) (l : list Q) :
  Permutation (x :: l) (insert_sorted x l).
Proof.
  induction l as [| y l IH]; simpl; [reflexivity |].
  destruct (Qle_bool x y); [reflexivity |].
  rewrite perm_swap. now constructor.
Qed.

Lemma sort_perm (l : list Q) : Permutation l (sort l).
Proof.
  induction l as [| x l IH]; simpl; [constructor |].
  rewrite <- insert_sorted_perm. now constructor.
Qed.

Lemma insert_sorted_in (x y : Q) (l : list Q) :
  In y (insert_sorted x l) -> y = x \/ In y l.
Proof.
  intros H. apply (Permutation_in _ (Permutation_sym (insert_sorted_perm x l))) in H.
  destruct H; auto.
Qed.

Lemma insert_sorted_strongly (x : Q) (l : list Q) :
  StronglySorted Qle l -> StronglySorted Qle (insert_sorted x l).
Proof.
  induction 1 as [| y l Hl IH Hy]; simpl.
  - repeat constructor.
  - destruct (Qle_bool x y) eqn:E.
    + apply Qle_bool_iff in E. constructor.
      * now constructor.
      * constructor; [assumption |].
        rewrite Forall_forall in *. intros z Hz. specialize (Hy z Hz). lra.
    + assert (Hyx : y <= x).
      { destruct (Qlt_le_dec y x) as [Hlt | Hge]; [lra |].
        apply Qle_bool_iff in Hge. congruence. }
      constructor; [assumption |].
      rewrite Forall_forall in *. intros z Hz.
      apply insert_sorted_in in Hz. destruct Hz as [-> | Hz]; auto.
Qed.

Lemma sort_strongly_sorted (l : list Q) : StronglySorted Qle (sort l).
Proof.
  induction l as [| x l IH]; simpl.
  - constructor.
  - now apply insert_sorted_strongly.
Qed.

Lemma strongly_sorted_nth (l : list Q) (i j : nat) :
  StronglySorted Qle l -> (i <= j < length l)%nat ->
  nth i l 0 <= nth j l 0.
Proof.
  intros Hs. revert i j. induction Hs as [| x l Hl IH Hx]; intros i j Hij.
  - simpl in Hij. lia.
  - destruct i as [| i], j as [| j]; simpl in *.
    + lra.
    + rewrite Forall_forall in Hx. apply Hx. apply nth_In. lia.
    + lia.
    + apply IH. lia.
Qed.

Lemma order_statistic_mono (xs : list Q) (i j : Z) :
  (0 <= i <= j)%Z -> (j < Z.of_nat (length xs))%Z ->
  order_statistic xs i <= order_statistic xs j.
Proof.
  intros Hij Hj. unfold order_statistic.
  apply strongly_sorted_nth; [apply sort_strongly_sorted |].
  rewrite sort_length. lia.
Qed.

Lemma order_statistic_in (xs : list Q) (i : Z) :
  (0 <= i < Z.of_nat (length xs))%Z -> In (order_statistic xs i) xs.
Proof.
  intros Hi. unfold order_statistic.
  apply (Permutation_in _ (Permutation_sym (sort_perm xs))).
  apply nth_In. rewrite sort_length. lia.
Qed.

(** ** Quantiles *)

Lemma lerp_between (a b g : Q) :
  a <= b -> 0 <= g -> g <= 1 -> a <= lerp a b g /\ lerp a b g <= b.
Proof. intros Hab Hg0 Hg1. unfold lerp. split; nra. Qed.

Lemma lerp_mono (a b g g' : Q) :
  a <= b -> g <= g' -> lerp a b g <= lerp a b g'.
Proof. intros Hab Hg. unfold lerp. nra. Qed.

Lemma quantile_linear_unfold (xs : list Q) (p : Q) :
  quantile_linear xs p =
  let n := Z.of_nat (length xs) in
  let h := inject_Z (n - 1) * p in
  lerp (order_statistic xs (Qfloor h))
       (order_statistic xs (Z.min (Qfloor h + 1) (n - 1)))
       (h - inject_Z (Qfloor h)).
Proof. unfold quantile_linear, order_statistic. now rewrite sort_length. Qed.

(** The virtual index of a quantile in [0, 1] stays inside the array. *)
Lemma virtual_index_range (n : Z) (p h : Q) :
  (1 <= n)%Z -> 0 <= p <= 1 -> h = inject_Z (n - 1) * p ->
  0 <= h /\ h <= inject_Z (n - 1)
  /\ (0 <= Qfloor h <= n - 1)%Z
  /\ 0 <= h - inject_Z (Qfloor h) /\ h - inject_Z (Qfloor h) <= 1.
Proof.
  intros Hn [Hp0 Hp1] Hh.
  assert (Hm : 0 <= inject_Z (n - 1)).
  { change 0 with (inject_Z 0). rewrite <- Zle_Qle. lia. }
  assert (Hh0 : 0 <= h) by (subst h; nra).
  assert (Hh1 : h <= inject_Z (n - 1)) by (subst h; nra).
  clear Hh.
  pose proof (Qfloor_le h) as Hfl. pose proof (Qlt_floor h) as Hfu.
  rewrite inject_Z_plus in Hfu. change (inject_Z 1) with 1 in Hfu.
  repeat split; try assumption; try lra.
  - change 0%Z with (Qfloor 0). now apply Qfloor_resp_le.
  - rewrite <- (Qfloor_Z (n - 1)). now apply Qfloor_resp_le.
Qed.

Lemma length_pos (xs : list Q) : xs <> [] -> (1 <= Z.of_nat (length xs))%Z.
Proof. destruct xs; [congruence | simpl length; lia]. Qed.

Lemma quantile_linear_between (xs : list Q) (p : Q) :
  xs <> [] -> 0 <= p <= 1 ->
  let n := Z.of_nat (length xs) in
  let h := inject_Z (n - 1) * p in
  order_statistic xs (Qfloor h) <= quantile_linear xs p
  /\ quantile_linear xs p <= order_statistic xs (Z.min (Qfloor h + 1) (n - 1)).
Proof.
  intros Hxs Hp. rewrite quantile_linear_unfold. cbv zeta.
  pose proof (length_pos xs Hxs) as Hn.
  remember (inject_Z (Z.of_nat (length xs) - 1) * p) as h eqn:Hh.
  destruct (virtual_index_range _ p h Hn Hp Hh) as (_ & _ & Hf & Hg0 & Hg1).
  apply lerp_between; [| assumption | assumption].
  apply order_statistic_mono; lia.
Qed.

(** A larger quantile is a larger value. *)
Lemma quantile_linear_mono (xs : list Q) (p p' : Q) :
  xs <> [] -> 0 <= p -> p <= p' -> p' <= 1 ->
  quantile_linear xs p <= quantile_linear xs p'.
Proof.
  intros Hxs Hp0 Hpp Hp1.
  pose proof (length_pos xs Hxs) as Hn.
  assert (Hp : 0 <= p <= 1) by lra. assert (Hp' : 0 <= p' <= 1) by lra.
  pose proof (quantile_linear_between xs p Hxs Hp) as Hb.
  pose proof (quantile_linear_between xs p' Hxs Hp') as Hb'.
  cbv zeta in Hb, Hb'. revert Hb Hb'.
  rewrite !quantile_linear_unfold. cbv zeta.
  remember (Z.of_nat (length xs)) as n eqn:Hnn.
  remember (inject_Z (n - 1) * p) as h eqn:Hh.
  remember (inject_Z (n - 1) * p') as h' eqn:Hh'.
  intros [_ Hup] [Hlow _].
  assert (Hm : 0 <= inject_Z (n - 1)).
  { change 0 with (inject_Z 0). rewrite <- Zle_Qle. lia. }
  assert (Hhh : h <= h') by (subst h h'; nra).
  destruct (virtual_index_range n p h Hn Hp Hh) as (_ & _ & Hf & Hg0 & Hg1).
  destruct (virtual_index_range n p' h' Hn Hp' Hh') as (_ & _ & Hf' & Hg0' & Hg1').
  pose proof (Qfloor_resp_le h h' Hhh) as Hff.
  destruct (Z.eq_dec (Qfloor h) (Qfloor h')) as [Heq | Hne].
  - rewrite <- Heq. apply lerp_mono; [| lra].
    apply order_statistic_mono; lia.
  - assert (Hmid : order_statistic xs (Z.min (Qfloor h + 1) (n - 1))
                   <= order_statistic xs (Qfloor h')).
    { apply order_statistic_mono; lia. }
    lra.
Qed.

(** The library's interpolation is the percentile of the specification. *)
Lemma quantile_linear_is_percentile (xs : list Q) (p : Q) :
  xs <> [] -> 0 <= p <= 1 ->
  quantile_linear xs p == percentile_spec xs p.
Proof.
  intros Hxs Hp.
  pose proof (length_pos xs Hxs) as Hn.
  rewrite quantile_linear_unfold. unfold percentile_spec. cbv zeta.
  remember (Z.of_nat (length xs)) as n eqn:Hnn.
  remember (inject_Z (n - 1) * p) as h eqn:Hh.
  destruct (virtual_index_range n p h Hn Hp Hh) as (_ & Hh1 & Hf & Hg0 & Hg1).
  pose proof (Qle_ceiling h) as Hc1. pose proof (Qceiling_lt h) as Hc2.
  unfold Z.sub in Hc2. rewrite inject_Z_plus in Hc2.
  change (inject_Z (- (1))) with (- (1)) in Hc2.
  pose proof (Qfloor_le h) as Hfl.
  assert (Hcf : (Qfloor h <= Qceiling h <= Qfloor h + 1)%Z).
  { split.
    - rewrite Zle_Qle. lra.
    - assert (H : inject_Z (Qceiling h) < inject_Z (Qfloor h + 1 + 1)).
      { rewrite !inject_Z_plus. change (inject_Z 1) with 1. lra. }
      rewrite <- Zlt_Qlt in H. lia. }
  assert (Hcn : (Qceiling h <= n - 1)%Z).
  { rewrite <- (Qceiling_Z (n - 1)). now apply Qceiling_resp_le. }
  unfold lerp.
  destruct (Z.eq_dec (Qceiling h) (Qfloor h)) as [Heq | Hne].
  - assert (Hg : h - inject_Z (Qfloor h) == 0).
    { rewrite Heq in Hc1. lra. }
    rewrite Heq. rewrite Hg. ring.
  - replace (Z.min (Qfloor h + 1) (n - 1)) with (Qceiling h) by lia.
    ring.
Qed.

(** ** Interpolation between two binary64 numbers *)

Lemma grid_sub (a b : Q) :
  b64v a == a -> b64v b == b -> exists k, b - a == inject_Z k * pow2 (-1074).
Proof.
  intros Ha Hb. destruct (b64_on_grid a Ha) as [ka Ea].
  destruct (b64_on_grid b Hb) as [kb Eb].
  exists (kb - ka)%Z. rewrite Ea at 1. rewrite Eb at 1.
  unfold Z.sub. rewrite inject_Z_plus, inject_Z_opp. ring.
Qed.

(** The rounded difference of two binary64 numbers, taken at most half,
    does not exceed their difference. *)
Lemma half_step (a b u : Q) :
  b64v a == a -> b64v b == b -> a <= b -> 0 <= u <= 1 # 2 ->
  0 <= b64v (b64v (b - a) * u) <= b - a.
Proof.
  intros Ha Hb Hab [Hu0 Hu1].
  assert (Hd0 : 0 <= b64v (b - a)) by (apply b64v_nonneg; lra).
  split; [apply b64v_nonneg; nra |].
  destruct (Qlt_le_dec 0 (b - a)) as [Hy | Hy].
  - destruct (ilog2_spec (b - a) Hy) as [S1 S2].
    destruct (Z_le_gt_dec (-1022) (ilog2 (b - a))) as [Hn | Hs].
    + pose proof (round_pos_upper (b - a) Hy) as Hup.
      rewrite <- (b64v_pos (b - a) Hy) in Hup.
      assert (Ee : exponent (b - a) = ilog2 (b - a)) by (unfold exponent; lia).
      rewrite Ee, pow2_succ in Hup.
      pose proof (pow2_pos (ilog2 (b - a))) as Hp.
      apply Qle_trans with (pow2 (ilog2 (b - a))); [| assumption].
      rewrite <- (b64v_pow2 (ilog2 (b - a))) by lia.
      apply b64v_mono. nra.
    + destruct (grid_sub a b Ha Hb) as [k Ek].
      assert (Hsmall : Qabs (b - a) < pow2 (-1022)).
      { rewrite Qabs_pos by lra. eapply Qlt_le_trans; [exact S2 |].
        apply pow2_le. lia. }
      pose proof (b64v_subnormal (b - a) k Ek Hsmall) as Hex.
      apply Qle_trans with (b64v (b - a)); [| rewrite Hex; apply Qle_refl].
      apply b64v_mono. rewrite Hex. nra.
  - assert (E : b - a == 0) by lra.
    rewrite (b64v_zero (b - a) E).
    rewrite (b64v_zero (0 * u)) by ring. lra.
Qed.

Lemma quarter_step (a b : Q) :
  b64v a == a -> b64v b == b -> a <= b ->
  2 * b64v (b64v (b - a) * (1 # 4)) <= b - a.
Proof.
  intros Ha Hb Hab.
  destruct (Qlt_le_dec 0 (b - a)) as [Hy | Hy].
  - destruct (ilog2_spec (b - a) Hy) as [S1 S2].
    destruct (Z_le_gt_dec (-1022) (ilog2 (b - a))) as [Hn | Hs].
    + pose proof (round_pos_upper (b - a) Hy) as Hup.
      rewrite <- (b64v_pos (b - a) Hy) in Hup.
      assert (Ee : exponent (b - a) = ilog2 (b - a)) by (unfold exponent; lia).
      rewrite Ee, pow2_succ in Hup.
      set (e := ilog2 (b - a)) in *.
      pose proof (pow2_pos (e - 1)) as Hp.
      assert (E2 : pow2 e == 2 * pow2 (e - 1)).
      { rewrite <- pow2_succ. replace (e - 1 + 1)%Z with e by lia. reflexivity. }
      assert (Hw : b64v (b64v (b - a) * (1 # 4)) <= pow2 (e - 1)).
      { rewrite <- (b64v_pow2 (e - 1)) by lia. apply b64v_mono. lra. }
      lra.
    + destruct (grid_sub a b Ha Hb) as [k Ek].
      assert (Hsmall : Qabs (b - a) < pow2 (-1022)).
      { rewrite Qabs_pos by lra. eapply Qlt_le_trans; [exact S2 |].
        apply pow2_le. lia. }
      pose proof (b64v_subnormal (b - a) k Ek Hsmall) as Hex.
      pose proof (pow2_pos (-1074)) as Hg.
      assert (Hk : (1 <= k)%Z).
      { destruct (Z_le_gt_dec 1 k) as [| Hk0]; [assumption |].
        exfalso. assert (inject_Z k <= 0).
        { change 0 with (inject_Z 0). rewrite <- Zle_Qle. lia. }
        nra. }
      set (x := b64v (b - a) * (1 # 4)).
      assert (Hx : 0 < x) by (unfold x; lra).
      assert (Hxlt : x < pow2 (-1022)).
      { unfold x. rewrite Hex. rewrite Qabs_pos in Hsmall by lra. lra. }
      assert (Elog : (ilog2 x < -1022)%Z).
      { destruct (ilog2_spec x Hx) as [T1 _]. apply pow2_lt_inv. lra. }
      assert (Eexp : exponent x = (-1022)%Z) by (unfold exponent; lia).
      rewrite (b64v_pos x Hx), round_pos_unfold, Eexp.
      change (-1022 - 52)%Z with (-1074)%Z.
      assert (Em : x / pow2 (-1074) == inject_Z k * (1 # 4)).
      { unfold x. rewrite Hex, Ek. field. lra. }
      rewrite (round_half_even_comp _ _ Em).
      pose proof (round_half_even_close (inject_Z k * (1 # 4))) as Hc.
      set (R := round_half_even (inject_Z k * (1 # 4))) in *.
      assert (HR : (2 * R <= k)%Z).
      { assert (H4 : (4 * R <= k + 2)%Z).
        { rewrite Zle_Qle. rewrite inject_Z_mult, inject_Z_plus.
          change (inject_Z 4) with 4. change (inject_Z 2) with 2. lra. }
        lia. }
      rewrite Zle_Qle in HR. rewrite inject_Z_mult in HR.
      change (inject_Z 2) with 2 in HR.
      rewrite Ek. nra.
  - assert (E : b - a == 0) by lra.
    rewrite (b64v_zero (b - a) E).
    rewrite (b64v_zero (0 * (1 # 4))) by ring. lra.
Qed.

Lemma b64v_half : b64v (1 # 2) = 1 # 2.
Proof. reflexivity. Qed.

Lemma b64v_quarter : b64v (1 # 4) = 1 # 4.
Proof. reflexivity. Qed.

(** The interpolated value lies between the two numbers. *)
Lemma qlerp_between (a b t : Q) :
  b64v a == a -> b64v b == b -> a <= b -> 0 <= t <= 1 ->
  a <= qlerp a b t <= b.
Proof.
  intros Ha Hb Hab [Ht0 Ht1]. unfold qlerp.
  destruct (Qle_bool (1 # 2) t) eqn:Hhalf.
  - apply Qle_bool_iff in Hhalf.
    assert (Hs : 0 <= b64v (1 - t) <= 1 # 2).
    { split; [apply b64v_nonneg; lra |].
      rewrite <- b64v_half. apply b64v_mono. lra. }
    pose proof (half_step a b _ Ha Hb Hab Hs) as [W0 W1].
    split.
    + apply Qle_trans with (b64v a); [rewrite Ha; apply Qle_refl | apply b64v_mono; lra].
    + apply Qle_trans with (b64v b); [apply b64v_mono; lra | rewrite Hb; apply Qle_refl].
  - assert (Hlt : ~ 1 # 2 <= t) by (rewrite <- Qle_bool_iff; congruence).
    assert (Hs : 0 <= t <= 1 # 2) by lra.
    pose proof (half_step a b _ Ha Hb Hab Hs) as [W0 W1].
    split.
    + apply Qle_trans with (b64v a); [rewrite Ha; apply Qle_refl | apply b64v_mono; lra].
    + apply Qle_trans with (b64v b); [apply b64v_mono; lra | rewrite Hb; apply Qle_refl].
Qed.

(** With two numbers only, the first quartile does not exceed the third. *)
Lemma qlerp_quartiles (a b : Q) :
  b64v a == a -> b64v b == b -> a <= b ->
  qlerp a b (1 # 4) <= qlerp a b (3 # 4).
Proof.
  intros Ha Hb Hab. unfold qlerp.
  change (Qle_bool (1 # 2) (1 # 4)) with false.
  change (Qle_bool (1 # 2) (3 # 4)) with true.
  cbv iota.
  rewrite (b64v_comp (1 - (3 # 4)) (1 # 4)) by reflexivity.
  rewrite b64v_quarter.
  pose proof (quarter_step a b Ha Hb Hab) as H.
  apply b64v_mono. lra.
Qed.

(** ** Quartiles of binary64 numbers *)

#[global] Instance b64v_Proper : Proper (Qeq ==> Qeq) b64v.
Proof. intros x y E. rewrite (b64v_comp x y E). reflexivity. Qed.

Lemma qlerp_comp (a b t a' b' t' : Q) :
  a == a' -> b == b' -> t == t' -> qlerp a b t = qlerp a' b' t'.
Proof.
  intros Ea Eb Et. unfold qlerp.
  rewrite (Qleb_comp _ _ (Qeq_refl (1 # 2)) _ _ Et).
  destruct (Qle_bool (1 # 2) t'); apply b64v_comp; rewrite Ea, Eb, Et; reflexivity.
Qed.

Lemma qlerp_same (x t : Q) : b64v x == x -> qlerp x x t == x.
Proof.
  intros Hx. unfold qlerp.
  rewrite (b64v_zero (x - x)) by ring.
  destruct (Qle_bool (1 # 2) t).
  - rewrite (b64v_zero (0 * b64v (1 - t))) by ring.
    rewrite <- Hx at 2. apply b64v_Proper. ring.
  - rewrite (b64v_zero (0 * t)) by ring.
    rewrite <- Hx at 2. apply b64v_Proper. ring.
Qed.

Lemma regular_order_statistic (ys : list Q) (i : Z) :
  Forall regular_value ys -> (0 <= i < Z.of_nat (length ys))%Z ->
  regular_value (order_statistic ys i).
Proof.
  intros Hall Hi. rewrite Forall_forall in Hall. apply Hall.
  now apply order_statistic_in.
Qed.

Lemma qquantile_unfold (ys : list Q) (p : Q) :
  qquantile ys p =
  let n := Z.of_nat (length ys) in
  let h := inject_Z (n - 1) * p in
  if Qle_bool (inject_Z (n - 1)) h then
    qlerp (order_statistic ys (n - 1)) (order_statistic ys (n - 1)) (h + 1)
  else
    qlerp (order_statistic ys (Qfloor h)) (order_statistic ys (Qfloor h + 1))
          (h - inject_Z (Qfloor h)).
Proof. reflexivity. Qed.

(** Where the quantile lies among the order statistics. *)
Lemma qquantile_between (ys : list Q) (p : Q) :
  ys <> [] -> Forall regular_value ys -> 0 <= p <= 1 ->
  let n := Z.of_nat (length ys) in
  let h := inject_Z (n - 1) * p in
  (inject_Z (n - 1) <= h /\ qquantile ys p == order_statistic ys (n - 1))
  \/ (h < inject_Z (n - 1)
      /\ (0 <= Qfloor h)%Z /\ (Qfloor h + 1 <= n - 1)%Z
      /\ order_statistic ys (Qfloor h) <= qquantile ys p
         <= order_statistic ys (Qfloor h + 1)).
Proof.
  intros Hne Hall [Hp0 Hp1]. cbv zeta. rewrite qquantile_unfold. cbv zeta.
  pose proof (length_pos ys Hne) as Hn.
  set (n := Z.of_nat (length ys)) in *.
  assert (Hm : 0 <= inject_Z (n - 1)).
  { change 0 with (inject_Z 0). rewrite <- Zle_Qle. lia. }
  set (h := inject_Z (n - 1) * p).
  assert (Hh0 : 0 <= h) by (unfold h; nra).
  destruct (Qle_bool (inject_Z (n - 1)) h) eqn:Habove.
  - apply Qle_bool_iff in Habove. left. split; [assumption |].
    apply qlerp_same. apply regular_order_statistic; [assumption | lia].
  - assert (Hlt : h < inject_Z (n - 1)).
    { destruct (Qlt_le_dec h (inject_Z (n - 1))) as [| Hge]; [assumption |].
      apply Qle_bool_iff in Hge. congruence. }
    right. split; [assumption |].
    pose proof (Qfloor_le h) as Hfl. pose proof (Qlt_floor h) as Hfu.
    rewrite inject_Z_plus in Hfu. change (inject_Z 1) with 1 in Hfu.
    assert (Hf0 : (0 <= Qfloor h)%Z).
    { change 0%Z with (Qfloor 0). now apply Qfloor_resp_le. }
    assert (Hf1 : (Qfloor h + 1 <= n - 1)%Z).
    { assert (H : inject_Z (Qfloor h) < inject_Z (n - 1)) by lra.
      rewrite <- Zlt_Qlt in H. lia. }
    split; [assumption |]. split; [assumption |].
    apply qlerp_between.
    + apply regular_order_statistic; [assumption | lia].
    + apply regular_order_statistic; [assumption | lia].
    + apply order_statistic_mono; lia.
    + lra.
Qed.

Lemma floor_quarters (n : Z) :
  (3 <= n)%Z ->
  (Qfloor (inject_Z (n - 1) * (1 # 4)) + 1
   <= Qfloor (inject_Z (n - 1) * (3 # 4)))%Z.
Proof.
  intros Hn.
  assert (E : inject_Z (n - 1) * (1 # 4) + 1 <= inject_Z (n - 1) * (3 # 4)).
  { assert (H : 2 <= inject_Z (n - 1)).
    { change 2 with (inject_Z 2). rewrite <- Zle_Qle. lia. }
    lra. }
  apply Qfloor_resp_le in E.
  pose proof (Qfloor_le (inject_Z (n - 1) * (1 # 4))) as H1.
  pose proof (Qlt_floor (inject_Z (n - 1) * (1 # 4) + 1)) as H2.
  assert (H3 : inject_Z (Qfloor (inject_Z (n - 1) * (1 # 4)) + 1)
               < inject_Z (Qfloor (inject_Z (n - 1) * (1 # 4) + 1) + 1)).
  { rewrite !inject_Z_plus in *. change (inject_Z 1) with 1 in *. lra. }
  rewrite <- Zlt_Qlt in H3. lia.
Qed.

(** The first quartile of binary64 numbers does not exceed the third one,
    and both lie between two of the numbers. *)
Lemma qquantile_quartiles (ys : list Q) :
  ys <> [] -> Forall regular_value ys ->
  qquantile ys (1 # 4) <= qquantile ys (3 # 4).
Proof.
  intros Hne Hall.
  pose proof (length_pos ys Hne) as Hn.
  pose proof (qquantile_between ys (1 # 4) Hne Hall ltac:(lra)) as H1.
  pose proof (qquantile_between ys (3 # 4) Hne Hall ltac:(lra)) as H3.
  cbv zeta in H1, H3.
  set (n := Z.of_nat (length ys)) in *.
  assert (Hm : 0 <= inject_Z (n - 1)).
  { change 0 with (inject_Z 0). rewrite <- Zle_Qle. lia. }
  destruct (Z_le_gt_dec 3 n) as [Hn3 | Hn2].
  - assert (Hm2 : 2 <= inject_Z (n - 1)).
    { change 2 with (inject_Z 2). rewrite <- Zle_Qle. lia. }
    destruct H1 as [[A _] | (_ & F0 & F1 & _ & U)]; [exfalso; lra |].
    destruct H3 as [[A _] | (_ & G0 & G1 & L & _)]; [exfalso; lra |].
    pose proof (floor_quarters n Hn3) as Hfl.
    apply Qle_trans with (order_statistic ys (Qfloor (inject_Z (n - 1) * (1 # 4)) + 1));
      [assumption |].
    apply Qle_trans with (order_statistic ys (Qfloor (inject_Z (n - 1) * (3 # 4))));
      [| assumption].
    apply order_statistic_mono; fold n; lia.
  - destruct (Z.eq_dec n 1) as [E1 | E1].
    + assert (E0 : inject_Z (n - 1) == 0) by (rewrite E1; reflexivity).
      destruct H1 as [[_ A] | (A & _)]; [| exfalso; lra].
      destruct H3 as [[_ B] | (B & _)]; [| exfalso; lra].
      rewrite A, B. apply Qle_refl.
    + assert (E2 : n = 2%Z) by lia.
      rewrite !qquantile_unfold. cbv zeta. fold n. rewrite E2.
      change (Qle_bool (inject_Z (2 - 1)) (inject_Z (2 - 1) * (1 # 4))) with false.
      change (Qle_bool (inject_Z (2 - 1)) (inject_Z (2 - 1) * (3 # 4))) with false.
      cbv iota.
      change (Qfloor (inject_Z (2 - 1) * (1 # 4))) with 0%Z.
      change (Qfloor (inject_Z (2 - 1) * (3 # 4))) with 0%Z.
      rewrite (qlerp_comp _ _ (inject_Z (2 - 1) * (1 # 4) - inject_Z 0)
                 _ _ (1 # 4) (Qeq_refl _) (Qeq_refl _)) by reflexivity.
      rewrite (qlerp_comp _ _ (inject_Z (2 - 1) * (3 # 4) - inject_Z 0)
                 _ _ (3 # 4) (Qeq_refl _) (Qeq_refl _)) by reflexivity.
      apply qlerp_quartiles.
      * apply regular_order_statistic; [assumption | fold n; lia].
      * apply regular_order_statistic; [assumption | fold n; lia].
      * apply order_statistic_mono; fold n; lia.
Qed.

(** A quartile lies between two of the numbers. *)
Lemma qquantile_in_range (ys : list Q) (p : Q) :
  ys <> [] -> Forall regular_value ys -> 0 <= p <= 1 ->
  exists a b, In a ys /\ In b ys /\ a <= qquantile ys p <= b.
Proof.
  intros Hne Hall Hp.
  pose proof (length_pos ys Hne) as Hn.
  destruct (qquantile_between ys p Hne Hall Hp) as [[_ A] | (_ & F0 & F1 & B)].
  - exists (order_statistic ys (Z.of_nat (length ys) - 1)),
      (order_statistic ys (Z.of_nat (length ys) - 1)).
    split; [apply order_statistic_in; lia |].
    split; [apply order_statistic_in; lia |].
    rewrite A. split; apply Qle_refl.
  - eexists. eexists. split; [| split; [| exact B]]; apply order_statistic_in; lia.
Qed.

(** ** The model's quantile on regular arrays *)

Lemma b64v_within (x c : Q) :
  b64v c == c -> - c <= x <= c -> - c <= b64v x <= c.
Proof.
  intros Hc [H1 H2]. apply b64v_mono in H1. apply b64v_mono in H2.
  rewrite b64v_opp in H1. rewrite Hc in H1, H2. split; assumption.
Qed.

Lemma b64v_1 : b64v 1 = 1.
Proof. reflexivity. Qed.

Lemma b64v_2P : b64v (2 * pow2 1022) == 2 * pow2 1022.
Proof. apply (b64v_exact _ 2 1022); [reflexivity | lia | lia]. Qed.

Lemma b64v_P : b64v (pow2 1022) == pow2 1022.
Proof. apply b64v_pow2. lia. Qed.

Lemma one_le_P : 1 <= pow2 1022.
Proof. rewrite <- pow2_0. apply pow2_le. lia. Qed.

Lemma pow2_53_le_P : inject_Z (2 ^ 53) <= pow2 1022.
Proof. rewrite <- pow2_Z by lia. apply pow2_le. lia. Qed.

Lemma regular_value_bounds (y : Q) :
  regular_value y -> - pow2 1022 <= y <= pow2 1022.
Proof. intros [_ H]. now apply Qabs_Qle_condition. Qed.

(** On regular operands [np_lerp] computes [qlerp]. *)
Lemma np_lerp_regular (A B g a b d t : Q) :
  regular_value A -> regular_value B -> 0 <= g <= 1 ->
  a == A -> b == B -> d == b64v (B - A) -> t == g ->
  np_lerp (Finite a) (Finite b) (Finite d) (Finite t) = Finite (qlerp A B g).
Proof.
  intros HA HB [Hg0 Hg1] Ea Eb Ed Et.
  pose proof (regular_value_bounds A HA) as [A1 A2].
  pose proof (regular_value_bounds B HB) as [B1 B2].
  pose proof one_le_P as HP1. pose proof b64v_2P as E2P.
  set (P := pow2 1022) in *.
  assert (Hd : - (2 * P) <= d <= 2 * P).
  { rewrite Ed. apply b64v_within; [assumption | split; lra]. }
  unfold np_lerp, qlerp, fle.
  rewrite (Qleb_comp _ _ (Qeq_refl (1 # 2)) _ _ Et).
  destruct (Qle_bool (1 # 2) g) eqn:Hhalf.
  - unfold fsub, fneg, fadd at 2.
    rewrite (b64_finite (1 + - t)) by (rewrite Et; fold P; split; lra).
    unfold fmul.
    assert (Hs : 0 <= b64v (1 + - t) <= 1).
    { split; [apply b64v_nonneg; lra |].
      rewrite <- b64v_1 at 2. apply b64v_mono. lra. }
    assert (Hw : - (2 * P) <= d * b64v (1 + - t) <= 2 * P) by (split; nra).
    rewrite (b64_finite (d * b64v (1 + - t))) by (fold P; split; lra).
    pose proof (b64v_within _ _ E2P Hw) as Hw'.
    unfold fadd.
    rewrite b64_finite by (fold P; rewrite Eb; split; lra).
    f_equal. apply b64v_comp. rewrite Eb, Ed, Et. reflexivity.
  - unfold fmul.
    assert (Hw : - (2 * P) <= d * t <= 2 * P) by (rewrite Et; split; nra).
    rewrite (b64_finite (d * t)) by (fold P; split; lra).
    pose proof (b64v_within _ _ E2P Hw) as Hw'.
    unfold fadd.
    rewrite b64_finite by (fold P; rewrite Ea; split; lra).
    f_equal. apply b64v_comp. rewrite Ea, Ed, Et. reflexivity.
Qed.

Lemma quarter_exact (x : Q) (k : Z) :
  x == inject_Z k * (1 # 4) -> (Z.abs k < 2 ^ 53)%Z ->
  b64 x = Finite (b64v x) /\ b64v x == x.
Proof.
  intros E Hk.
  assert (Hb : - inject_Z (2 ^ 53) <= inject_Z k <= inject_Z (2 ^ 53)).
  { rewrite <- inject_Z_opp, <- !Zle_Qle. lia. }
  pose proof pow2_53_le_P as HP. set (P := pow2 1022) in *.
  split.
  - apply b64_finite. fold P. rewrite E. split; lra.
  - apply (b64v_exact x k (-2)); [exact E | assumption | lia].
Qed.

(** The virtual index and the fraction are computed exactly. *)
Lemma indexes_regular (n : Z) (p : Q) :
  (1 <= n <= 2 ^ 50)%Z -> p = 1 # 4 \/ p = 3 # 4 ->
  let h := inject_Z (n - 1) * p in
  exists hv gv,
    fmul (int_to_float (n - 1)) (Finite p) = Finite hv
    /\ ((Qle_bool (inject_Z (n - 1)) h = true
         /\ get_indexes n (Finite hv) = ((-1)%Z, (-1)%Z)
         /\ fsub (Finite hv) (int_to_float (-1)) = Finite gv
         /\ gv == h + 1)
        \/ (Qle_bool (inject_Z (n - 1)) h = false
            /\ get_indexes n (Finite hv) = (Qfloor h, (Qfloor h + 1)%Z)
            /\ fsub (Finite hv) (int_to_float (Qfloor h)) = Finite gv
            /\ gv == h - inject_Z (Qfloor h))).
Proof.
  intros Hn Hp. cbv zeta.
  set (h := inject_Z (n - 1) * p).
  assert (Hm : 0 <= inject_Z (n - 1)).
  { change 0 with (inject_Z 0). rewrite <- Zle_Qle. lia. }
  assert (En : b64v (inject_Z (n - 1)) == inject_Z (n - 1)) by (apply b64v_Z; lia).
  assert (Hk : exists k, h == inject_Z k * (1 # 4) /\ (0 <= k < 2 ^ 52)%Z).
  { destruct Hp as [-> | ->].
    - exists (n - 1)%Z. split; [reflexivity | lia].
    - exists (3 * (n - 1))%Z. split; [| lia].
      unfold h. rewrite inject_Z_mult. change (inject_Z 3) with 3. ring. }
  destruct Hk as (k & Ek & Hk).
  assert (Ehv : fmul (int_to_float (n - 1)) (Finite p) = Finite (b64v h) /\ b64v h == h).
  { unfold fmul, int_to_float, float_of_int.
    rewrite (b64_comp _ h) by (unfold h; rewrite En; reflexivity).
    destruct (quarter_exact h k Ek ltac:(lia)) as [F1 F2]. now rewrite F1. }
  destruct Ehv as [Ehv Hhv].
  exists (b64v h). rewrite Ehv.
  assert (Hk0 : 0 <= inject_Z k).
  { change 0 with (inject_Z 0). rewrite <- Zle_Qle. lia. }
  assert (Hh0 : 0 <= h) by (rewrite Ek; lra).
  unfold get_indexes.
  rewrite (Qleb_comp _ _ (Qeq_refl (inject_Z (n - 1))) _ _ Hhv).
  destruct (Qle_bool (inject_Z (n - 1)) h) eqn:Habove.
  - assert (Eg : b64v h + - b64v (inject_Z (-1)) == inject_Z (k + 4) * (1 # 4)).
    { rewrite Hhv, Ek, inject_Z_plus. change (b64v (inject_Z (-1))) with (-1 # 1).
      change (inject_Z 4) with 4. ring. }
    destruct (quarter_exact _ (k + 4) Eg ltac:(lia)) as [G1 G2].
    eexists. split; [reflexivity |]. left.
    split; [reflexivity |]. split; [reflexivity |].
    split; [unfold fsub, fneg, int_to_float, float_of_int, fadd; exact G1 |].
    rewrite G2, Hhv. change (b64v (inject_Z (-1))) with (-1 # 1). ring.
  - rewrite (Qleb_comp _ _ (Qeq_refl 0) _ _ Hhv).
    assert (Hpos : Qle_bool 0 h = true) by now apply Qle_bool_iff.
    rewrite Hpos. rewrite (Qfloor_comp _ _ Hhv).
    assert (Hlt : h < inject_Z (n - 1)).
    { destruct (Qlt_le_dec h (inject_Z (n - 1))) as [| Hge]; [assumption |].
      apply Qle_bool_iff in Hge. congruence. }
    pose proof (Qfloor_le h) as Hfl. pose proof (Qlt_floor h) as Hfu.
    assert (Hf0 : (0 <= Qfloor h)%Z).
    { change 0%Z with (Qfloor 0). now apply Qfloor_resp_le. }
    assert (Hf1 : (Qfloor h < n - 1)%Z).
    { rewrite Zlt_Qlt. lra. }
    assert (Ef : b64v (inject_Z (Qfloor h)) == inject_Z (Qfloor h)) by (apply b64v_Z; lia).
    assert (Eg : b64v h + - b64v (inject_Z (Qfloor h))
                 == inject_Z (k - 4 * Qfloor h) * (1 # 4)).
    { rewrite Hhv, Ef. unfold Z.sub. rewrite inject_Z_plus, inject_Z_opp, inject_Z_mult.
      change (inject_Z 4) with 4.
      set (F := inject_Z (Qfloor h)). clearbody F. rewrite Ek. ring. }
    destruct (quarter_exact _ (k - 4 * Qfloor h) Eg ltac:(lia)) as [G1 G2].
    eexists. split; [reflexivity |]. right.
    split; [reflexivity |]. split; [reflexivity |].
    split; [unfold fsub, fneg, int_to_float, float_of_int, fadd; exact G1 |].
    rewrite G2, Hhv, Ef. reflexivity.
Qed.

(** *** Sorting by a comparison *)

Lemma insert_by_length {A} (leb : A -> A -> bool) (x : A) (l : list A) :
  length (insert_by leb x l) = S (length l).
Proof.
  induction l as [| y l IH]; simpl; [reflexivity |].
  destruct (leb x y); simpl; auto.
Qed.

Lemma sort_by_length {A} (leb : A -> A -> bool) (l : list A) :
  length (sort_by leb l) = length l.
Proof.
  induction l as [| x l IH]; simpl; [reflexivity |].
  rewrite insert_by_length. now f_equal.
Qed.

Lemma insert_by_map {A B} (f : A -> B) (leA : A -> A -> bool)
  (leB : B -> B -> bool) (x : A) (l : list A) :
  (forall x y, leB (f x) (f y) = leA x y) ->
  insert_by leB (f x) (map f l) = map f (insert_by leA x l).
Proof.
  intros H. induction l as [| y l IH]; simpl; [reflexivity |].
  rewrite H. destruct (leA x y); simpl; [reflexivity | now rewrite IH].
Qed.

Lemma sort_by_map {A B} (f : A -> B) (leA : A -> A -> bool)
  (leB : B -> B -> bool) (l : list A) :
  (forall x y, leB (f x) (f y) = leA x y) ->
  sort_by leB (map f l) = map f (sort_by leA l).
Proof.
  intros H. induction l as [| x l IH]; simpl; [reflexivity |].
  rewrite IH. now apply insert_by_map.
Qed.

Lemma sort_by_Qle (l : list Q) : sort_by Qle_bool l = sort l.
Proof.
  induction l as [| x l IH]; simpl; [reflexivity |]. rewrite IH.
  generalize (sort l). intros s. induction s as [| y s IHs]; simpl; [reflexivity |].
  now rewrite IHs.
Qed.

Lemma Zleb_Qle_bool (x y : Z) : Qle_bool (inject_Z x) (inject_Z y) = (x <=? y)%Z.
Proof.
  destruct (Z.leb_spec x y) as [H | H].
  - apply Qle_bool_iff. now rewrite <- Zle_Qle.
  - apply Bool.not_true_iff_false. rewrite Qle_bool_iff, <- Zle_Qle. lia.
Qed.

Lemma sorted_ints (xs : list Z) :
  map inject_Z (sort_by Z.leb xs) = sort (map inject_Z xs).
Proof.
  rewrite <- sort_by_Qle. symmetry. apply sort_by_map. apply Zleb_Qle_bool.
Qed.

Lemma sorted_floats (ys : list Q) :
  sort_by fle (map Finite ys) = map Finite (sort ys).
Proof.
  rewrite <- sort_by_Qle. apply sort_by_map. reflexivity.
Qed.

Lemma regular_floats_finite (xs : list pyfloat) :
  forallb regular_float xs = true -> xs = map Finite (map float_value xs).
Proof.
  induction xs as [| x xs IH]; simpl; [reflexivity |].
  intros H. apply andb_true_iff in H. destruct H as [Hx Hxs].
  rewrite <- IH by assumption. destruct x; try discriminate. reflexivity.
Qed.

Lemma regular_array_values (arr : ndarray) :
  regular_array arr = true -> Forall regular_value (array_values arr).
Proof.
  unfold regular_array. intros H. apply andb_true_iff in H. destruct H as [_ H].
  destruct arr as [xs | xs]; simpl.
  - induction xs as [| z xs IH]; simpl in *; constructor.
    + apply andb_true_iff in H. destruct H as [Hz _]. apply Z.leb_le in Hz.
      split; [now apply b64v_Z |].
      apply Qabs_Qle_condition.
      assert (Hb : - inject_Z (2 ^ 53) <= inject_Z z <= inject_Z (2 ^ 53)).
      { rewrite <- inject_Z_opp, <- !Zle_Qle. lia. }
      pose proof pow2_53_le_P. split; lra.
    + apply IH. apply andb_true_iff in H. tauto.
  - induction xs as [| x xs IH]; simpl in *; constructor.
    + apply andb_true_iff in H. destruct H as [Hx _].
      destruct x as [q | |]; try discriminate. simpl in *.
      apply andb_true_iff in Hx. destruct Hx as [H1 H2].
      split; [now apply is_b64_iff | now apply Qle_bool_iff].
    + apply IH. apply andb_true_iff in H. tauto.
Qed.

Lemma array_values_length (arr : ndarray) :
  length (array_values arr) = array_len arr.
Proof. destruct arr; simpl; apply length_map. Qed.

Lemma nth_map_in {A B} (f : A -> B) (l : list A) (i : nat) (d : A) (d' : B) :
  (i < length l)%nat -> nth i (map f l) d' = f (nth i l d).
Proof.
  revert i. induction l as [| x l IH]; intros i Hi; simpl in *; [lia |].
  destruct i; [reflexivity |]. apply IH. lia.
Qed.

Lemma insert_by_perm {A} (leb : A -> A -> bool) (x : A) (l : list A) :
  Permutation (x :: l) (insert_by leb x l).
Proof.
  induction l as [| y l IH]; simpl; [reflexivity |].
  destruct (leb x y); [reflexivity |].
  rewrite perm_swap. now constructor.
Qed.

Lemma sort_by_perm {A} (leb : A -> A -> bool) (l : list A) :
  Permutation l (sort_by leb l).
Proof.
  induction l as [| x l IH]; simpl; [constructor |].
  rewrite <- insert_by_perm. now constructor.
Qed.

(** The [i]-th smallest value of a regular array of integers. *)
Lemma sorted_int_nth (xs : list Z) (i : Z) :
  forallb (fun z => (Z.abs z <=? 2 ^ 53)%Z) xs = true ->
  (0 <= i < Z.of_nat (length xs))%Z ->
  let z := nth (Z.to_nat i) (sort_by Z.leb xs) 0%Z in
  inject_Z z = order_statistic (map inject_Z xs) i /\ (Z.abs z <= 2 ^ 53)%Z.
Proof.
  intros Hall Hi. cbv zeta. split.
  - unfold order_statistic. rewrite <- sorted_ints.
    symmetry. apply nth_map_in. rewrite sort_by_length. lia.
  - rewrite forallb_forall in Hall. apply Z.leb_le. apply Hall.
    apply (Permutation_in _ (Permutation_sym (sort_by_perm Z.leb xs))).
    apply nth_In. rewrite sort_by_length. lia.
Qed.

Lemma sorted_float_nth (xs : list pyfloat) (i : Z) :
  forallb regular_float xs = true ->
  (0 <= i < Z.of_nat (length xs))%Z ->
  nth (Z.to_nat i) (sort_by fle xs) NaN
  = Finite (order_statistic (map float_value xs) i).
Proof.
  intros Hall Hi. rewrite (regular_floats_finite xs Hall) at 1.
  rewrite sorted_floats. unfold order_statistic.
  apply nth_map_in. rewrite sort_length, length_map. lia.
Qed.

Lemma wrap64_small (z : Z) : (Z.abs z < 2 ^ 63)%Z -> wrap64 z = z.
Proof.
  intros H. unfold wrap64. rewrite Z.mod_small by lia. lia.
Qed.

(** On a regular array the model's quantile is [qquantile]. *)
Lemma np_quantile_regular (arr : ndarray) (p : Q) :
  regular_array arr = true -> array_len arr <> 0%nat ->
  p = 1 # 4 \/ p = 3 # 4 ->
  np_quantile arr p = Finite (qquantile (array_values arr) p).
Proof.
  intros Hreg Hlen Hp.
  pose proof (regular_array_values arr Hreg) as Hvals.
  unfold regular_array in Hreg. apply andb_true_iff in Hreg.
  destruct Hreg as [Hsize Hall]. apply Z.leb_le in Hsize.
  rewrite qquantile_unfold. cbv zeta. rewrite array_values_length.
  unfold np_quantile. cbv zeta.
  set (n := Z.of_nat (array_len arr)) in *.
  assert (Hn : (1 <= n <= 2 ^ 50)%Z) by (unfold n; lia).
  destruct (indexes_regular n p Hn Hp) as (hv & gv & Ehv & Hcase).
  cbv zeta in Hcase. rewrite Ehv.
  set (h := inject_Z (n - 1) * p) in *.
  assert (Hm : 0 <= inject_Z (n - 1)).
  { change 0 with (inject_Z 0). rewrite <- Zle_Qle. lia. }
  destruct Hcase as [(Habove & Eidx & Eg & Hg) | (Habove & Eidx & Eg & Hg)];
    rewrite Eidx, Eg, Habove.
  - (* a single value *)
    apply Qle_bool_iff in Habove.
    assert (En1 : n = 1%Z).
    { destruct (Z.eq_dec n 1) as [| Hne]; [assumption |]. exfalso.
      assert (H1 : 1 <= inject_Z (n - 1)).
      { change 1 with (inject_Z 1). rewrite <- Zle_Qle. lia. }
      unfold h in Habove. destruct Hp as [-> | ->]; lra. }
    assert (Hh : h == 0).
    { unfold h. rewrite En1. change (inject_Z (1 - 1)) with 0. ring. }
    assert (Hi : (0 <= n - 1 < Z.of_nat (array_len arr))%Z) by (fold n; lia).
    destruct arr as [xs | xs]; simpl array_values; simpl in Hall, Hi.
    + unfold py_nth. change (-1 <? 0)%Z with true. cbv iota.
      rewrite sort_by_length. simpl array_len in n. fold n.
      replace (n + -1)%Z with (n - 1)%Z by lia.
      destruct (sorted_int_nth xs (n - 1) Hall Hi) as [Ez Hz]. cbv zeta in Ez, Hz.
      set (z := nth (Z.to_nat (n - 1)) (sort_by Z.leb xs) 0%Z) in *.
      rewrite <- Ez. unfold int_to_float, float_of_int.
      rewrite wrap64_small by lia.
      refine (np_lerp_regular _ _ _ _ _ _ _ _ _ _ _ _ _ _).
      * rewrite Ez. apply regular_order_statistic; [assumption |].
        rewrite length_map. lia.
      * rewrite Ez. apply regular_order_statistic; [assumption |].
        rewrite length_map. lia.
      * rewrite Hh. split; lra.
      * apply b64v_Z. lia.
      * apply b64v_Z. lia.
      * apply b64v_Proper. unfold Z.sub. rewrite inject_Z_plus, inject_Z_opp. reflexivity.
      * assumption.
    + unfold py_nth. change (-1 <? 0)%Z with true. cbv iota.
      rewrite sort_by_length. simpl array_len in n. fold n.
      replace (n + -1)%Z with (n - 1)%Z by lia.
      rewrite (sorted_float_nth xs (n - 1) Hall Hi).
      set (A := order_statistic (map float_value xs) (n - 1)).
      assert (HA : regular_value A).
      { apply regular_order_statistic; [assumption |]. rewrite length_map. lia. }
      pose proof (regular_value_bounds A HA) as [A1 A2].
      unfold fsub at 1, fneg, fadd.
      rewrite b64_finite by (split; pose proof (pow2_pos 1022); lra).
      refine (np_lerp_regular _ _ _ _ _ _ _ HA HA _ _ _ _ _).
      * rewrite Hh. split; lra.
      * reflexivity.
      * reflexivity.
      * reflexivity.
      * assumption.
  - (* two neighbours *)
    assert (Hlt : h < inject_Z (n - 1)).
    { destruct (Qlt_le_dec h (inject_Z (n - 1))) as [| Hge]; [assumption |].
      apply Qle_bool_iff in Hge. congruence. }
    assert (Hh0 : 0 <= h).
    { unfold h. destruct Hp as [-> | ->]; lra. }
    pose proof (Qfloor_le h) as Hfl. pose proof (Qlt_floor h) as Hfu.
    rewrite inject_Z_plus in Hfu. change (inject_Z 1) with 1 in Hfu.
    assert (Hf0 : (0 <= Qfloor h)%Z).
    { change 0%Z with (Qfloor 0). now apply Qfloor_resp_le. }
    assert (Hf1 : (Qfloor h + 1 <= n - 1)%Z).
    { assert (H : inject_Z (Qfloor h) < inject_Z (n - 1)) by lra.
      rewrite <- Zlt_Qlt in H. lia. }
    set (i := Qfloor h) in *.
    assert (Hg01 : 0 <= h - inject_Z i <= 1) by (split; lra).
    assert (Hi : (0 <= i < Z.of_nat (array_len arr))%Z) by (fold n; lia).
    assert (Hj : (0 <= i + 1 < Z.of_nat (array_len arr))%Z) by (fold n; lia).
    destruct arr as [xs | xs]; simpl array_values; simpl in Hall, Hi, Hj.
    + unfold py_nth.
      replace (i <? 0)%Z with false by (symmetry; apply Z.ltb_ge; lia).
      replace (i + 1 <? 0)%Z with false by (symmetry; apply Z.ltb_ge; lia).
      destruct (sorted_int_nth xs i Hall Hi) as [Ea Ha].
      destruct (sorted_int_nth xs (i + 1) Hall Hj) as [Eb Hb].
      cbv zeta in Ea, Ha, Eb, Hb.
      set (a := nth (Z.to_nat i) (sort_by Z.leb xs) 0%Z) in *.
      set (b := nth (Z.to_nat (i + 1)) (sort_by Z.leb xs) 0%Z) in *.
      rewrite <- Ea, <- Eb. unfold int_to_float, float_of_int.
      rewrite wrap64_small by lia.
      refine (np_lerp_regular _ _ _ _ _ _ _ _ _ _ _ _ _ _).
      * rewrite Ea. apply regular_order_statistic; [assumption |].
        rewrite length_map. lia.
      * rewrite Eb. apply regular_order_statistic; [assumption |].
        rewrite length_map. lia.
      * assumption.
      * apply b64v_Z. lia.
      * apply b64v_Z. lia.
      * apply b64v_Proper. unfold Z.sub. rewrite inject_Z_plus, inject_Z_opp. reflexivity.
      * assumption.
    + unfold py_nth.
      replace (i <? 0)%Z with false by (symmetry; apply Z.ltb_ge; lia).
      replace (i + 1 <? 0)%Z with false by (symmetry; apply Z.ltb_ge; lia).
      rewrite (sorted_float_nth xs i Hall Hi).
      rewrite (sorted_float_nth xs (i + 1) Hall Hj).
      set (A := order_statistic (map float_value xs) i).
      set (B := order_statistic (map float_value xs) (i + 1)).
      assert (HA : regular_value A).
      { apply regular_order_statistic; [assumption |]. rewrite length_map. lia. }
      assert (HB : regular_value B).
      { apply regular_order_statistic; [assumption |]. rewrite length_map. lia. }
      pose proof (regular_value_bounds A HA) as [A1 A2].
      pose proof (regular_value_bounds B HB) as [B1 B2].
      unfold fsub at 1, fneg, fadd.
      rewrite b64_finite by (split; pose proof (pow2_pos 1022); lra).
      refine (np_lerp_regular _ _ _ _ _ _ _ HA HB _ _ _ _ _).
      * assumption.
      * reflexivity.
      * reflexivity.
      * reflexivity.
      * assumption.
Qed.

(** ** The bounds of the outlier rule *)

Lemma fle_inf_b64 (x : Q) : fle (Inf true) (b64 x) = true.
Proof. destruct (b64_cases x) as [[E _] | [[E _] | [E _]]]; rewrite E; reflexivity. Qed.

Lemma fle_b64_inf (x : Q) : fle (b64 x) (Inf false) = true.
Proof. destruct (b64_cases x) as [[E _] | [[E _] | [E _]]]; rewrite E; reflexivity. Qed.

(** Subtracting more gives less, adding more gives more. *)
Lemma fsub_b64_antitone (v x y : Q) :
  x <= y ->
  fle (fsub (Finite v) (b64 y)) (fsub (Finite v) (b64 x)) = true.
Proof.
  intros H. apply b64v_mono in H. pose proof (pow2_pos 1024) as Hp.
  destruct (b64_cases x) as [[E A] | [[E A] | [E A]]];
    destruct (b64_cases y) as [[E' A'] | [[E' A'] | [E' A']]];
    rewrite E, E'; unfold fsub, fneg, fadd; simpl negb;
    try reflexivity; try (exfalso; lra);
    try apply fle_inf_b64; try apply fle_b64_inf.
  apply b64_mono. lra.
Qed.

Lemma fadd_b64_monotone (v x y : Q) :
  x <= y ->
  fle (fadd (Finite v) (b64 x)) (fadd (Finite v) (b64 y)) = true.
Proof.
  intros H. apply b64v_mono in H. pose proof (pow2_pos 1024) as Hp.
  destruct (b64_cases x) as [[E A] | [[E A] | [E A]]];
    destruct (b64_cases y) as [[E' A'] | [[E' A'] | [E' A']]];
    rewrite E, E'; unfold fadd;
    try reflexivity; try (exfalso; lra);
    try apply fle_inf_b64; try apply fle_b64_inf.
  apply b64_mono. lra.
Qed.

(** The quartiles of a regular array: finite, ordered, between two of the
    values. *)
Lemma regular_quartiles (arr : ndarray) :
  regular_array arr = true -> array_len arr <> 0%nat ->
  exists v1 v3,
    np_quantile arr (1 # 4) = Finite v1
    /\ np_quantile arr (3 # 4) = Finite v3
    /\ v1 <= v3
    /\ - pow2 1022 <= v1 /\ v3 <= pow2 1022
    /\ v1 = qquantile (array_values arr) (1 # 4)
    /\ v3 = qquantile (array_values arr) (3 # 4).
Proof.
  intros Hreg Hlen.
  pose proof (regular_array_values arr Hreg) as Hvals.
  assert (Hne : array_values arr <> []).
  { intros E. apply Hlen. rewrite <- array_values_length, E. reflexivity. }
  exists (qquantile (array_values arr) (1 # 4)), (qquantile (array_values arr) (3 # 4)).
  split; [apply np_quantile_regular; auto |].
  split; [apply np_quantile_regular; auto |].
  split; [now apply qquantile_quartiles |].
  destruct (qquantile_in_range _ (1 # 4) Hne Hvals ltac:(lra)) as (a & _ & Ha & _ & [La _]).
  destruct (qquantile_in_range _ (3 # 4) Hne Hvals ltac:(lra)) as (_ & b & _ & Hb & [_ Ub]).
  rewrite Forall_forall in Hvals.
  pose proof (regular_value_bounds a (Hvals a Ha)) as [A1 _].
  pose proof (regular_value_bounds b (Hvals b Hb)) as [_ B2].
  repeat split; try reflexivity; lra.
Qed.

Lemma regular_iqr (v1 v3 : Q) :
  v1 <= v3 -> - pow2 1022 <= v1 -> v3 <= pow2 1022 ->
  fsub (Finite v3) (Finite v1) = Finite (b64v (v3 - v1)) /\ 0 <= b64v (v3 - v1).
Proof.
  intros H H1 H3. pose proof (pow2_pos 1022) as Hp. split.
  - unfold fsub, fneg, fadd. apply b64_finite. split; lra.
  - apply b64v_nonneg. lra.
Qed.

(** For a factor that is finite and not negative the bounds of a regular
    array are ordered. *)
Lemma regular_bounds_ordered (arr : ndarray) (f : Q) :
  regular_array arr = true -> array_len arr <> 0%nat -> 0 <= f ->
  let '(low, high) :=
    bounds_of (np_quantile arr (1 # 4)) (np_quantile arr (3 # 4)) (Finite f) in
  fle low high = true.
Proof.
  intros Hreg Hlen Hf.
  destruct (regular_quartiles arr Hreg Hlen) as (v1 & v3 & E1 & E3 & H13 & L1 & U3 & _).
  rewrite E1, E3. unfold bounds_of.
  destruct (regular_iqr v1 v3 H13 L1 U3) as [Ei Hd]. rewrite Ei.
  set (d := b64v (v3 - v1)) in *. unfold fmul.
  destruct (b64_nonneg_cases (f * d)) as [Et | [Et Ht]]; [nra | |]; rewrite Et.
  - reflexivity.
  - unfold fsub, fneg, fadd. apply b64_mono. lra.
Qed.

(** A larger finite factor moves the lower bound down and the upper bound
    up. *)
Lemma regular_bounds_monotone (arr : ndarray) (f1 f2 : Q) :
  regular_array arr = true -> array_len arr <> 0%nat -> f1 <= f2 ->
  let '(low1, high1) :=
    bounds_of (np_quantile arr (1 # 4)) (np_quantile arr (3 # 4)) (Finite f1) in
  let '(low2, high2) :=
    bounds_of (np_quantile arr (1 # 4)) (np_quantile arr (3 # 4)) (Finite f2) in
  fle low2 low1 = true /\ fle high1 high2 = true.
Proof.
  intros Hreg Hlen Hf.
  destruct (regular_quartiles arr Hreg Hlen) as (v1 & v3 & E1 & E3 & H13 & L1 & U3 & _).
  rewrite E1, E3. unfold bounds_of.
  destruct (regular_iqr v1 v3 H13 L1 U3) as [Ei Hd]. rewrite Ei.
  set (d := b64v (v3 - v1)) in *. unfold fmul.
  assert (H : f1 * d <= f2 * d) by nra.
  split; [now apply fsub_b64_antitone | now apply fadd_b64_monotone].
Qed.

Lemma count_lt_mono (arr : ndarray) (b b' : pyfloat) :
  fle b b' = true -> (count_lt arr b <= count_lt arr b')%Z.
Proof.
  intros H. destruct arr as [xs | xs]; unfold count_lt;
    apply inj_le, filter_length_mono;
    intros x Hx; now apply (flt_fle_trans _ b).
Qed.

Lemma count_gt_mono (arr : ndarray) (b b' : pyfloat) :
  fle b b' = true -> (count_gt arr b' <= count_gt arr b)%Z.
Proof.
  intros H. destruct arr as [xs | xs]; unfold count_gt;
    apply inj_le, filter_length_mono;
    intros x Hx; now apply (fle_flt_trans _ b').
Qed.

Lemma count_bounds (arr : ndarray) (b : pyfloat) :
  (0 <= count_lt arr b <= Z.of_nat (array_len arr))%Z
  /\ (0 <= count_gt arr b <= Z.of_nat (array_len arr))%Z.
Proof.
  destruct arr as [xs | xs]; unfold count_lt, count_gt, array_len;
    repeat split; try lia; apply inj_le, filter_length_le.
Qed.

Lemma counts_disjoint (arr : ndarray) (low high : pyfloat) :
  fle low high = true ->
  (count_lt arr low + count_gt arr high <= Z.of_nat (array_len arr))%Z.
Proof.
  intros H. destruct arr as [xs | xs]; unfold count_lt, count_gt, array_len;
    rewrite <- Nat2Z.inj_add; apply inj_le, filter_disjoint_length;
    intros x H1 H2; exact (flt_fle_disjoint _ _ _ H H1 H2).
Qed.

(** ** Integers of moderate size: the quartiles are exact *)

Lemma quarter_b64v (x : Q) (k : Z) :
  x == inject_Z k * (1 # 4) -> (Z.abs k < 2 ^ 53)%Z -> b64v x == x.
Proof. intros E Hk. now apply (quarter_exact x k). Qed.

Lemma qlerp_exact_int (a b j : Z) (t : Q) :
  (Z.abs a <= 2 ^ 49)%Z -> (Z.abs b <= 2 ^ 49)%Z -> (0 <= j <= 4)%Z ->
  t == inject_Z j * (1 # 4) ->
  qlerp (inject_Z a) (inject_Z b) t == lerp (inject_Z a) (inject_Z b) t.
Proof.
  intros Ha Hb Hj Et. unfold qlerp, lerp. cbv zeta.
  assert (Ed : b64v (inject_Z b - inject_Z a) == inject_Z (b - a)).
  { rewrite <- (b64v_Z (b - a)) by lia. apply b64v_Proper.
    unfold Z.sub. rewrite inject_Z_plus, inject_Z_opp. reflexivity. }
  assert (Eba : inject_Z b - inject_Z a == inject_Z (b - a)).
  { unfold Z.sub. rewrite inject_Z_plus, inject_Z_opp. reflexivity. }
  destruct (Qle_bool (1 # 2) t); rewrite Ed, Eba.
  - assert (Es : b64v (1 - t) == inject_Z (4 - j) * (1 # 4)).
    { assert (E : 1 - t == inject_Z (4 - j) * (1 # 4)).
      { rewrite Et. unfold Z.sub. rewrite inject_Z_plus, inject_Z_opp.
        change (inject_Z 4) with 4. ring. }
      rewrite (quarter_b64v _ _ E) by lia. exact E. }
    assert (Ew : b64v (inject_Z (b - a) * b64v (1 - t))
                 == inject_Z ((b - a) * (4 - j)) * (1 # 4)).
    { assert (E : inject_Z (b - a) * b64v (1 - t)
                  == inject_Z ((b - a) * (4 - j)) * (1 # 4)).
      { rewrite Es, inject_Z_mult. ring. }
      rewrite (quarter_b64v _ _ E) by nia. exact E. }
    assert (Ev : inject_Z b - b64v (inject_Z (b - a) * b64v (1 - t))
                 == inject_Z (4 * b - (b - a) * (4 - j)) * (1 # 4)).
    { rewrite Ew. unfold Z.sub at 3. rewrite inject_Z_plus, inject_Z_opp, !inject_Z_mult.
      change (inject_Z 4) with 4. ring. }
    rewrite (quarter_b64v _ _ Ev) by nia.
    rewrite Ev, Et. unfold Z.sub.
    repeat first [rewrite inject_Z_plus | rewrite inject_Z_mult | rewrite inject_Z_opp].
    change (inject_Z 4) with 4. ring.
  - assert (Ew : b64v (inject_Z (b - a) * t) == inject_Z ((b - a) * j) * (1 # 4)).
    { assert (E : inject_Z (b - a) * t == inject_Z ((b - a) * j) * (1 # 4)).
      { rewrite Et, inject_Z_mult. ring. }
      rewrite (quarter_b64v _ _ E) by nia. exact E. }
    assert (Ev : inject_Z a + b64v (inject_Z (b - a) * t)
                 == inject_Z (4 * a + (b - a) * j) * (1 # 4)).
    { rewrite Ew. rewrite inject_Z_plus, !inject_Z_mult.
      change (inject_Z 4) with 4. ring. }
    rewrite (quarter_b64v _ _ Ev) by nia.
    rewrite Ev, Et. unfold Z.sub.
    repeat first [rewrite inject_Z_plus | rewrite inject_Z_mult | rewrite inject_Z_opp].
    change (inject_Z 4) with 4. ring.
Qed.

Lemma order_statistic_int (xs : list Z) (i : Z) :
  Forall (fun z => (Z.abs z <= 2 ^ 49)%Z) xs ->
  (0 <= i < Z.of_nat (length xs))%Z ->
  exists z, order_statistic (map inject_Z xs) i = inject_Z z
            /\ (Z.abs z <= 2 ^ 49)%Z.
Proof.
  intros Hall Hi.
  assert (Hin : In (order_statistic (map inject_Z xs) i) (map inject_Z xs)).
  { apply order_statistic_in. rewrite length_map. assumption. }
  apply in_map_iff in Hin. destruct Hin as (z & Ez & Hz).
  exists z. split; [now symmetry |].
  rewrite Forall_forall in Hall. now apply Hall.
Qed.

Lemma small_ints_regular (xs : list Z) :
  Forall (fun z => (Z.abs z <= 2 ^ 49)%Z) xs ->
  Forall regular_value (map inject_Z xs).
Proof.
  intros H. induction H as [| z xs Hz Hxs IH]; simpl; constructor; [| assumption].
  split; [apply b64v_Z; lia |].
  apply Qabs_Qle_condition.
  assert (Hb : - inject_Z (2 ^ 53) <= inject_Z z <= inject_Z (2 ^ 53)).
  { rewrite <- inject_Z_opp, <- !Zle_Qle. lia. }
  pose proof pow2_53_le_P. split; lra.
Qed.

(** For integers of magnitude at most [2 ^ 49] the quartiles computed in
    binary64 are the exact interpolated ones. *)
Lemma qquantile_exact_int (xs : list Z) (p : Q) :
  xs <> [] -> Forall (fun z => (Z.abs z <= 2 ^ 49)%Z) xs ->
  p = 1 # 4 \/ p = 3 # 4 ->
  qquantile (map inject_Z xs) p == quantile_linear (map inject_Z xs) p.
Proof.
  intros Hne Hall Hp.
  set (ys := map inject_Z xs).
  assert (Hys : ys <> []) by (unfold ys; destruct xs; [congruence | discriminate]).
  pose proof (length_pos ys Hys) as Hn.
  pose proof (small_ints_regular xs Hall) as Hreg. fold ys in Hreg.
  assert (Hp01 : 0 <= p <= 1) by (destruct Hp as [-> | ->]; lra).
  pose proof (qquantile_between ys p Hys Hreg Hp01) as Hb. cbv zeta in Hb.
  rewrite quantile_linear_unfold. cbv zeta.
  assert (Hlen : length ys = length xs) by apply length_map.
  set (n := Z.of_nat (length ys)) in *.
  set (h := inject_Z (n - 1) * p) in *.
  assert (Hm : 0 <= inject_Z (n - 1)).
  { change 0 with (inject_Z 0). rewrite <- Zle_Qle. lia. }
  destruct Hb as [[Habove E] | (Hlt & F0 & F1 & _)].
  - assert (En1 : n = 1%Z).
    { destruct (Z.eq_dec n 1) as [| Hne1]; [assumption |]. exfalso.
      assert (H1 : 1 <= inject_Z (n - 1)).
      { change 1 with (inject_Z 1). rewrite <- Zle_Qle. lia. }
      unfold h in Habove. destruct Hp as [-> | ->]; lra. }
    assert (Hh : h == 0).
    { unfold h. rewrite En1. change (inject_Z (1 - 1)) with 0. ring. }
    rewrite E. rewrite (Qfloor_comp _ _ Hh). rewrite En1.
    change (Qfloor 0) with 0%Z. change (Z.min (0 + 1) (1 - 1)) with 0%Z.
    change (1 - 1)%Z with 0%Z. unfold lerp. ring.
  - rewrite qquantile_unfold. cbv zeta. fold n. fold h.
    assert (Hnb : Qle_bool (inject_Z (n - 1)) h = false).
    { apply Bool.not_true_iff_false. rewrite Qle_bool_iff. lra. }
    rewrite Hnb.
    replace (Z.min (Qfloor h + 1) (n - 1)) with (Qfloor h + 1)%Z by lia.
    destruct (order_statistic_int xs (Qfloor h) Hall) as (a & Ea & Ha);
      [unfold n in *; lia |].
    destruct (order_statistic_int xs (Qfloor h + 1) Hall) as (b & Eb & Hb);
      [unfold n in *; lia |].
    fold ys in Ea, Eb. rewrite Ea, Eb.
    pose proof (Qfloor_le h) as Hfl. pose proof (Qlt_floor h) as Hfu.
    rewrite inject_Z_plus in Hfu. change (inject_Z 1) with 1 in Hfu.
    assert (Hk : exists k, h == inject_Z k * (1 # 4)).
    { destruct Hp as [-> | ->].
      - exists (n - 1)%Z. reflexivity.
      - exists (3 * (n - 1))%Z. unfold h. rewrite inject_Z_mult.
        change (inject_Z 3) with 3. ring. }
    destruct Hk as (k & Ek).
    apply (qlerp_exact_int a b (k - 4 * Qfloor h)); try assumption.
    + set (F := Qfloor h) in *.
      assert (H1 : inject_Z (4 * F) <= inject_Z k).
      { rewrite inject_Z_mult. change (inject_Z 4) with 4. lra. }
      assert (H2 : inject_Z k < inject_Z (4 * F + 4)).
      { rewrite inject_Z_plus, inject_Z_mult. change (inject_Z 4) with 4. lra. }
      rewrite <- Zle_Qle in H1. rewrite <- Zlt_Qlt in H2. lia.
    + set (F := Qfloor h) in *. unfold Z.sub.
      rewrite inject_Z_plus, inject_Z_opp, inject_Z_mult.
      change (inject_Z 4) with 4. clearbody F. rewrite Ek. ring.
Qed.

(** ** Outlier detector *)

Lemma read_only_outlier_body (factor : pyfloat) (col : string)
  (summary : dict OutlierEntry) :
  read_only
    (s <- call (fun df => match getitem df col with
                          | Ok s => Ok (dropna s)
                          | Raise e => Raise e
                          end) ;;
     if series_empty s then ret (dict_set summary col OutEmpty)
     else
       bounds <- lift (_iqr_bounds s factor) ;;
       let '(low, high) := bounds in
       ret (dict_set summary col
              (OutStats (Z.of_nat (series_len s)) low high
                 (count_lt (series_numbers s) low)
                 (count_gt (series_numbers s) high)))).
Proof. frame_tac. Qed.

Lemma run_outlier_summary (sel : option (list string)) (factor : pyfloat)
  (df : DataFrame) :
  run (outlier_summary sel factor) df =
  fold_result (selected_columns df sel) (store_step (outlier_entry df factor)) [].
Proof.
  unfold outlier_summary.
  rewrite run_bind by (destruct sel; [apply read_only_ret | apply read_only_read]).
  replace (run match sel with
               | Some l => ret l
               | None => read select_number_columns
               end df)
    with (Ok (A := list string) (selected_columns df sel))
    by (destruct sel; reflexivity).
  rewrite run_for_each by (intros; apply read_only_outlier_body).
  apply fold_result_ext. intros col summary.
  unfold store_step, outlier_entry, run, bind, call, lift, ret. simpl.
  destruct (getitem df col) as [s | e]; simpl; [| reflexivity].
  destruct (series_empty (dropna s)); simpl; [reflexivity |].
  destruct (_iqr_bounds (dropna s) factor) as [[low high] | e]; reflexivity.
Qed.

Lemma filter_filter {A} (f : A -> bool) (l : list A) :
  filter f (filter f l) = filter f l.
Proof.
  induction l as [| x l IH]; simpl; [reflexivity |].
  destruct (f x) eqn:E; simpl; [rewrite E; now f_equal | assumption].
Qed.

Lemma numeric_values_dropna (s : Series) :
  numeric_values (dropna s) = numeric_values s.
Proof.
  unfold numeric_values, dropna. destruct (data s); simpl; try reflexivity.
  now rewrite filter_filter.
Qed.

Lemma numeric_values_length (s : Series) (arr : ndarray) :
  numeric_values (dropna s) = Some arr -> series_len (dropna s) = array_len arr.
Proof.
  unfold numeric_values, series_len, cells, dropna.
  destruct (data s) as [zs | qs | bs | os]; simpl; try discriminate.
  - intros [= <-]. simpl. now rewrite length_map.
  - intros [= <-]. simpl. rewrite length_map. now rewrite filter_filter.
Qed.

Lemma stats_of_unfold (arr : ndarray) (factor : pyfloat) :
  stats_of arr factor =
  let q1 := np_quantile arr (1 # 4) in
  let q3 := np_quantile arr (3 # 4) in
  let iqr := fsub q3 q1 in
  let low := fsub q1 (fmul factor iqr) in
  let high := fadd q3 (fmul factor iqr) in
  OutStats (Z.of_nat (array_len arr)) low high
    (count_lt arr low) (count_gt arr high).
Proof. reflexivity. Qed.

(** What the loop body computes, by the array type of the column. *)
Lemma outlier_entry_cases (df : DataFrame) (factor : pyfloat) (c : string) :
  outlier_entry df factor c =
  match getitem df c with
  | Raise e => Raise e
  | Ok s =>
      match numeric_values s with
      | Some arr =>
          if (array_len arr =? 0)%nat then Ok OutEmpty
          else Ok (stats_of arr factor)
      | None =>
          if series_empty (dropna s) then Ok OutEmpty
          else Raise (TypeError "unsupported operand type")
      end
  end.
Proof.
  unfold outlier_entry. destruct (getitem df c) as [s | e]; [| reflexivity].
  cbv zeta. unfold _iqr_bounds, quantile, series_numbers, series_empty.
  rewrite numeric_values_dropna.
  destruct (numeric_values s) as [arr |] eqn:Harr.
  - rewrite <- numeric_values_dropna in Harr.
    rewrite (numeric_values_length s arr Harr).
    destruct (array_len arr =? 0)%nat; reflexivity.
  - destruct (series_len (dropna s) =? 0)%nat; reflexivity.
Qed.

Lemma find_series_unique (l : list Series) (s : Series) :
  NoDup (map name l) -> In s l -> find_series (name s) l = Some s.
Proof.
  unfold find_series. induction l as [| s0 l IH]; simpl; [tauto |].
  intros Hnd [-> | Hin].
  - now rewrite String.eqb_refl.
  - inversion Hnd as [| ? ? Hs0 Hl]; subst.
    destruct (String.eqb_spec (name s) (name s0)) as [E | E]; [| auto].
    exfalso. apply Hs0. rewrite <- E. now apply in_map.
Qed.

(** With its default selection the detector returns on every Dataset with
    unique labels. *)
Lemma outlier_summary_default_returns (df : DataFrame) (factor : pyfloat) :
  unique_labels (column_names df) = true ->
  exists summary, run (outlier_summary None factor) df = Ok summary.
Proof.
  intros Hu. rewrite run_outlier_summary. apply store_loop_total.
  intros c Hc. simpl in Hc. unfold select_number_columns in Hc.
  apply in_map_iff in Hc. destruct Hc as [s [<- Hs]].
  apply filter_In in Hs. destruct Hs as [Hin Hnum].
  rewrite outlier_entry_cases. unfold getitem.
  rewrite find_series_unique; [| now apply unique_labels_NoDup | assumption].
  unfold numeric_values. unfold series_dtype in Hnum.
  destruct (data s) as [zs | qs | bs | os]; try discriminate.
  - destruct (array_len (IntArray zs) =? 0)%nat; eauto.
  - destruct (array_len (FloatArray _) =? 0)%nat; eauto.
Qed.

(** An entry of a returned summary is the entry of its column. *)
Lemma outlier_summary_entry (df : DataFrame) (sel : option (list string))
  (factor : pyfloat) (summary : dict OutlierEntry) (c : string) :
  run (outlier_summary sel factor) df = Ok summary ->
  forall e, dict_get summary c = Some e <->
            In c (selected_columns df sel) /\ outlier_entry df factor c = Ok e.
Proof.
  rewrite run_outlier_summary. intros H. apply store_loop_ok in H.
  destruct H as (Hin & Hout & Hkeys). intros e. split.
  - intros Hget.
    assert (Hc : In c (selected_columns df sel)).
    { destruct (in_dec string_dec c (selected_columns df sel)) as [Hc | Hc]; [assumption |].
      rewrite (Hout c Hc) in Hget. discriminate. }
    split; [assumption |].
    destruct (Hin c Hc) as [v [Hv Hget']]. congruence.
  - intros [Hc He]. destruct (Hin c Hc) as [v [Hv Hget']]. congruence.
Qed.

(** The entry of a column with bounds is computed from the values of the
    column. *)
Lemma outlier_entry_stats (df : DataFrame) (factor : pyfloat) (c : string)
  (n : Z) (low high : pyfloat) (b a : Z) :
  outlier_entry df factor c = Ok (OutStats n low high b a) ->
  exists s arr,
    getitem df c = Ok s /\ numeric_values s = Some arr
    /\ array_len arr <> 0%nat
    /\ OutStats n low high b a = stats_of arr factor
    /\ forall factor', outlier_entry df factor' c = Ok (stats_of arr factor').
Proof.
  rewrite outlier_entry_cases.
  destruct (getitem df c) as [s | e] eqn:Hs; [| discriminate].
  destruct (numeric_values s) as [arr |] eqn:Harr.
  - destruct (Nat.eqb_spec (array_len arr) 0) as [E | E]; [discriminate |].
    intros H. exists s, arr. split; [reflexivity |]. split; [exact Harr |].
    split; [assumption |]. split; [congruence |].
    intros factor'. rewrite outlier_entry_cases, Hs, Harr.
    destruct (Nat.eqb_spec (array_len arr) 0); [contradiction | reflexivity].
  - destruct (series_empty (dropna s)); discriminate.
Qed.

(** The entry that a summary holds for a column with values. *)
Lemma outlier_summary_stats (df : DataFrame) (sel : option (list string))
  (factor : pyfloat) (summary : dict OutlierEntry) (c : string)
  (s : Series) (arr : ndarray) (e : OutlierEntry) :
  run (outlier_summary sel factor) df = Ok summary ->
  dict_get summary c = Some e ->
  getitem df c = Ok s -> numeric_values s = Some arr ->
  array_len arr <> 0%nat ->
  e = stats_of arr factor.
Proof.
  intros Hrun Hget Hs Harr Hlen.
  apply (outlier_summary_entry df sel factor summary c Hrun) in Hget.
  destruct Hget as [_ He]. rewrite outlier_entry_cases, Hs, Harr in He.
  destruct (Nat.eqb_spec (array_len arr) 0); [contradiction | congruence].
Qed.

Lemma strictly_less_iff (x y : Q) : strictly_less x y = true <-> x < y.
Proof.
  unfold strictly_less. destruct (Qlt_le_dec x y); split; auto; try discriminate.
  intros H. lra.
Qed.

Lemma flt_finite (x y : Q) : flt (Finite x) (Finite y) = strictly_less x y.
Proof.
  unfold flt, strictly_less. destruct (Qlt_le_dec x y) as [Hlt | Hge].
  - apply negb_true_iff. apply Bool.not_true_iff_false.
    rewrite Qle_bool_iff. lra.
  - apply negb_false_iff. now apply Qle_bool_iff.
Qed.

Lemma strictly_less_comp (x x' y : Q) :
  x == x' -> strictly_less x y = strictly_less x' y.
Proof.
  intros E. destruct (strictly_less x' y) eqn:H.
  - apply strictly_less_iff. apply strictly_less_iff in H. lra.
  - apply Bool.not_true_iff_false. rewrite strictly_less_iff.
    apply Bool.not_true_iff_false in H. rewrite strictly_less_iff in H. lra.
Qed.

Lemma strictly_less_comp_r (x y y' : Q) :
  y == y' -> strictly_less x y = strictly_less x y'.
Proof.
  intros E. destruct (strictly_less x y') eqn:H.
  - apply strictly_less_iff. apply strictly_less_iff in H. lra.
  - apply Bool.not_true_iff_false. rewrite strictly_less_iff.
    apply Bool.not_true_iff_false in H. rewrite strictly_less_iff in H. lra.
Qed.

Lemma filter_map_length {A B} (f : A -> B) (p : B -> bool) (l : list A) :
  length (filter p (map f l)) = length (filter (fun x => p (f x)) l).
Proof.
  induction l as [| x l IH]; simpl; [reflexivity |].
  destruct (p (f x)); simpl; now rewrite IH.
Qed.

(** Integers up to [2 ^ 53] are compared with a finite bound as the
    integers they are. *)
Lemma count_int_exact (xs : list Z) (bound : Q) :
  Forall (fun z => (Z.abs z <= 2 ^ 53)%Z) xs ->
  count_lt (IntArray xs) (Finite bound)
  = count_below_spec (map inject_Z xs) bound
  /\ count_gt (IntArray xs) (Finite bound)
     = count_above_spec (map inject_Z xs) bound.
Proof.
  intros Hall. unfold count_lt, count_gt, count_below_spec, count_above_spec.
  rewrite !filter_map_length. rewrite Forall_forall in Hall.
  split; f_equal; f_equal; apply filter_ext_in; intros z Hz; unfold int_to_float;
    rewrite flt_finite.
  - apply strictly_less_comp. apply float_of_int_small. now apply Hall.
  - apply strictly_less_comp_r. apply float_of_int_small. now apply Hall.
Qed.

Lemma small_ints_regular_array (xs : list Z) :
  Forall (fun z => (Z.abs z <= 2 ^ 49)%Z) xs ->
  (Z.of_nat (length xs) <= 2 ^ 50)%Z ->
  regular_array (IntArray xs) = true.
Proof.
  intros Hall Hlen. unfold regular_array. apply andb_true_iff. split.
  - apply Z.leb_le. assumption.
  - apply forallb_forall. rewrite Forall_forall in Hall.
    intros z Hz. apply Z.leb_le. specialize (Hall z Hz). simpl in Hall. lia.
Qed.

(** For integers of magnitude at most [2 ^ 49] the quartiles that the
    library computes are the percentiles of the specification. *)
Lemma np_quantile_small_ints (xs : list Z) (p : Q) :
  xs <> [] -> Forall (fun z => (Z.abs z <= 2 ^ 49)%Z) xs ->
  (Z.of_nat (length xs) <= 2 ^ 50)%Z ->
  p = 1 # 4 \/ p = 3 # 4 ->
  exists v, np_quantile (IntArray xs) p = Finite v
            /\ v == percentile_spec (map inject_Z xs) p.
Proof.
  intros Hne Hall Hlen Hp.
  exists (qquantile (map inject_Z xs) p). split.
  - apply (np_quantile_regular (IntArray xs) p).
    + now apply small_ints_regular_array.
    + simpl. destruct xs; [congruence | discriminate].
    + assumption.
  - rewrite (qquantile_exact_int xs p Hne Hall Hp).
    apply quantile_linear_is_percentile.
    + destruct xs; [congruence | discriminate].
    + destruct Hp as [-> | ->]; lra.
Qed.

(** C5, in the arithmetic of the code.  With its default selection the
    detector returns.  Whenever it returns, the entry of every selected
    numeric column with a non-empty array [arr] of values reports [n] as the
    number of values, [low_bound] as [q1 - factor * iqr] and [high_bound] as
    [q3 + factor * iqr], where [q1] and [q3] are the quartiles that the
    library interpolates, [iqr = q3 - q1], and every operation is rounded to
    binary64; [below] as the number of values whose binary64 conversion is
    strictly less than [low_bound] and [above] as the number of those
    strictly greater than [high_bound].  A value whose conversion equals a
    bound is not counted on the side of that bound, and on neither side when
    [low_bound <= high_bound].  For a column of at
    most [2 ^ 50] integers of magnitude at most [2 ^ 49], [q1] and [q3] are
    exactly the 25th and 75th percentiles by linear interpolation, and the
    counts are the exact counts of the values strictly below and strictly
    above the reported bounds.  For the column 10, 12, 12, 13, 200 and the
    factor 1.5: q1 = 12, q3 = 13, the bounds are 10.5 and 14.5, and one value
    lies below and one above. *)
Theorem outlier_summary_matches_rule :
  (forall (df : DataFrame) (factor : pyfloat),
      unique_labels (column_names df) = true ->
      exists summary, run (outlier_summary None factor) df = Ok summary)
  /\ (forall (df : DataFrame) (sel : option (list string)) (factor : pyfloat)
             (summary : dict OutlierEntry) (c : string) (s : Series)
             (arr : ndarray),
         run (outlier_summary sel factor) df = Ok summary ->
         In c (selected_columns df sel) ->
         getitem df c = Ok s -> numeric_values s = Some arr ->
         array_len arr <> 0%nat ->
         let q1 := np_quantile arr (1 # 4) in
         let q3 := np_quantile arr (3 # 4) in
         let iqr := fsub q3 q1 in
         let low := fsub q1 (fmul factor iqr) in
         let high := fadd q3 (fmul factor iqr) in
         dict_get summary c
         = Some (OutStats (Z.of_nat (array_len arr)) low high
                   (count_lt arr low) (count_gt arr high)))
  /\ (forall (z : Z) (x : pyfloat),
         count_lt (IntArray [z]) (int_to_float z) = 0%Z
         /\ count_gt (IntArray [z]) (int_to_float z) = 0%Z
         /\ count_lt (FloatArray [x]) x = 0%Z
         /\ count_gt (FloatArray [x]) x = 0%Z)
  /\ (forall (z : Z) (x low high : pyfloat),
         fle low high = true ->
         (int_to_float z = low \/ int_to_float z = high ->
          count_lt (IntArray [z]) low = 0%Z
          /\ count_gt (IntArray [z]) high = 0%Z)
         /\ (x = low \/ x = high ->
             count_lt (FloatArray [x]) low = 0%Z
             /\ count_gt (FloatArray [x]) high = 0%Z))
  /\ (forall (xs : list Z),
         xs <> [] -> Forall (fun z => (Z.abs z <= 2 ^ 49)%Z) xs ->
         (Z.of_nat (length xs) <= 2 ^ 50)%Z ->
         let ys := map inject_Z xs in
         (exists q1 q3,
             np_quantile (IntArray xs) (1 # 4) = Finite q1
             /\ np_quantile (IntArray xs) (3 # 4) = Finite q3
             /\ q1 == percentile_spec ys (1 # 4)
             /\ q3 == percentile_spec ys (3 # 4))
         /\ forall bound : Q,
              count_lt (IntArray xs) (Finite bound) = count_below_spec ys bound
              /\ count_gt (IntArray xs) (Finite bound) = count_above_spec ys bound)
  /\ (let xs := [10; 12; 12; 13; 200] in
      percentile_spec xs (1 # 4) == 12 /\ percentile_spec xs (3 # 4) == 13
      /\ run (outlier_summary None (Finite (3 # 2)))
             (mkFrame 5 [mkSeries "x" (Int64Data [10; 12; 12; 13; 200]%Z)])
         = Ok [("x", OutStats 5 (Finite (21 # 2)) (Finite (29 # 2)) 1 1)]).
Proof.
  split; [| split; [| split; [| split; [| split]]]].
  - intros df factor Hu. now apply outlier_summary_default_returns.
  - intros df sel factor summary c s arr Hrun Hc Hs Harr Hlen. cbv zeta.
    pose proof (outlier_summary_entry df sel factor summary c Hrun) as Hentry.
    rewrite <- stats_of_unfold. apply Hentry. split; [assumption |].
    rewrite outlier_entry_cases, Hs, Harr.
    destruct (Nat.eqb_spec (array_len arr) 0); [contradiction | reflexivity].
  - intros z x. unfold count_lt, count_gt. cbn [filter].
    rewrite !flt_irrefl. repeat split; reflexivity.
  - intros z x low high Hle. pose proof (fle_not_flt low high Hle) as Hhl.
    unfold count_lt, count_gt. cbn [filter].
    split; intros [E | E]; rewrite E, ?flt_irrefl, ?Hhl; split; reflexivity.
  - intros xs Hne Hall Hlen. cbv zeta. split.
    + destruct (np_quantile_small_ints xs (1 # 4) Hne Hall Hlen (or_introl eq_refl))
        as (q1 & E1 & H1).
      destruct (np_quantile_small_ints xs (3 # 4) Hne Hall Hlen (or_intror eq_refl))
        as (q3 & E3 & H3).
      exists q1, q3. auto.
    + intros bound. apply count_int_exact.
      rewrite Forall_forall in *. intros z Hz. specialize (Hall z Hz).
      simpl in Hall. lia.
  - cbv zeta. split; [reflexivity |]. split; [reflexivity |].
    vm_compute. reflexivity.
Qed.

(** An instance: a float column with one missing cell and the factor 1. *)
Lemma outlier_summary_matches_rule_witness :
  let s := mkSeries "x" (Float64Data [Finite 1; Finite 2; NaN; Finite 3;
                                      Finite 4; Finite 100]) in
  let df := mkFrame 6 [s] in
  let arr := FloatArray [Finite 1; Finite 2; Finite 3; Finite 4; Finite 100] in
  dict_get [("x", OutStats 5 (Finite 0) (Finite 6) 0 1)] "x"
  = Some (OutStats (Z.of_nat (array_len arr))
            (fsub (np_quantile arr (1 # 4))
               (fmul (Finite 1)
                  (fsub (np_quantile arr (3 # 4)) (np_quantile arr (1 # 4)))))
            (fadd (np_quantile arr (3 # 4))
               (fmul (Finite 1)
                  (fsub (np_quantile arr (3 # 4)) (np_quantile arr (1 # 4)))))
            (count_lt arr
               (fsub (np_quantile arr (1 # 4))
                  (fmul (Finite 1)
                     (fsub (np_quantile arr (3 # 4)) (np_quantile arr (1 # 4))))))
            (count_gt arr
               (fadd (np_quantile arr (3 # 4))
                  (fmul (Finite 1)
                     (fsub (np_quantile arr (3 # 4)) (np_quantile arr (1 # 4))))))).
Proof.
  cbv zeta.
  apply (proj1 (proj2 outlier_summary_matches_rule)
           (mkFrame 6 [mkSeries "x" (Float64Data [Finite 1; Finite 2; NaN; Finite 3;
                                                  Finite 4; Finite 100])])
           (Some ["x"]) (Finite 1)
           [("x", OutStats 5 (Finite 0) (Finite 6) 0 1)] "x"
           (mkSeries "x" (Float64Data [Finite 1; Finite 2; NaN; Finite 3;
                                       Finite 4; Finite 100]))
           (FloatArray [Finite 1; Finite 2; Finite 3; Finite 4; Finite 100])).
  - vm_compute. reflexivity.
  - simpl. auto.
  - reflexivity.
  - reflexivity.
  - discriminate.
Defined.

(** C5, the claim as written fails: in a column of integers beyond
    [2 ^ 53] the exact percentiles are [2 ^ 53 + 1], one value lies strictly
    below that and four values lie strictly above [2 ^ 53], but the detector
    reports both bounds as [2 ^ 53] and counts nothing on either side.  And
    under the factor -1 the column 10, 12, 12, 13, 200 has the bounds 13 and
    12: the value 13, which equals [low_bound], is one of the two values
    counted above. *)
Lemma outlier_rule_is_inexact_beyond_2_53 :
  let big := (2 ^ 53)%Z in
  let xs := [big; big + 1; big + 1; big + 1; big + 1]%Z in
  let ys := map inject_Z xs in
  run (outlier_summary None (Finite (3 # 2)))
      (mkFrame 5 [mkSeries "x" (Int64Data xs)])
  = Ok [("x", OutStats 5 (Finite (inject_Z big)) (Finite (inject_Z big)) 0 0)]
  /\ percentile_spec ys (1 # 4) == inject_Z (big + 1)
  /\ percentile_spec ys (3 # 4) == inject_Z (big + 1)
  /\ count_below_spec ys (inject_Z (big + 1)) = 1%Z
  /\ count_above_spec ys (inject_Z big) = 4%Z
  /\ run (outlier_summary None (Finite (- (1))))
         (mkFrame 5 [mkSeries "x" (Int64Data [10; 12; 12; 13; 200]%Z)])
     = Ok [("x", OutStats 5 (Finite 13) (Finite 12) 3 2)]
  /\ count_gt (IntArray [13%Z]) (Finite 12) = 1%Z.
Proof.
  cbv zeta. split; [vm_compute; reflexivity |].
  split; [reflexivity |]. split; [reflexivity |]. split; [reflexivity |].
  split; [reflexivity |]. split; [vm_compute; reflexivity | reflexivity].
Qed.

(** The entry of a regular array under a finite factor. *)
Lemma regular_stats (arr : ndarray) (f : Q) (n : Z) (low high : pyfloat)
  (b a : Z) :
  OutStats n low high b a = stats_of arr (Finite f) ->
  (low, high)
  = bounds_of (np_quantile arr (1 # 4)) (np_quantile arr (3 # 4)) (Finite f)
  /\ b = count_lt arr low /\ a = count_gt arr high
  /\ n = Z.of_nat (array_len arr).
Proof.
  unfold stats_of.
  destruct (bounds_of _ _ _) as [l h]. intros [= -> -> -> -> ->]. auto.
Qed.

(** C7, for values and factors without overflow.  Whenever the detector
    returns, with any selection of columns, take a column whose values are
    at most [2 ^ 50] integers of magnitude at most [2 ^ 53] or binary64
    numbers of magnitude at most [2 ^ 1022].  For a finite factor that is
    not negative its entry has [low_bound <= high_bound]; and for two finite
    factors [f1 <= f2] on the same Dataset and selection, its [below] and
    [above] counts under the smaller factor are at least its counts under
    the larger one. *)
Theorem outlier_bounds_ordered_and_counts_monotone :
  (forall (df : DataFrame) (sel : option (list string)) (factor : Q)
          (summary : dict OutlierEntry) (c : string) (s : Series)
          (arr : ndarray) (n : Z) (low high : pyfloat) (b a : Z),
      0 <= factor ->
      run (outlier_summary sel (Finite factor)) df = Ok summary ->
      dict_get summary c = Some (OutStats n low high b a) ->
      getitem df c = Ok s -> numeric_values s = Some arr ->
      regular_array arr = true ->
      fle low high = true)
  /\ (forall (df : DataFrame) (sel : option (list string)) (f1 f2 : Q)
             (s1 s2 : dict OutlierEntry) (c : string) (s : Series)
             (arr : ndarray)
             (n1 : Z) (low1 high1 : pyfloat) (b1 a1 : Z)
             (n2 : Z) (low2 high2 : pyfloat) (b2 a2 : Z),
         f1 <= f2 ->
         run (outlier_summary sel (Finite f1)) df = Ok s1 ->
         run (outlier_summary sel (Finite f2)) df = Ok s2 ->
         dict_get s1 c = Some (OutStats n1 low1 high1 b1 a1) ->
         dict_get s2 c = Some (OutStats n2 low2 high2 b2 a2) ->
         getitem df c = Ok s -> numeric_values s = Some arr ->
         regular_array arr = true ->
         (b2 <= b1)%Z /\ (a2 <= a1)%Z).
Proof.
  split.
  - intros df sel factor summary c s arr n low high b a Hf Hrun Hget Hs Harr Hreg.
    apply (outlier_summary_entry df sel (Finite factor) summary c Hrun) in Hget.
    destruct Hget as [_ He]. apply outlier_entry_stats in He.
    destruct He as (s' & arr' & Hs' & Harr' & Hlen & Heq & _).
    assert (arr' = arr) by congruence. subst arr'.
    apply regular_stats in Heq. destruct Heq as (Hb & _).
    pose proof (regular_bounds_ordered arr factor Hreg Hlen Hf) as H.
    rewrite <- Hb in H. exact H.
  - intros df sel f1 f2 s1 s2 c s arr n1 low1 high1 b1 a1 n2 low2 high2 b2 a2
      Hf Hrun1 Hrun2 Hget1 Hget2 Hs Harr Hreg.
    apply (outlier_summary_entry df sel (Finite f1) s1 c Hrun1) in Hget1.
    apply (outlier_summary_entry df sel (Finite f2) s2 c Hrun2) in Hget2.
    destruct Hget1 as [_ He1]. destruct Hget2 as [_ He2].
    apply outlier_entry_stats in He1.
    destruct He1 as (s' & arr' & Hs' & Harr' & Hlen & Heq1 & Hall).
    assert (arr' = arr) by congruence. subst arr'.
    rewrite (Hall (Finite f2)) in He2.
    assert (Heq2 : OutStats n2 low2 high2 b2 a2 = stats_of arr (Finite f2))
      by congruence.
    apply regular_stats in Heq1. destruct Heq1 as (Hb1 & -> & -> & _).
    apply regular_stats in Heq2. destruct Heq2 as (Hb2 & -> & -> & _).
    pose proof (regular_bounds_monotone arr f1 f2 Hreg Hlen Hf) as H.
    rewrite <- Hb1, <- Hb2 in H. destruct H as [Hl Hh].
    split; [now apply count_lt_mono | now apply count_gt_mono].
Qed.

(** An instance: the column 10, 12, 12, 13, 200 under the factors 0 and 3. *)
Lemma outlier_bounds_ordered_and_counts_monotone_witness :
  let df := mkFrame 5 [mkSeries "x" (Int64Data [10; 12; 12; 13; 200]%Z)] in
  run (outlier_summary None (Finite 0)) df
  = Ok [("x", OutStats 5 (Finite 12) (Finite 13) 1 1)]
  /\ run (outlier_summary None (Finite 3)) df
     = Ok [("x", OutStats 5 (Finite 9) (Finite 16) 0 1)]
  /\ fle (Finite 12) (Finite 13) = true
  /\ ((0 <= 1)%Z /\ (1 <= 1)%Z).
Proof.
  cbv zeta. split; [vm_compute; reflexivity |].
  split; [vm_compute; reflexivity |]. split.
  - apply (proj1 outlier_bounds_ordered_and_counts_monotone
             (mkFrame 5 [mkSeries "x" (Int64Data [10; 12; 12; 13; 200]%Z)])
             None 0
             [("x", OutStats 5 (Finite 12) (Finite 13) 1 1)]
             "x" (mkSeries "x" (Int64Data [10; 12; 12; 13; 200]%Z))
             (IntArray [10; 12; 12; 13; 200]%Z)
             5%Z (Finite 12) (Finite 13) 1%Z 1%Z).
    + lra.
    + vm_compute. reflexivity.
    + reflexivity.
    + reflexivity.
    + reflexivity.
    + reflexivity.
  - apply (proj2 outlier_bounds_ordered_and_counts_monotone
             (mkFrame 5 [mkSeries "x" (Int64Data [10; 12; 12; 13; 200]%Z)])
             None 0 3
             [("x", OutStats 5 (Finite 12) (Finite 13) 1 1)]
             [("x", OutStats 5 (Finite 9) (Finite 16) 0 1)]
             "x" (mkSeries "x" (Int64Data [10; 12; 12; 13; 200]%Z))
             (IntArray [10; 12; 12; 13; 200]%Z)
             5%Z (Finite 12) (Finite 13) 1%Z 1%Z
             5%Z (Finite 9) (Finite 16) 0%Z 1%Z).
    + lra.
    + vm_compute. reflexivity.
    + vm_compute. reflexivity.
    + reflexivity.
    + reflexivity.
    + reflexivity.
    + reflexivity.
    + reflexivity.
Defined.

(** C7, the claim as written fails.  For the two binary64 numbers
    [-1e308] and [1e308] and the factor 1.5, the difference of the two
    values overflows, the quartiles come out as the infinities, and the
    detector reports the lower bound [inf] and the upper bound [-inf], with
    both values counted on both sides; under the smaller factor 0 the bounds
    are [nan] and nothing is counted, so the counts shrink with the factor.
    For a column that holds [inf] twice, both bounds are [nan].  In either
    case [low_bound <= high_bound] is false. *)
Lemma outlier_bounds_unordered_on_overflow :
  let big := float_of_int (10 ^ 308) in
  is_b64 big = true
  /\ run (outlier_summary None (Finite (3 # 2)))
         (mkFrame 2 [mkSeries "x" (Float64Data [Finite (- big); Finite big])])
     = Ok [("x", OutStats 2 (Inf false) (Inf true) 2 2)]
  /\ fle (Inf false) (Inf true) = false
  /\ run (outlier_summary None (Finite 0))
         (mkFrame 2 [mkSeries "x" (Float64Data [Finite (- big); Finite big])])
     = Ok [("x", OutStats 2 NaN NaN 0 0)]
  /\ run (outlier_summary None (Finite (3 # 2)))
         (mkFrame 2 [mkSeries "x" (Float64Data [Inf false; Inf false])])
     = Ok [("x", OutStats 2 NaN NaN 0 0)]
  /\ fle NaN NaN = false.
Proof.
  cbv zeta. split; [vm_compute; reflexivity |].
  split; [vm_compute; reflexivity |]. split; [reflexivity |].
  split; [vm_compute; reflexivity |].
  split; [vm_compute; reflexivity | reflexivity].
Qed.

(** C10.  When the caller's list of columns names a label that is not a
    column of the Dataset, the detector raises and returns no summary: no
    entry is written for the unknown label and no label is skipped. *)
Theorem outlier_summary_unknown_column_raises :
  forall (df : DataFrame) (numeric_cols : list string) (factor : pyfloat)
         (c : string),
    In c numeric_cols -> has_column df c = false ->
    (exists e, run (outlier_summary (Some numeric_cols) factor) df = Raise e)
    /\ forall summary, run (outlier_summary (Some numeric_cols) factor) df <> Ok summary.
Proof.
  intros df numeric_cols factor c Hin Hc.
  assert (H : exists e, run (outlier_summary (Some numeric_cols) factor) df = Raise e).
  { rewrite run_outlier_summary. simpl.
    apply (store_loop_fails _ _ _ c (KeyError c)); [assumption |].
    rewrite outlier_entry_cases, (has_column_false_getitem df c Hc). reflexivity. }
  split; [assumption |].
  destruct H as [e He]. intros summary. rewrite He. discriminate.
Qed.

(** An instance: the caller's list names [zz], which is not a column. *)
Lemma outlier_summary_unknown_column_raises_witness :
  (exists e,
      run (outlier_summary (Some ["x"; "zz"]) (Finite (3 # 2)))
          (mkFrame 2 [mkSeries "x" (Int64Data [1; 2]%Z)]) = Raise e)
  /\ forall summary,
       run (outlier_summary (Some ["x"; "zz"]) (Finite (3 # 2)))
           (mkFrame 2 [mkSeries "x" (Int64Data [1; 2]%Z)]) <> Ok summary.
Proof.
  apply (outlier_summary_unknown_column_raises
           (mkFrame 2 [mkSeries "x" (Int64Data [1; 2]%Z)]) ["x"; "zz"]
           (Finite (3 # 2)) "zz").
  - simpl. auto.
  - reflexivity.
Defined.

(** ** Instances of the lemmas that carry hypotheses *)



(** * Further properties of the analyzers *)

(** ** Equality of cells and rows *)

Lemma py_eqb_trans (u v w : pyobj) :
  py_eqb u v = true -> py_eqb v w = true -> py_eqb u w = true.
Proof.
  unfold py_eqb. intros H1 H2.
  destruct (as_number u) as [a |] eqn:Hu, (as_number v) as [b |] eqn:Hv;
    try discriminate.
  - destruct (as_number w) as [c |] eqn:Hw; [| discriminate].
    rewrite Qeq_bool_iff in *. now rewrite H1.
  - destruct (as_number w) as [c |] eqn:Hw; [discriminate |].
    destruct u, v; try discriminate; destruct w; try discriminate.
    + repeat match goal with b : bool |- _ => destruct b end;
        simpl in *; congruence.
    + rewrite String.eqb_eq in *. congruence.
    + rewrite String.eqb_eq in *. congruence.
Qed.

Lemma cell_eqb_trans (a b c : cell) :
  cell_eqb a b = true -> cell_eqb b c = true -> cell_eqb a c = true.
Proof.
  destruct a as [u |], b as [v |], c as [w |]; simpl; try discriminate; auto.
  apply py_eqb_trans.
Qed.

Lemma row_eqb_trans (r1 r2 r3 : list cell) :
  row_eqb r1 r2 = true -> row_eqb r2 r3 = true -> row_eqb r1 r3 = true.
Proof.
  revert r2 r3. induction r1 as [| a r1 IH]; intros [| b r2] [| c r3];
    simpl; try discriminate; auto.
  rewrite !andb_true_iff. intros [Hab H12] [Hbc H23]. split.
  - eapply cell_eqb_trans; eauto.
  - eapply IH; eauto.
Qed.

(** ** Duplicate detector: the mask *)

Lemma mark_duplicates_length (rows seen : list (list cell)) :
  length (mark_duplicates rows seen) = length rows.
Proof.
  revert seen. induction rows as [| r rows IH]; intros seen; simpl.
  - reflexivity.
  - destruct (existsb (row_eqb r) seen); simpl; now rewrite IH.
Qed.

(** A row is marked exactly when it equals a row already seen or an earlier
    row of the list. *)
Lemma mark_duplicates_spec (rows seen : list (list cell)) (i : nat) :
  (i < length rows)%nat ->
  nth i (mark_duplicates rows seen) false = true <->
  exists r', (In r' seen \/ exists j, (j < i)%nat /\ r' = nth j rows [])
             /\ row_eqb (nth i rows []) r' = true.
Proof.
  revert seen i. induction rows as [| r rows IH]; intros seen i Hi.
  - simpl in Hi. lia.
  - simpl mark_duplicates.
    destruct (existsb (row_eqb r) seen) eqn:Hex.
    + apply existsb_exists in Hex. destruct Hex as [s0 [Hs0 Hrs0]].
      destruct i as [| i]; simpl.
      * split; [| reflexivity]. intros _. exists s0. auto.
      * simpl in Hi. rewrite IH by lia. split.
        -- intros [r' [[Hin | [j [Hj ->]]] He]].
           ++ exists r'. auto.
           ++ exists (nth j rows []). split; [| assumption].
              right. exists (S j). split; [lia | reflexivity].
        -- intros [r' [[Hin | [j [Hj ->]]] He]].
           ++ exists r'. auto.
           ++ destruct j as [| j]; simpl in He.
              ** exists s0. split; [now left |].
                 eapply row_eqb_trans; eauto.
              ** exists (nth j rows []). split; [| assumption].
                 right. exists j. split; [lia | reflexivity].
    + destruct i as [| i]; simpl.
      * split; [discriminate |].
        intros [r' [[Hin | [j [Hj _]]] He]]; [| lia].
        assert (Ht : existsb (row_eqb r) seen = true).
        { apply existsb_exists. exists r'. auto. }
        congruence.
      * simpl in Hi. rewrite IH by lia. split.
        -- intros [r' [[[<- | Hin] | [j [Hj ->]]] He]].
           ++ exists r. split; [| assumption].
              right. exists 0%nat. split; [lia | reflexivity].
           ++ exists r'. auto.
           ++ exists (nth j rows []). split; [| assumption].
              right. exists (S j). split; [lia | reflexivity].
        -- intros [r' [[Hin | [j [Hj ->]]] He]].
           ++ exists r'. split; [left; now right | assumption].
           ++ destruct j as [| j]; simpl in He.
              ** exists r. split; [left; now left | assumption].
              ** exists (nth j rows []). split; [| assumption].
                 right. exists j. split; [lia | reflexivity].
Qed.

(** The first row is never marked, so at most all rows but one are. *)
Lemma mark_duplicates_count (rows : list (list cell)) :
  (length (filter (fun b : bool => b) (mark_duplicates rows []))
   <= length rows - 1)%nat.
Proof.
  destruct rows as [| r rows]; simpl; [lia |].
  pose proof (filter_length_le (fun b : bool => b) (mark_duplicates rows [r])) as H.
  rewrite mark_duplicates_length in H. lia.
Qed.

Lemma mask_positions_length (mask : list bool) (i : nat) :
  length (mask_positions mask i) = length (filter (fun b : bool => b) mask).
Proof.
  revert i. induction mask as [| b mask IH]; intros i; simpl.
  - reflexivity.
  - destruct b; simpl; now rewrite IH.
Qed.

Lemma compared_all_columns (df : DataFrame) :
  filter (fun s => existsb (String.eqb (name s)) (column_names df)) (columns df)
  = columns df.
Proof.
  unfold column_names.
  assert (H : forall l l' : list Series,
             (forall s, In s l -> In s l') ->
             filter (fun s => existsb (String.eqb (name s)) (map name l')) l = l).
  { induction l as [| s l IH]; intros l' Hsub; simpl; [reflexivity |].
    assert (Hs : existsb (String.eqb (name s)) (map name l') = true).
    { apply existsb_exists. exists (name s). split; [| apply String.eqb_refl].
      apply in_map. apply Hsub. now left. }
    rewrite Hs. f_equal. apply IH. intros s' Hs'. apply Hsub. now right. }
  apply H. auto.
Qed.

Lemma all_labels_are_columns (df : DataFrame) :
  find (fun c => negb (has_column df c)) (column_names df) = None.
Proof.
  destruct (find _ (column_names df)) as [c |] eqn:Hfind; [| reflexivity].
  apply find_some in Hfind. destruct Hfind as [Hin Hc].
  apply negb_true_iff in Hc. exfalso.
  apply Bool.not_true_iff_false in Hc. apply Hc.
  unfold has_column. apply existsb_exists. exists c.
  split; [assumption | apply String.eqb_refl].
Qed.

(** The mask of a frame is empty or has one entry per row. *)
Lemma duplicated_mask_length (df : DataFrame) (subset : option (list string))
  (mask : list bool) :
  duplicated df subset = Ok mask ->
  (mask = [] \/ length mask = index_len df)
  /\ (length (filter (fun b : bool => b) mask) <= index_len df - 1)%nat.
Proof.
  unfold duplicated. destruct (empty df).
  - intros [= <-]. simpl. split; [now left | lia].
  - destruct (find _ _); [discriminate |].
    destruct (filter _ (columns df)) as [| s0 compared]; [discriminate |].
    destruct (orb _ _); [| discriminate].
    intros [= <-]. split.
    + right. now rewrite mark_duplicates_length, length_map, length_seq.
    + pose proof (mark_duplicates_count
                    (map (row_at (s0 :: compared)) (seq 0 (index_len df)))) as H.
      now rewrite length_map, length_seq in H.
Qed.

Lemma mask_positions_in (mask : list bool) (k i : nat) :
  In i (mask_positions mask k) <->
  (k <= i)%nat /\ nth (i - k) mask false = true.
Proof.
  revert k. induction mask as [| b mask IH]; intros k; simpl.
  - split; [tauto |]. intros [_ H]. destruct (i - k)%nat; discriminate.
  - destruct b; simpl; rewrite ?IH.
    + split.
      * intros [<- | [Hk Hn]].
        -- split; [lia |]. now rewrite Nat.sub_diag.
        -- split; [lia |]. replace (i - k)%nat with (S (i - S k)) by lia. assumption.
      * intros [Hk Hn]. destruct (i - k)%nat as [| m] eqn:E.
        -- left. lia.
        -- right. split; [lia |]. replace (i - S k)%nat with m by lia. assumption.
    + split.
      * intros [Hk Hn]. split; [lia |].
        replace (i - k)%nat with (S (i - S k)) by lia. assumption.
      * intros [Hk Hn]. destruct (i - k)%nat as [| m] eqn:E; [discriminate |].
        split; [lia |]. replace (i - S k)%nat with m by lia. assumption.
Qed.

Lemma mask_positions_sorted (mask : list bool) (k : nat) :
  StronglySorted lt (mask_positions mask k).
Proof.
  revert k. induction mask as [| b mask IH]; intros k; simpl.
  - constructor.
  - destruct b; [| apply IH]. constructor; [apply IH |].
    apply Forall_forall. intros i Hi. apply mask_positions_in in Hi. lia.
Qed.

Lemma run_duplicates_sample (subset : option (list string)) (df : DataFrame)
  (rep : DuplicateReport) :
  run (duplicates subset) df = Ok rep ->
  exists mask,
    duplicated df subset = Ok mask
    /\ duplicate_count rep = mask_sum mask
    /\ sample_rows rep = to_dict_records df (firstn 5 (mask_positions mask 0)).
Proof.
  rewrite run_duplicates. destruct (duplicated df subset) as [mask | e]; [| discriminate].
  intros [= <-]. exists mask. simpl. repeat split.
  destruct (Z.eqb_spec (mask_sum mask) 0) as [E | E]; [| reflexivity].
  unfold mask_sum in E.
  assert (Hl : length (mask_positions mask 0) = 0%nat).
  { rewrite mask_positions_length. lia. }
  destruct (mask_positions mask 0); [reflexivity | discriminate].
Qed.

(** Whenever the detector returns, the number of duplicates is at most the
    number of rows less one, so it is zero for a Dataset with at most one
    row. *)
Theorem duplicate_count_bounds :
  forall (df : DataFrame) (subset : option (list string)) (rep : DuplicateReport),
    run (duplicates subset) df = Ok rep ->
    (0 <= duplicate_count rep <= Z.max 0 (len df - 1))%Z
    /\ ((len df <= 1)%Z -> duplicate_count rep = 0%Z).
Proof.
  intros df subset rep Hrun.
  destruct (run_duplicates_sample subset df rep Hrun) as [mask [Hmask [Hcount _]]].
  apply duplicated_mask_length in Hmask. destruct Hmask as [_ Hle].
  rewrite Hcount. unfold mask_sum, len. split; lia.
Qed.

(** An instance: four rows, of which the second repeats the first. *)
Lemma duplicate_count_bounds_witness :
  let df := mkFrame 4 [mkSeries "id" (Int64Data [1; 1; 2; 3]%Z);
                       mkSeries "name"
                         (ObjectData [Some (PStr "a"); Some (PStr "a");
                                      Some (PStr "b"); Some (PStr "c")])] in
  (0 <= 1 <= Z.max 0 (len df - 1))%Z /\ ((len df <= 1)%Z -> 1 = 0)%Z.
Proof.
  cbv zeta.
  apply (duplicate_count_bounds
           (mkFrame 4 [mkSeries "id" (Int64Data [1; 1; 2; 3]%Z);
                       mkSeries "name"
                         (ObjectData [Some (PStr "a"); Some (PStr "a");
                                      Some (PStr "b"); Some (PStr "c")])])
           None
           (mkDuplicateReport 1 [[("id", Some (PInt 1)); ("name", Some (PStr "a"))]])).
  reflexivity.
Defined.

(** Whenever the detector returns, it samples as many rows as there are
    duplicates, up to five. *)
Theorem sample_rows_length :
  forall (df : DataFrame) (subset : option (list string)) (rep : DuplicateReport),
    run (duplicates subset) df = Ok rep ->
    Z.of_nat (length (sample_rows rep)) = Z.min (duplicate_count rep) 5.
Proof.
  intros df subset rep Hrun.
  destruct (run_duplicates_sample subset df rep Hrun) as [mask [_ [Hcount Hsample]]].
  rewrite Hsample, Hcount. unfold to_dict_records, mask_sum.
  rewrite length_map, length_firstn, mask_positions_length. lia.
Qed.

(** An instance: seven equal rows give six duplicates and five samples. *)
Lemma sample_rows_length_witness :
  Z.of_nat (length (repeat [("x", Some (PInt 1))] 5)) = Z.min 6 5.
Proof.
  apply (sample_rows_length
           (mkFrame 7 [mkSeries "x" (Int64Data [1; 1; 1; 1; 1; 1; 1]%Z)])
           None
           (mkDuplicateReport 6 (repeat [("x", Some (PInt 1))] 5))).
  reflexivity.
Defined.

(** On a Dataset with at least one row and one column, comparing all
    columns: the detector marks exactly the rows that equal an earlier row
    in every column (two missing cells being equal), counts them, and
    samples the first five of them in index order. *)
Theorem duplicates_marks_repeated_rows :
  forall (df : DataFrame) (rep : DuplicateReport),
    empty df = false ->
    run (duplicates None) df = Ok rep ->
    exists mask,
      length mask = index_len df
      /\ (forall i, (i < index_len df)%nat ->
            nth i mask false = true <->
            exists j, (j < i)%nat
                      /\ row_eqb (row_at (columns df) i) (row_at (columns df) j) = true)
      /\ duplicate_count rep = mask_sum mask
      /\ (forall i, In i (mask_positions mask 0) <-> nth i mask false = true)
      /\ StronglySorted lt (mask_positions mask 0)
      /\ sample_rows rep = to_dict_records df (firstn 5 (mask_positions mask 0)).
Proof.
  intros df rep Hne Hrun.
  destruct (run_duplicates_sample None df rep Hrun) as [mask [Hmask [Hcount Hsample]]].
  exists mask. unfold duplicated in Hmask. rewrite Hne in Hmask.
  rewrite all_labels_are_columns, compared_all_columns in Hmask.
  destruct (columns df) as [| s0 cols] eqn:Hcols; [discriminate |].
  destruct (orb _ _); [| discriminate].
  injection Hmask as <-.
  set (rows := map (row_at (s0 :: cols)) (seq 0 (index_len df))) in *.
  assert (Hlen : length rows = index_len df).
  { unfold rows. now rewrite length_map, length_seq. }
  assert (Hnth : forall i, (i < index_len df)%nat ->
                           nth i rows [] = row_at (s0 :: cols) i).
  { intros i Hi. unfold rows.
    rewrite (nth_indep _ [] (row_at (s0 :: cols) 0%nat))
      by now rewrite length_map, length_seq.
    rewrite (map_nth (row_at (s0 :: cols))). now rewrite seq_nth. }
  split; [now rewrite mark_duplicates_length |]. split.
  - intros i Hi. rewrite mark_duplicates_spec by lia. split.
    + intros [r' [[[] | [j [Hj ->]]] He]]. exists j. split; [assumption |].
      now rewrite <- !Hnth by lia.
    + intros [j [Hj He]]. exists (nth j rows []). split.
      * right. exists j. auto.
      * now rewrite !Hnth by lia.
  - split; [assumption |]. split; [| split; [apply mask_positions_sorted | assumption]].
    intros i. rewrite mask_positions_in, Nat.sub_0_r.
    split; [tauto | intros H; split; [lia | assumption]].
Qed.

(** An instance: the Dataset of ids 1, 1, 2, 3 and names a, a, b, c. *)
Lemma duplicates_marks_repeated_rows_witness :
  let df := mkFrame 4 [mkSeries "id" (Int64Data [1; 1; 2; 3]%Z);
                       mkSeries "name"
                         (ObjectData [Some (PStr "a"); Some (PStr "a");
                                      Some (PStr "b"); Some (PStr "c")])] in
  exists mask,
    length mask = 4%nat
    /\ (forall i, (i < 4)%nat ->
          nth i mask false = true <->
          exists j, (j < i)%nat
                    /\ row_eqb (row_at (columns df) i) (row_at (columns df) j) = true)
    /\ 1%Z = mask_sum mask
    /\ (forall i, In i (mask_positions mask 0) <-> nth i mask false = true)
    /\ StronglySorted lt (mask_positions mask 0)
    /\ [[("id", Some (PInt 1)); ("name", Some (PStr "a"))]]
       = to_dict_records df (firstn 5 (mask_positions mask 0)).
Proof.
  cbv zeta.
  apply (duplicates_marks_repeated_rows
           (mkFrame 4 [mkSeries "id" (Int64Data [1; 1; 2; 3]%Z);
                       mkSeries "name"
                         (ObjectData [Some (PStr "a"); Some (PStr "a");
                                      Some (PStr "b"); Some (PStr "c")])])
           (mkDuplicateReport 1 [[("id", Some (PInt 1)); ("name", Some (PStr "a"))]])).
  - reflexivity.
  - reflexivity.
Defined.

(** ** Distinct cells *)

Lemma distinct_incl (l seen : list cell) (c : cell) :
  In c (distinct l seen) -> In c l.
Proof.
  revert seen. induction l as [| x l IH]; intros seen; simpl; [tauto |].
  destruct (existsb (cell_eqb x) seen).
  - intros H. right. eauto.
  - intros [-> | H]; [now left | right; eauto].
Qed.

Lemma distinct_not_seen (l seen : list cell) (c s : cell) :
  In c (distinct l seen) -> In s seen -> cell_eqb c s = false.
Proof.
  revert seen. induction l as [| x l IH]; intros seen; simpl; [tauto |].
  destruct (existsb (cell_eqb x) seen) eqn:Hex.
  - apply IH.
  - intros [<- | H] Hs.
    + apply Bool.not_true_iff_false. intros He.
      assert (Ht : existsb (cell_eqb x) seen = true).
      { apply existsb_exists. exists s. auto. }
      congruence.
    + apply (IH (x :: seen)); [assumption | now right].
Qed.

(** No cell of the result equals an earlier one. *)
Lemma distinct_pairwise (l seen : list cell) :
  ForallOrdPairs (fun a b => cell_eqb b a = false) (distinct l seen).
Proof.
  revert seen. induction l as [| x l IH]; intros seen; simpl.
  - constructor.
  - destruct (existsb (cell_eqb x) seen); [apply IH |].
    constructor; [| apply IH].
    apply Forall_forall. intros c Hc.
    apply (distinct_not_seen l (x :: seen)); [assumption | now left].
Qed.

Lemma distinct_length_le (l seen : list cell) :
  (length (distinct l seen) <= length l)%nat.
Proof.
  revert seen. induction l as [| x l IH]; intros seen; simpl; [lia |].
  destruct (existsb (cell_eqb x) seen); simpl.
  - specialize (IH seen). lia.
  - specialize (IH (x :: seen)). lia.
Qed.

Lemma firstn_incl {A} (n : nat) (l : list A) (x : A) :
  In x (firstn n l) -> In x l.
Proof.
  revert n. induction l as [| a l IH]; intros [| n]; simpl; try tauto.
  intros [-> | H]; [now left | right; eauto].
Qed.

Lemma ForallOrdPairs_firstn {A} (R : A -> A -> Prop) (n : nat) (l : list A) :
  ForallOrdPairs R l -> ForallOrdPairs R (firstn n l).
Proof.
  intros H. revert n. induction H as [| a l Ha Hl IH]; intros n.
  - rewrite firstn_nil. constructor.
  - destruct n as [| n]; simpl; [constructor |].
    constructor; [| apply IH].
    apply Forall_forall. intros x Hx. rewrite Forall_forall in Ha.
    apply Ha. eapply firstn_incl; eauto.
Qed.

(** ** Missing cells *)

Lemma dropna_cells (s : Series) :
  cells (dropna s)
  = filter (fun c : cell => match c with None => false | _ => true end) (cells s).
Proof.
  unfold cells, dropna. destruct (data s) as [zs | qs | bs | os]; simpl.
  - induction zs as [| z zs IH]; simpl; [reflexivity |].
    apply (f_equal (cons _)). exact IH.
  - induction qs as [| c qs IH]; simpl; [reflexivity |].
    destruct c as [q | | b]; simpl;
      [apply (f_equal (cons _)) | | apply (f_equal (cons _))]; exact IH.
  - induction bs as [| b bs IH]; simpl; [reflexivity |].
    apply (f_equal (cons _)). exact IH.
  - reflexivity.
Qed.

Lemma filter_split_length {A} (f : A -> bool) (l : list A) :
  (length (filter f l) + length (filter (fun x => negb (f x)) l) = length l)%nat.
Proof.
  induction l as [| x l IH]; simpl; [reflexivity |].
  destruct (f x); simpl; lia.
Qed.

(** Missing and present cells add up to the column. *)
Lemma dropna_length (s : Series) :
  (isna_sum s + Z.of_nat (series_len (dropna s)) = Z.of_nat (length (cells s)))%Z.
Proof.
  unfold isna_sum, series_len. rewrite dropna_cells.
  pose proof (filter_split_length
                (fun c : cell => match c with None => true | _ => false end)
                (cells s)) as H.
  rewrite (filter_ext (fun c : cell => match c with None => false | _ => true end)
             (fun c : cell => negb match c with None => true | _ => false end)).
  - lia.
  - intros [v |]; reflexivity.
Qed.

(** ** Loops that may raise: reading an entry back *)

Lemma store_loop_get {V} (g : string -> result V) (l : list string)
  (d : dict V) (c : string) (v : V) :
  fold_result l (store_step g) [] = Ok d ->
  dict_get d c = Some v <-> In c l /\ g c = Ok v.
Proof.
  intros H. apply store_loop_ok in H. destruct H as (Hin & Hout & _). split.
  - intros Hget.
    assert (Hc : In c l).
    { destruct (in_dec string_dec c l) as [Hc | Hc]; [assumption |].
      rewrite (Hout c Hc) in Hget. discriminate. }
    split; [assumption |].
    destruct (Hin c Hc) as [v' [Hv Hget']]. congruence.
  - intros [Hc Hv]. destruct (Hin c Hc) as [v' [Hv' Hget']]. congruence.
Qed.

(** ** Schema inferencer: the descriptors *)

Lemma schema_entry_ok (df : DataFrame) (k : Z) (c : string) (e : ColumnSchema) :
  schema_entry df k c = Ok e ->
  exists s values,
    getitem df c = Ok s
    /\ unique (dropna s) = Ok values
    /\ values = distinct (cells (dropna s)) []
    /\ schema_dtype e = dtype_str (series_dtype s)
    /\ schema_null_count e = isna_sum s
    /\ schema_null_pct e
       = py_round (if (len df =? 0)%Z then 0
                   else b64v (float_of_int (isna_sum s) / float_of_int (len df))) 4
    /\ schema_unique e = Z.of_nat (length values)
    /\ schema_sample_values e = slice_to k values.
Proof.
  unfold schema_entry. destruct (getitem df c) as [s | x]; [| discriminate].
  intros H. exists s.
  assert (Hu : exists values, unique (dropna s) = Ok values).
  { unfold nunique in H. destruct (unique (dropna s)) as [values | x]; [eauto |].
    destruct (len df =? 0)%Z; [discriminate |].
    destruct (py_truediv _ _); discriminate. }
  destruct Hu as [values Hu]. exists values.
  split; [reflexivity |]. split; [assumption |].
  split.
  { unfold unique in Hu. destruct (all_hashable _); congruence. }
  unfold nunique in H. rewrite Hu in H.
  destruct (Z.eqb_spec (len df) 0) as [E | E].
  - inversion H; subst; simpl. repeat split.
  - unfold py_truediv in H.
    destruct (Z.eqb_spec (len df) 0) as [E' | _]; [contradiction |].
    inversion H; subst; simpl. repeat split.
Qed.

Lemma py_round_4_unit (x : Q) : 0 <= x <= 1 -> 0 <= py_round x 4 <= 1.
Proof.
  intros [H0 H1]. unfold py_round.
  change (inject_Z (10 ^ Z.of_nat 4)) with (10000 # 1).
  pose proof (round_half_even_close (x * (10000 # 1))) as H.
  set (z := round_half_even (x * (10000 # 1))) in *.
  assert (Hz : (0 <= z <= 10000)%Z).
  { split.
    - assert (Hlt : inject_Z (-1) < inject_Z z).
      { change (inject_Z (-1)) with (- (1)). lra. }
      rewrite <- Zlt_Qlt in Hlt. lia.
    - assert (Hlt : inject_Z z < inject_Z 10001).
      { change (inject_Z 10001) with (10001 # 1). lra. }
      rewrite <- Zlt_Qlt in Hlt. lia. }
  assert (Hq0 : inject_Z 0 <= inject_Z z) by (rewrite <- Zle_Qle; lia).
  assert (Hq1 : inject_Z z <= inject_Z 10000) by (rewrite <- Zle_Qle; lia).
  change (inject_Z 0) with 0 in Hq0. change (inject_Z 10000) with (10000 # 1) in Hq1.
  unfold Qdiv. change (/ (10000 # 1)) with (1 # 10000). split; lra.
Qed.

(** On a well-formed Dataset, whenever the inferencer returns: the schema
    has one descriptor per column and no other; in every descriptor the
    count of missing cells is between 0 and the number of rows, the reported
    ratio is between 0 and 1, and the number of distinct values is at most
    the number of cells that are not missing. *)
Theorem infer_schema_descriptor_bounds :
  forall (df : DataFrame) (k : Z) (schema : dict ColumnSchema),
    wf_frame df = true ->
    run (infer_schema k) df = Ok schema ->
    (forall c, In c (dict_keys schema) <-> In c (column_names df))
    /\ forall c e,
         dict_get schema c = Some e ->
         (0 <= schema_null_count e <= len df)%Z
         /\ 0 <= schema_null_pct e <= 1
         /\ (0 <= schema_unique e <= len df - schema_null_count e)%Z.
Proof.
  intros df k schema Hwf Hrun. rewrite run_infer_schema in Hrun. split.
  - intros c. pose proof (store_loop_ok _ _ _ _ Hrun) as (_ & _ & Hkeys).
    rewrite Hkeys. simpl. tauto.
  - intros c e Hget.
    apply (store_loop_get _ _ _ c e Hrun) in Hget. destruct Hget as [_ He].
    apply schema_entry_ok in He.
    destruct He as (s & values & Hs & _ & Hvalues & _ & Hnulls & Hpct & Huniq & _).
    apply getitem_ok_in in Hs. destruct Hs as [Hin _].
    pose proof (isna_sum_bounds s) as Hb.
    pose proof (dropna_length s) as Hd.
    rewrite (wf_frame_lengths df s Hwf Hin) in Hb, Hd. fold (len df) in Hb, Hd.
    assert (Hu : (length values <= series_len (dropna s))%nat).
    { rewrite Hvalues. apply distinct_length_le. }
    assert (Hratio : 0 <= (if (len df =? 0)%Z then 0
                           else b64v (float_of_int (isna_sum s)
                                      / float_of_int (len df))) <= 1).
    { destruct (Z.eqb_spec (len df) 0) as [E | E]; [split; lra |].
      apply float_quotient_unit; lia. }
    rewrite Hnulls, Hpct, Huniq.
    split; [lia |]. split; [now apply py_round_4_unit | lia].
Qed.

(** An instance: three rows with one missing cell. *)
Lemma infer_schema_descriptor_bounds_witness :
  let df := mkFrame 3 [mkSeries "x" (Float64Data [NaN; Finite 1; Finite (5 # 2)])] in
  (forall c, In c ["x"] <-> In c (column_names df))
  /\ forall c e,
       dict_get [("x", mkColumnSchema "float64" 1 (py_round (b64v (float_of_int 1 / float_of_int 3)) 4) 2
                         [Some (PFloat 1); Some (PFloat (5 # 2))])] c = Some e ->
       (0 <= schema_null_count e <= len df)%Z
       /\ 0 <= schema_null_pct e <= 1
       /\ (0 <= schema_unique e <= len df - schema_null_count e)%Z.
Proof.
  cbv zeta.
  apply (infer_schema_descriptor_bounds
           (mkFrame 3 [mkSeries "x" (Float64Data [NaN; Finite 1; Finite (5 # 2)])]) 5
           [("x", mkColumnSchema "float64" 1 (py_round (b64v (float_of_int 1 / float_of_int 3)) 4) 2
                    [Some (PFloat 1); Some (PFloat (5 # 2))])]).
  - reflexivity.
  - reflexivity.
Defined.

(** For a sample size that is not negative, whenever the inferencer
    returns: the sample of a column has as many values as the sample size
    allows and the column has distinct values; every sampled value is a cell
    of the column that is not missing; and no sampled value equals an
    earlier one. *)
Theorem infer_schema_sample_values :
  forall (df : DataFrame) (k : Z) (schema : dict ColumnSchema)
         (c : string) (e : ColumnSchema) (s : Series),
    (0 <= k)%Z ->
    run (infer_schema k) df = Ok schema ->
    dict_get schema c = Some e ->
    getitem df c = Ok s ->
    Z.of_nat (length (schema_sample_values e)) = Z.min k (schema_unique e)
    /\ Forall (fun v : cell => v <> None /\ In v (cells s)) (schema_sample_values e)
    /\ ForallOrdPairs (fun a b => cell_eqb b a = false) (schema_sample_values e).
Proof.
  intros df k schema c e s Hk Hrun Hget Hs. rewrite run_infer_schema in Hrun.
  apply (store_loop_get _ _ _ c e Hrun) in Hget. destruct Hget as [_ He].
  apply schema_entry_ok in He.
  destruct He as (s' & values & Hs' & _ & Hvalues & _ & _ & _ & Huniq & Hsample).
  assert (s' = s) by congruence. subst s'.
  rewrite Hsample, Huniq. unfold slice_to.
  destruct (Z.leb_spec 0 k) as [_ | Hneg]; [| lia].
  split; [rewrite length_firstn; lia |]. split.
  - apply Forall_forall. intros v Hv. apply firstn_incl in Hv.
    rewrite Hvalues in Hv. apply distinct_incl in Hv.
    rewrite dropna_cells in Hv. apply filter_In in Hv.
    destruct Hv as [Hin Hnn]. split; [| assumption].
    intros ->. discriminate.
  - apply ForallOrdPairs_firstn. rewrite Hvalues. apply distinct_pairwise.
Qed.

(** An instance: the sample of size 2 of the column 3, missing, 3, 1, 2. *)
Lemma infer_schema_sample_values_witness :
  let s := mkSeries "x" (Float64Data [Finite 3; NaN; Finite 3; Finite 1; Finite 2]) in
  Z.of_nat (length [Some (PFloat 3); Some (PFloat 1)]) = Z.min 2 3
  /\ Forall (fun v : cell => v <> None /\ In v (cells s))
            [Some (PFloat 3); Some (PFloat 1)]
  /\ ForallOrdPairs (fun a b => cell_eqb b a = false)
                    [Some (PFloat 3); Some (PFloat 1)].
Proof.
  cbv zeta.
  apply (infer_schema_sample_values
           (mkFrame 5 [mkSeries "x" (Float64Data [Finite 3; NaN; Finite 3; Finite 1; Finite 2])])
           2
           [("x", mkColumnSchema "float64" 1 (py_round (1 / 5) 4) 3
                    [Some (PFloat 3); Some (PFloat 1)])]
           "x"
           (mkColumnSchema "float64" 1 (py_round (1 / 5) 4) 3
              [Some (PFloat 3); Some (PFloat 1)])
           (mkSeries "x" (Float64Data [Finite 3; NaN; Finite 3; Finite 1; Finite 2]))).
  - lia.
  - reflexivity.
  - reflexivity.
  - reflexivity.
Defined.

(** ** Cells as hash keys *)

Lemma py_eqb_sym (v w : pyobj) : py_eqb v w = py_eqb w v.
Proof.
  unfold py_eqb.
  destruct (as_number v) as [a |] eqn:Hv, (as_number w) as [b |] eqn:Hw;
    try reflexivity.
  - destruct (Qeq_bool a b) eqn:E1, (Qeq_bool b a) eqn:E2; try reflexivity.
    + apply Qeq_bool_iff in E1. symmetry in E1. apply Qeq_bool_iff in E1. congruence.
    + apply Qeq_bool_iff in E2. symmetry in E2. apply Qeq_bool_iff in E2. congruence.
  - destruct v, w; try reflexivity.
    + repeat match goal with b : bool |- _ => destruct b end; reflexivity.
    + apply String.eqb_sym.
    + apply String.eqb_sym.
Qed.

Lemma cell_eqb_sym (a b : cell) : cell_eqb a b = cell_eqb b a.
Proof. destruct a, b; simpl; try reflexivity. apply py_eqb_sym. Qed.

Lemma cell_eqb_refl (a : cell) :
  match a with Some v => hashable v | None => true end = true ->
  cell_eqb a a = true.
Proof.
  destruct a as [v |]; simpl; [| reflexivity].
  destruct v; simpl; try discriminate; intros _; unfold py_eqb; simpl.
  - apply Qeq_bool_iff. reflexivity.
  - apply Qeq_bool_iff. reflexivity.
  - now destruct negative.
  - apply Qeq_bool_iff. reflexivity.
  - apply String.eqb_refl.
Qed.

(** Every hashable cell of the list is represented among its distinct
    cells, or was seen before. *)
Lemma distinct_covers (l seen : list cell) (x : cell) :
  all_hashable l = true -> In x l ->
  (exists r, In r (distinct l seen) /\ cell_eqb r x = true)
  \/ (exists s, In s seen /\ cell_eqb x s = true).
Proof.
  revert seen. induction l as [| y l IH]; intros seen Hh Hin; [contradiction |].
  simpl in Hh. apply andb_true_iff in Hh. destruct Hh as [Hy Hl].
  simpl. destruct (existsb (cell_eqb y) seen) eqn:Hex.
  - destruct Hin as [-> | Hin]; [| now apply IH].
    right. apply existsb_exists in Hex. exact Hex.
  - destruct Hin as [-> | Hin].
    + left. exists x. split; [now left | now apply cell_eqb_refl].
    + destruct (IH (y :: seen) Hl Hin) as [[r [Hr He]] | [s [[<- | Hs] He]]].
      * left. exists r. split; [now right | assumption].
      * left. exists y. split; [now left |]. now rewrite cell_eqb_sym.
      * right. exists s. auto.
Qed.

(** ** Frequency counts *)

Lemma sum_map_add {A} (f g : A -> Z) (l : list A) :
  fold_right Z.add 0%Z (map (fun r => (f r + g r)%Z) l)
  = (fold_right Z.add 0%Z (map f l) + fold_right Z.add 0%Z (map g l))%Z.
Proof. induction l as [| a l IH]; simpl; lia. Qed.

Lemma sum_map_zero {A} (f : A -> Z) (l : list A) :
  (forall r, In r l -> f r = 0%Z) ->
  fold_right Z.add 0%Z (map f l) = 0%Z.
Proof.
  induction l as [| a l IH]; intros H; simpl; [reflexivity |].
  rewrite (H a) by now left. rewrite IH; [reflexivity |].
  intros r Hr. apply H. now right.
Qed.

(** Among pairwise different representatives exactly one equals [x]. *)
Lemma one_representative (reps : list cell) (x : cell) :
  ForallOrdPairs (fun a b => cell_eqb b a = false) reps ->
  (exists r, In r reps /\ cell_eqb r x = true) ->
  fold_right Z.add 0%Z
    (map (fun r => if cell_eqb r x then 1%Z else 0%Z) reps) = 1%Z.
Proof.
  induction 1 as [| a reps Ha Hreps IH]; intros [r [Hr He]]; [contradiction |].
  simpl. destruct (cell_eqb a x) eqn:Eax.
  - rewrite sum_map_zero; [reflexivity |].
    intros b Hb. destruct (cell_eqb b x) eqn:Ebx; [| reflexivity].
    rewrite Forall_forall in Ha. specialize (Ha b Hb).
    rewrite cell_eqb_sym in Eax.
    rewrite (cell_eqb_trans b x a Ebx Eax) in Ha. discriminate.
  - destruct Hr as [<- | Hr]; [congruence |].
    rewrite IH; [reflexivity |]. exists r. auto.
Qed.

(** The counts of pairwise different representatives that cover a list add
    up to its length. *)
Lemma counts_add_up (reps l : list cell) :
  ForallOrdPairs (fun a b => cell_eqb b a = false) reps ->
  (forall x, In x l -> exists r, In r reps /\ cell_eqb r x = true) ->
  fold_right Z.add 0%Z (map (fun r => count_of r l) reps) = Z.of_nat (length l).
Proof.
  intros Hp. induction l as [| x l IH]; intros Hcov.
  - apply sum_map_zero. reflexivity.
  - rewrite (map_ext (fun r => count_of r (x :: l))
               (fun r => ((if cell_eqb r x then 1 else 0) + count_of r l)%Z)).
    + rewrite sum_map_add, IH by (intros y Hy; apply Hcov; now right).
      rewrite one_representative; [simpl length; lia | assumption |].
      apply Hcov. now left.
    + intros r. unfold count_of. simpl. destruct (cell_eqb r x); simpl length; lia.
Qed.

Lemma insert_by_count_perm (x : cell * Z) (l : list (cell * Z)) :
  Permutation (x :: l) (insert_by_count x l).
Proof.
  induction l as [| y l IH]; simpl; [reflexivity |].
  destruct (snd y <=? snd x)%Z; [reflexivity |].
  rewrite perm_swap. now constructor.
Qed.

Lemma sort_by_count_perm (l : list (cell * Z)) :
  Permutation l (fold_right insert_by_count [] l).
Proof.
  induction l as [| x l IH]; simpl; [constructor |].
  rewrite <- insert_by_count_perm. now constructor.
Qed.

Lemma insert_by_count_sorted (x : cell * Z) (l : list (cell * Z)) :
  StronglySorted (fun a b => (snd b <= snd a)%Z) l ->
  StronglySorted (fun a b => (snd b <= snd a)%Z) (insert_by_count x l).
Proof.
  induction 1 as [| y l Hl IH Hy]; simpl.
  - repeat constructor.
  - destruct (Z.leb_spec (snd y) (snd x)) as [Hle | Hgt].
    + constructor; [now constructor |].
      constructor; [assumption |].
      rewrite Forall_forall in *. intros z Hz. specialize (Hy z Hz). lia.
    + constructor; [assumption |].
      rewrite Forall_forall in *. intros z Hz.
      apply (Permutation_in _ (Permutation_sym (insert_by_count_perm x l))) in Hz.
      destruct Hz as [<- | Hz]; [lia | auto].
Qed.

Lemma sort_by_count_sorted (l : list (cell * Z)) :
  StronglySorted (fun a b => (snd b <= snd a)%Z) (fold_right insert_by_count [] l).
Proof.
  induction l as [| x l IH]; simpl; [constructor |].
  now apply insert_by_count_sorted.
Qed.

Lemma sum_counts_perm (l l' : list (cell * Z)) :
  Permutation l l' ->
  fold_right Z.add 0%Z (map snd l) = fold_right Z.add 0%Z (map snd l').
Proof. induction 1; simpl; lia. Qed.

(** What [value_counts] returns for a column it can count. *)
Lemma value_counts_facts (s : Series) (vc : list (cell * Z)) :
  value_counts s = Ok vc ->
  fold_right Z.add 0%Z (map snd vc) = Z.of_nat (length (cells s))
  /\ StronglySorted (fun a b => (snd b <= snd a)%Z) vc
  /\ Forall (fun p => (1 <= snd p)%Z /\ In (fst p) (cells s)) vc
  /\ ForallOrdPairs (fun a b => cell_eqb b a = false)
       (distinct (cells s) [])
  /\ Permutation (map fst vc) (distinct (cells s) []).
Proof.
  unfold value_counts. destruct (all_hashable (cells s)) eqn:Hh; [| discriminate].
  intros [= <-].
  set (raw := map (fun c => (c, count_of c (cells s))) (distinct (cells s) [])).
  pose proof (sort_by_count_perm raw) as Hperm.
  split; [| split; [apply sort_by_count_sorted | split; [| split]]].
  - rewrite <- (sum_counts_perm _ _ Hperm). unfold raw. rewrite map_map. simpl.
    apply counts_add_up; [apply distinct_pairwise |].
    intros x Hx. destruct (distinct_covers (cells s) [] x Hh Hx) as [H | [s0 [[] _]]].
    exact H.
  - apply Forall_forall. intros p Hp.
    apply (Permutation_in _ (Permutation_sym Hperm)) in Hp.
    unfold raw in Hp. apply in_map_iff in Hp. destruct Hp as [c [<- Hc]]. simpl.
    pose proof (distinct_incl _ _ _ Hc) as Hin. split; [| assumption].
    unfold count_of.
    assert (Hf : In c (filter (cell_eqb c) (cells s))).
    { apply filter_In. split; [assumption |]. apply cell_eqb_refl.
      unfold all_hashable in Hh. rewrite forallb_forall in Hh. now apply Hh. }
    destruct (filter (cell_eqb c) (cells s)); [contradiction | simpl length; lia].
  - apply distinct_pairwise.
  - rewrite <- (Permutation_map fst Hperm). unfold raw. rewrite map_map. simpl.
    rewrite map_id. reflexivity.
Qed.

Lemma cardinality_report_get (df : DataFrame) (top_n : Z)
  (report : dict CardinalityEntry) (c : string) (e : CardinalityEntry) :
  run (cardinality_report top_n) df = Ok report ->
  dict_get report c = Some e ->
  In c (column_names df) /\ e = cardinality_entry df top_n c.
Proof.
  rewrite run_cardinality_report. intros [= <-] Hget.
  destruct (in_dec string_dec c (column_names df)) as [Hc | Hc].
  - rewrite fold_set_get_in in Hget by assumption. split; congruence.
  - rewrite fold_set_get_notin in Hget by assumption. discriminate.
Qed.

Lemma length_le_sum_counts (vc : list (cell * Z)) :
  Forall (fun p => (1 <= snd p)%Z) vc ->
  (Z.of_nat (length vc) <= fold_right Z.add 0%Z (map snd vc))%Z.
Proof. induction 1; simpl length; simpl; lia. Qed.

(** Whenever a column has a normal entry in the cardinality report: its
    frequency counts are those of the column's distinct cells (the missing
    marker included), each at least 1, in decreasing order, and they add up
    to the number of cells of the column; [unique] is the number of
    distinct cells, at most the number of cells; and for a [top_n] that is
    not negative [top_values] holds the first [min(top_n, unique)] counts. *)
Theorem cardinality_counts_add_up :
  forall (df : DataFrame) (top_n : Z) (report : dict CardinalityEntry)
         (c : string) (u : Z) (top : list (cell * Z)),
    run (cardinality_report top_n) df = Ok report ->
    dict_get report c = Some (CardValues u top) ->
    exists s vc,
      getitem df c = Ok s
      /\ value_counts s = Ok vc
      /\ u = Z.of_nat (length vc)
      /\ top = slice_to top_n vc
      /\ fold_right Z.add 0%Z (map snd vc) = Z.of_nat (length (cells s))
      /\ StronglySorted (fun a b => (snd b <= snd a)%Z) vc
      /\ Forall (fun p => (1 <= snd p)%Z /\ In (fst p) (cells s)) vc
      /\ Permutation (map fst vc) (distinct (cells s) [])
      /\ (u <= Z.of_nat (length (cells s)))%Z
      /\ ((0 <= top_n)%Z ->
          top = firstn (Z.to_nat top_n) vc
          /\ Z.of_nat (length top) = Z.min top_n u).
Proof.
  intros df top_n report c u top Hrun Hget.
  destruct (cardinality_report_get df top_n report c _ Hrun Hget) as [Hc He].
  unfold cardinality_entry in He.
  destruct (getitem df c) as [s | x]; [| discriminate].
  destruct (value_counts s) as [vc | x] eqn:Hvc; [| discriminate].
  injection He as -> ->. exists s, vc.
  destruct (value_counts_facts s vc Hvc) as (Hsum & Hsorted & Hall & _ & Hperm).
  repeat (split; [first [reflexivity | assumption] |]).
  split.
  - rewrite <- Hsum. apply length_le_sum_counts.
    eapply Forall_impl; [| exact Hall]. simpl. tauto.
  - intros Hn. unfold slice_to. destruct (Z.leb_spec 0 top_n); [| lia].
    split; [reflexivity |]. rewrite length_firstn. lia.
Qed.

(** An instance: the column of ids 1, 1, 2, 3 with [top_n] = 2. *)
Lemma cardinality_counts_add_up_witness :
  let s := mkSeries "id" (Int64Data [1; 1; 2; 3]%Z) in
  let top := [(Some (PInt 1), 2%Z); (Some (PInt 2), 1%Z)] in
  exists s' vc,
    getitem (mkFrame 4 [s]) "id" = Ok s'
    /\ value_counts s' = Ok vc
    /\ 3%Z = Z.of_nat (length vc)
    /\ top = slice_to 2 vc
    /\ fold_right Z.add 0%Z (map snd vc) = Z.of_nat (length (cells s'))
    /\ StronglySorted (fun a b => (snd b <= snd a)%Z) vc
    /\ Forall (fun p => (1 <= snd p)%Z /\ In (fst p) (cells s')) vc
    /\ Permutation (map fst vc) (distinct (cells s') [])
    /\ (3 <= Z.of_nat (length (cells s')))%Z
    /\ ((0 <= 2)%Z ->
        top = firstn (Z.to_nat 2) vc
        /\ Z.of_nat (length top) = Z.min 2 3).
Proof.
  cbv zeta.
  apply (cardinality_counts_add_up
           (mkFrame 4 [mkSeries "id" (Int64Data [1; 1; 2; 3]%Z)]) 2
           [("id", CardValues 3 [(Some (PInt 1), 2%Z); (Some (PInt 2), 1%Z)])]
           "id" 3%Z [(Some (PInt 1), 2%Z); (Some (PInt 2), 1%Z)]).
  - reflexivity.
  - reflexivity.
Defined.

(** ** Outlier detector: counts and composition *)

(** Whenever the detector returns, an entry with bounds counts at least one
    value and its [below] and [above] counts are between 0 and [n]; and when
    the reported bounds are ordered, [low_bound <= high_bound], no value is
    counted on both sides: [below + above <= n]. *)
Theorem outlier_counts_bounded :
  forall (df : DataFrame) (sel : option (list string)) (factor : pyfloat)
         (summary : dict OutlierEntry) (c : string)
         (n : Z) (low high : pyfloat) (b a : Z),
    run (outlier_summary sel factor) df = Ok summary ->
    dict_get summary c = Some (OutStats n low high b a) ->
    (1 <= n)%Z /\ (0 <= b <= n)%Z /\ (0 <= a <= n)%Z
    /\ (fle low high = true -> (b + a <= n)%Z).
Proof.
  intros df sel factor summary c n low high b a Hrun Hget.
  apply (outlier_summary_entry df sel factor summary c Hrun) in Hget.
  destruct Hget as [_ He]. apply outlier_entry_stats in He.
  destruct He as (s & arr & _ & _ & Hlen & Heq & _).
  unfold stats_of in Heq. destruct (bounds_of _ _ _) as [l h].
  injection Heq as -> -> -> -> ->.
  destruct (count_bounds arr l) as [Hb _].
  destruct (count_bounds arr h) as [_ Ha].
  split; [lia |]. split; [assumption |]. split; [assumption |].
  intros Hord. now apply counts_disjoint.
Qed.

(** An instance: the column 10, 12, 12, 13, 200 under the factor 1.5. *)
Lemma outlier_counts_bounded_witness :
  (1 <= 5)%Z /\ (0 <= 1 <= 5)%Z /\ (0 <= 1 <= 5)%Z
  /\ (fle (Finite (21 # 2)) (Finite (29 # 2)) = true -> (1 + 1 <= 5)%Z).
Proof.
  apply (outlier_counts_bounded
           (mkFrame 5 [mkSeries "x" (Int64Data [10; 12; 12; 13; 200]%Z)])
           None (Finite (3 # 2))
           [("x", OutStats 5 (Finite (21 # 2)) (Finite (29 # 2)) 1 1)]
           "x" 5%Z (Finite (21 # 2)) (Finite (29 # 2)) 1%Z 1%Z).
  - vm_compute. reflexivity.
  - reflexivity.
Defined.

Lemma dict_get_map_unique {V} (f : Series -> V) (cols : list Series) (s : Series) :
  NoDup (map name cols) -> In s cols ->
  dict_get (map (fun s => (name s, f s)) cols) (name s) = Some (f s).
Proof.
  intros Hnd Hin. apply dict_get_in_unique.
  - unfold dict_keys. rewrite map_map. simpl. exact Hnd.
  - apply in_map_iff. exists s. auto.
Qed.

Lemma run_missing_summary_wf (df : DataFrame) :
  unique_labels (column_names df) = true ->
  run missing_summary df =
  Ok (mkMissingReport (len df) (Z.of_nat (length (columns df)))
        (map (fun s => (name s,
                        mkMissingEntry (isna_sum s)
                          (np_true_divide (isna_sum s) (len df))))
             (columns df))).
Proof.
  intros Hu. rewrite run_missing_summary. unfold to_dict_index.
  rewrite !map_map. rewrite (map_ext _ name) by (intros s; reflexivity).
  fold (column_names df). rewrite Hu. reflexivity.
Qed.

Lemma stats_of_size (arr : ndarray) (factor : pyfloat) :
  match stats_of arr factor with
  | OutEmpty => 0%Z
  | OutStats n _ _ _ _ => n
  end = Z.of_nat (array_len arr).
Proof. unfold stats_of. now destruct (bounds_of _ _ _). Qed.

(** The number of values an entry of the summary stands for. *)
Lemma outlier_entry_size (df : DataFrame) (factor : pyfloat) (c : string)
  (oe : OutlierEntry) :
  outlier_entry df factor c = Ok oe ->
  exists s,
    getitem df c = Ok s
    /\ match oe with OutEmpty => 0%Z | OutStats n _ _ _ _ => n end
       = Z.of_nat (series_len (dropna s)).
Proof.
  rewrite outlier_entry_cases.
  destruct (getitem df c) as [s | x]; [| discriminate].
  intros H. exists s. split; [reflexivity |].
  destruct (numeric_values s) as [arr |] eqn:Harr.
  - rewrite <- numeric_values_dropna in Harr.
    rewrite (numeric_values_length s arr Harr).
    destruct (Nat.eqb_spec (array_len arr) 0) as [E | E]; injection H as <-.
    + now rewrite E.
    + apply stats_of_size.
  - unfold series_empty in H.
    destruct (Nat.eqb_spec (series_len (dropna s)) 0) as [E | E]; [| discriminate].
    injection H as <-. now rewrite E.
Qed.

(** On a well-formed Dataset, the summary of the default selection and the
    report of missing values fit together: the summary has an entry exactly
    for the columns of integer or floating-point type; for each of them the
    count of missing cells and the entry's [n] (0 for the entry without
    bounds) add up to the number of rows; and the entry is the one without
    bounds exactly when every cell of the column is missing. *)
Theorem outlier_and_missing_counts_agree :
  forall (df : DataFrame) (factor : pyfloat) (m : MissingReport)
         (o : dict OutlierEntry),
    wf_frame df = true ->
    run missing_summary df = Ok m ->
    run (outlier_summary None factor) df = Ok o ->
    (forall c, In c (dict_keys o) <->
               exists s, In s (columns df) /\ name s = c
                         /\ is_number (series_dtype s) = true)
    /\ forall c oe,
         dict_get o c = Some oe ->
         exists me,
           dict_get (per_column m) c = Some me
           /\ (missing_count me
               + match oe with OutEmpty => 0 | OutStats n _ _ _ _ => n end
               = len df)%Z
           /\ (oe = OutEmpty <-> missing_count me = len df).
Proof.
  intros df factor m o Hwf Hm Ho.
  pose proof (wf_frame_unique df Hwf) as Hu.
  rewrite (run_missing_summary_wf df Hu) in Hm. injection Hm as <-. split.
  - intros c. rewrite run_outlier_summary in Ho.
    pose proof (store_loop_ok _ _ _ _ Ho) as (_ & _ & Hkeys).
    rewrite Hkeys. simpl. unfold select_number_columns.
    rewrite in_map_iff. split.
    + intros [[] | [s [Hn Hs]]]. apply filter_In in Hs. exists s. tauto.
    + intros [s [Hs [Hn Hnum]]]. right. exists s. split; [assumption |].
      apply filter_In. auto.
  - intros c oe Hget.
    apply (outlier_summary_entry df None factor o c Ho) in Hget.
    destruct Hget as [_ He].
    pose proof (outlier_entry_size df factor c oe He) as [s [Hs Hsize]].
    apply getitem_ok_in in Hs. destruct Hs as [Hin <-].
    eexists. split.
    + simpl. apply dict_get_map_unique; [now apply unique_labels_NoDup | assumption].
    + simpl. pose proof (dropna_length s) as Hd.
      rewrite (wf_frame_lengths df s Hwf Hin) in Hd. fold (len df) in Hd.
      split; [lia |].
      destruct oe as [| n low high b a]; [split; [lia | reflexivity] |].
      split; [discriminate |]. intros Hall. exfalso.
      apply outlier_entry_stats in He.
      destruct He as (s' & arr & _ & _ & Hlen & Heq & _).
      pose proof (stats_of_size arr factor) as Hn. rewrite <- Heq in Hn. lia.
Qed.

(** An instance: a float column with one missing cell beside a text column. *)
Lemma outlier_and_missing_counts_agree_witness :
  let df := mkFrame 3 [mkSeries "x" (Float64Data [Finite 1; NaN; Finite 2]);
                       mkSeries "t" (ObjectData [Some (PStr "a"); None; None])] in
  exists m o,
    run missing_summary df = Ok m
    /\ run (outlier_summary None (Finite 0)) df = Ok o
    /\ (forall c, In c (dict_keys o) <->
                  exists s, In s (columns df) /\ name s = c
                            /\ is_number (series_dtype s) = true)
    /\ forall c oe,
         dict_get o c = Some oe ->
         exists me,
           dict_get (per_column m) c = Some me
           /\ (missing_count me
               + match oe with OutEmpty => 0 | OutStats n _ _ _ _ => n end
               = len df)%Z
           /\ (oe = OutEmpty <-> missing_count me = len df).
Proof.
  cbv zeta. eexists. eexists. split; [vm_compute; reflexivity |].
  split; [vm_compute; reflexivity |].
  apply (outlier_and_missing_counts_agree
           (mkFrame 3 [mkSeries "x" (Float64Data [Finite 1; NaN; Finite 2]);
                       mkSeries "t" (ObjectData [Some (PStr "a"); None; None])])
           (Finite 0)).
  - reflexivity.
  - vm_compute. reflexivity.
  - vm_compute. reflexivity.
Defined.

Lemma filter_none {A} (f : A -> bool) (l : list A) :
  (forall x, In x l -> f x = false) -> filter f l = [].
Proof.
  induction l as [| x l IH]; intros H; simpl; [reflexivity |].
  rewrite (H x) by now left. apply IH. intros y Hy. apply H. now right.
Qed.

Lemma b64_regular (x : Q) :
  regular_value x -> b64 x = Finite (b64v x) /\ b64v x == x.
Proof.
  intros Hx. pose proof (regular_value_bounds x Hx) as [H1 H2].
  pose proof (pow2_pos 1022) as Hp. destruct Hx as [Hx _].
  split; [| assumption]. apply b64_finite. split; lra.
Qed.

(** The values of a regular array, as floats. *)
Lemma regular_array_float (arr : ndarray) :
  regular_array arr = true ->
  match arr with
  | IntArray xs =>
      forall z, In z xs -> float_of_int z == inject_Z z /\ In (inject_Z z) (array_values arr)
  | FloatArray xs =>
      forall x, In x xs -> exists q, x = Finite q /\ In q (array_values arr)
  end.
Proof.
  unfold regular_array. intros H. apply andb_true_iff in H. destruct H as [_ H].
  destruct arr as [xs | xs]; rewrite forallb_forall in H.
  - intros z Hz. split.
    + apply float_of_int_small. apply Z.leb_le. now apply H.
    + simpl. now apply in_map.
  - intros x Hx. specialize (H x Hx). destruct x as [q | |]; try discriminate.
    exists q. split; [reflexivity |]. simpl.
    change q with (float_value (Finite q)). now apply in_map.
Qed.

(** Whenever the detector returns under a finite factor: if the values of a
    column are at most [2 ^ 50] integers of magnitude at most [2 ^ 53], or
    binary64 numbers of magnitude at most [2 ^ 1022], and all of them are
    equal, both bounds of its entry are that value and no value is counted
    below or above. *)
Theorem outlier_constant_column :
  forall (df : DataFrame) (sel : option (list string)) (factor : Q)
         (summary : dict OutlierEntry) (c : string) (s : Series)
         (arr : ndarray) (v : Q) (n : Z) (low high : pyfloat) (b a : Z),
    run (outlier_summary sel (Finite factor)) df = Ok summary ->
    dict_get summary c = Some (OutStats n low high b a) ->
    getitem df c = Ok s ->
    numeric_values s = Some arr ->
    regular_array arr = true ->
    (forall x, In x (array_values arr) -> x == v) ->
    exists l h,
      low = Finite l /\ high = Finite h /\ l == v /\ h == v
      /\ b = 0%Z /\ a = 0%Z.
Proof.
  intros df sel factor summary c s arr v n low high b a
    Hrun Hget Hs Harr Hreg Hconst.
  apply (outlier_summary_entry df sel (Finite factor) summary c Hrun) in Hget.
  destruct Hget as [_ He]. apply outlier_entry_stats in He.
  destruct He as (s' & arr' & Hs' & Harr' & Hlen & Heq & _).
  assert (arr' = arr) by congruence. subst arr'.
  apply regular_stats in Heq. destruct Heq as (Hb & -> & -> & _).
  pose proof (regular_array_values arr Hreg) as Hvals.
  assert (Hne : array_values arr <> []).
  { intros E. apply Hlen. rewrite <- array_values_length, E. reflexivity. }
  assert (Hv : regular_value v).
  { destruct (array_values arr) as [| y ys] eqn:E; [congruence |].
    inversion Hvals as [| ? ? [Hy1 Hy2] _]; subst.
    assert (Ey : y == v) by (apply Hconst; now left).
    split; [rewrite <- Ey; exact Hy1 | rewrite <- Ey; exact Hy2]. }
  assert (Hq : forall p, 0 <= p <= 1 -> qquantile (array_values arr) p == v).
  { intros p Hp.
    destruct (qquantile_in_range _ p Hne Hvals Hp) as (x & y & Hx & Hy & Hxy).
    apply Hconst in Hx. apply Hconst in Hy. lra. }
  rewrite (np_quantile_regular arr (1 # 4) Hreg Hlen (or_introl eq_refl)) in Hb.
  rewrite (np_quantile_regular arr (3 # 4) Hreg Hlen (or_intror eq_refl)) in Hb.
  pose proof (Hq (1 # 4) ltac:(lra)) as H1.
  pose proof (Hq (3 # 4) ltac:(lra)) as H3.
  set (v1 := qquantile (array_values arr) (1 # 4)) in *.
  set (v3 := qquantile (array_values arr) (3 # 4)) in *.
  destruct (b64_regular v Hv) as [Ev Hvv].
  assert (Ei : fsub (Finite v3) (Finite v1) = Finite 0).
  { unfold fsub, fneg, fadd.
    rewrite (b64_comp (v3 + - v1) 0) by (rewrite H1, H3; ring). reflexivity. }
  assert (Et : fmul (Finite factor) (Finite 0) = Finite 0).
  { unfold fmul. rewrite (b64_comp (factor * 0) 0) by ring. reflexivity. }
  assert (El : fsub (Finite v1) (Finite 0) = Finite (b64v v)).
  { unfold fsub, fneg, fadd.
    rewrite (b64_comp (v1 + - 0) v) by (rewrite H1; ring). exact Ev. }
  assert (Eh : fadd (Finite v3) (Finite 0) = Finite (b64v v)).
  { unfold fadd. rewrite (b64_comp (v3 + 0) v) by (rewrite H3; ring). exact Ev. }
  unfold bounds_of in Hb. rewrite Ei, Et, El, Eh in Hb.
  injection Hb as -> ->.
  exists (b64v v), (b64v v).
  split; [reflexivity |]. split; [reflexivity |].
  split; [assumption |]. split; [assumption |].
  pose proof (regular_array_float arr Hreg) as Hfl.
  destruct arr as [xs | xs]; unfold count_lt, count_gt; split.
  - rewrite filter_none; [reflexivity |]. intros z Hz.
    destruct (Hfl z Hz) as [Ez Hin]. apply Hconst in Hin.
    unfold int_to_float. rewrite flt_finite.
    apply Bool.not_true_iff_false. rewrite strictly_less_iff. lra.
  - rewrite filter_none; [reflexivity |]. intros z Hz.
    destruct (Hfl z Hz) as [Ez Hin]. apply Hconst in Hin.
    unfold int_to_float. rewrite flt_finite.
    apply Bool.not_true_iff_false. rewrite strictly_less_iff. lra.
  - rewrite filter_none; [reflexivity |]. intros x Hx.
    destruct (Hfl x Hx) as (q & -> & Hin). apply Hconst in Hin.
    rewrite flt_finite.
    apply Bool.not_true_iff_false. rewrite strictly_less_iff. lra.
  - rewrite filter_none; [reflexivity |]. intros x Hx.
    destruct (Hfl x Hx) as (q & -> & Hin). apply Hconst in Hin.
    rewrite flt_finite.
    apply Bool.not_true_iff_false. rewrite strictly_less_iff. lra.
Qed.

(** An instance: the column 7, 7, 7 under the factor 1.5. *)
Lemma outlier_constant_column_witness :
  exists l h,
    Finite 7 = Finite l /\ Finite 7 = Finite h /\ l == 7 /\ h == 7
    /\ 0%Z = 0%Z /\ 0%Z = 0%Z.
Proof.
  apply (outlier_constant_column
           (mkFrame 3 [mkSeries "x" (Int64Data [7; 7; 7]%Z)])
           None (3 # 2)
           [("x", OutStats 3 (Finite 7) (Finite 7) 0 0)]
           "x" (mkSeries "x" (Int64Data [7; 7; 7]%Z)) (IntArray [7; 7; 7]%Z) 7
           3%Z (Finite 7) (Finite 7) 0%Z 0%Z).
  - vm_compute. reflexivity.
  - reflexivity.
  - reflexivity.
  - reflexivity.
  - reflexivity.
  - intros x [<- | [<- | [<- | []]]]; reflexivity.
Defined.

(** ** Dtype checker: the actual dtypes as expectation *)

Lemma dict_set_keys_nodup {V} (d : dict V) (k : string) (v : V) :
  NoDup (dict_keys d) -> NoDup (dict_keys (dict_set d k v)).
Proof.
  unfold dict_keys. induction d as [| [k0 v0] d IH]; simpl; intros Hnd.
  - repeat constructor. tauto.
  - inversion Hnd as [| ? ? Hk0 Hd]; subst.
    destruct (String.eqb_spec k k0) as [-> | Hne]; simpl.
    + now constructor.
    + constructor; [| auto].
      intros Hin. apply (dict_keys_set d k v k0) in Hin.
      destruct Hin as [-> | Hin]; [congruence | contradiction].
Qed.

Lemma actual_of_nodup (df : DataFrame) : NoDup (dict_keys (actual_of df)).
Proof.
  unfold actual_of.
  assert (H : forall cols (d : dict string),
             NoDup (dict_keys d) ->
             NoDup (dict_keys
                      (fold_left (fun d s => dict_set d (name s) (dtype_str (series_dtype s)))
                                 cols d))).
  { induction cols as [| s cols IH]; intros d Hd; simpl; [assumption |].
    apply IH. now apply dict_set_keys_nodup. }
  apply H. constructor.
Qed.

Lemma issues_fold_no_change (actual items : dict string) (acc : dict Mismatch) :
  (forall c exp, In (c, exp) items -> dict_get actual c = Some exp) ->
  fold_left (issues_step actual) items acc = acc.
Proof.
  revert acc. induction items as [| [c exp] items IH]; intros acc H; simpl.
  - reflexivity.
  - rewrite (H c exp) by now left. simpl. rewrite String.eqb_refl. simpl.
    apply IH. intros c' exp' Hin. apply H. now right.
Qed.

(** The checker always returns, [actual_dtypes] has exactly the labels of
    the Dataset as keys, each once, and checking a Dataset against the
    [actual_dtypes] that the checker reported for it finds no mismatch. *)
Theorem dtype_issues_accepts_own_dtypes :
  forall (df : DataFrame),
  exists rep rep',
    run (dtype_issues None) df = Ok rep
    /\ (forall c, In c (dict_keys (actual_dtypes rep)) <-> In c (column_names df))
    /\ NoDup (dict_keys (actual_dtypes rep))
    /\ run (dtype_issues (Some (actual_dtypes rep))) df = Ok rep'
    /\ actual_dtypes rep' = actual_dtypes rep
    /\ dtype_mismatches rep' = [].
Proof.
  intros df. rewrite !run_dtype_issues. eexists. eexists.
  split; [reflexivity |]. simpl. split; [| split; [apply actual_of_nodup |]].
  - intros c. pose proof (dict_get_none (actual_of df) c) as H1.
    pose proof (actual_fold_none (columns df) [] c) as H2.
    fold (actual_of df) in H2. fold (column_names df) in H2. simpl in H2.
    destruct (in_dec string_dec c (dict_keys (actual_of df))) as [Hk | Hk];
      destruct (in_dec string_dec c (column_names df)) as [Hc | Hc]; try tauto.
  - rewrite run_dtype_issues. split; [reflexivity |]. simpl. split; [reflexivity |].
    apply issues_fold_no_change. intros c exp Hin.
    apply dict_get_in_unique; [apply actual_of_nodup | assumption].
Qed.

(** ** Report builder: when it returns *)

(** The mask computed when all columns are compared. *)
Lemma duplicated_all_columns (df : DataFrame) :
  duplicated df None =
  if empty df then Ok []
  else if (length (columns df) =? 1)%nat && unique_labels (column_names df)
          || forallb (fun s => all_hashable (cells s)) (columns df)
       then Ok (mark_duplicates
                  (map (row_at (columns df)) (seq 0 (index_len df))) [])
       else Raise (TypeError "unhashable type").
Proof.
  unfold duplicated. destruct (empty df) eqn:He; [reflexivity |].
  rewrite all_labels_are_columns, compared_all_columns.
  unfold column_names at 1. rewrite length_map.
  destruct (columns df) as [| s cols] eqn:Hc; [| reflexivity].
  unfold empty in He. rewrite Hc in He. rewrite orb_true_r in He. discriminate.
Qed.

(** On a Dataset with unique labels, [validate] returns a report exactly
    when the Dataset is empty, or has a single column, or every cell can be
    hashed; when it raises, the error is the [TypeError] of the unhashable
    cell, raised by the Duplicate Detector. *)
Theorem validate_returns_iff_hashable :
  forall (expected : option (dict string)) (df : DataFrame),
    unique_labels (column_names df) = true ->
    ((exists rep, run (validate expected) df = Ok rep) <->
     (empty df = true
      \/ length (columns df) = 1%nat
      \/ forallb (fun s => all_hashable (cells s)) (columns df) = true))
    /\ (forall x, run (validate expected) df = Raise x ->
                  x = TypeError "unhashable type"
                  /\ run (duplicates None) df = Raise x).
Proof.
  intros expected df Hu. rewrite run_validate.
  rewrite (run_missing_summary_wf df Hu).
  rewrite run_duplicates, duplicated_all_columns.
  rewrite run_dtype_issues, run_cardinality_report.
  destruct (outlier_summary_default_returns df (Finite (3 # 2)) Hu) as [o Ho].
  rewrite Ho, Hu, andb_true_r.
  destruct (empty df).
  - split.
    + split; [auto | intros _; eexists; reflexivity].
    + intros x H. discriminate.
  - destruct (Nat.eqb_spec (length (columns df)) 1) as [E1 | E1]; simpl.
    + split.
      * split; [auto | intros _; eexists; reflexivity].
      * intros x H. discriminate.
    + destruct (forallb _ (columns df)).
      * split.
        -- split; [auto | intros _; eexists; reflexivity].
        -- intros x H. discriminate.
      * split.
        -- split; [intros [rep H]; discriminate |].
           intros [H | [H | H]]; [discriminate | contradiction | discriminate].
        -- intros x [= <-]. split; reflexivity.
Qed.

(** An instance: a Dataset with a text column and a float column. *)
Lemma validate_returns_iff_hashable_witness :
  let df := mkFrame 2 [mkSeries "t" (ObjectData [Some (PStr "a"); None]);
                       mkSeries "x" (Float64Data [Finite 1; Finite 2])] in
  ((exists rep, run (validate None) df = Ok rep) <->
   (empty df = true
    \/ length (columns df) = 1%nat
    \/ forallb (fun s => all_hashable (cells s)) (columns df) = true))
  /\ (forall x, run (validate None) df = Raise x ->
                x = TypeError "unhashable type"
                /\ run (duplicates None) df = Raise x).
Proof.
  cbv zeta.
  apply (validate_returns_iff_hashable None
           (mkFrame 2 [mkSeries "t" (ObjectData [Some (PStr "a"); None]);
                       mkSeries "x" (Float64Data [Finite 1; Finite 2])])).
  reflexivity.
Defined.

(** * create_database.py *)

(** ** The name check *)

Lemma newline_not_word : is_word_char newline = false.
Proof. reflexivity. Qed.

Lemma match_word_tail_spec (s : string) :
  match_word_tail s = true <->
  forallb is_word_char (list_ascii_of_string s) = true
  \/ exists w, forallb is_word_char (list_ascii_of_string w) = true
               /\ s = (w ++ nl)%string.
Proof.
  induction s as [| c rest IH]; simpl.
  - split; [auto | reflexivity].
  - destruct (is_word_char c) eqn:Hc; simpl.
    + rewrite IH. split.
      * intros [Hall | [w [Hw ->]]]; [now left |].
        right. exists (String c w). simpl. rewrite Hc. auto.
      * intros [Hall | [w [Hw Heq]]]; [now left |].
        destruct w as [| c' w]; simpl in Heq.
        -- unfold nl in Heq. inversion Heq; subst.
           rewrite newline_not_word in Hc. discriminate.
        -- inversion Heq; subst. simpl in Hw. rewrite Hc in Hw. simpl in Hw.
           right. exists w. auto.
    + split.
      * intros H. apply andb_true_iff in H. destruct H as [Hn Hr].
        apply Ascii.eqb_eq in Hn. subst c.
        destruct rest; [| discriminate]. right. exists EmptyString. auto.
      * intros [H | [w [Hw Heq]]]; [discriminate |].
        destruct w as [| c' w]; simpl in Heq.
        -- unfold nl in Heq. inversion Heq; subst. reflexivity.
        -- inversion Heq; subst. simpl in Hw. rewrite Hc in Hw. discriminate.
Qed.

Lemma re_match_name_iff :
  forall (db_name : string),
    re_match_name db_name = true <->
    exists w, word w /\ (db_name = w \/ db_name = (w ++ nl)%string).
Proof.
  intros db_name. unfold word. destruct db_name as [| c rest]; simpl.
  - split; [discriminate |].
    intros [w [[Hne _] [H | H]]]; [congruence |].
    destruct w; simpl in H; [congruence | discriminate].
  - rewrite andb_true_iff, match_word_tail_spec. split.
    + intros [Hc [Hall | [w [Hw ->]]]].
      * exists (String c rest). split; [| now left].
        split; [discriminate |]. simpl. now rewrite Hc.
      * exists (String c w). split; [| now right].
        split; [discriminate |]. simpl. now rewrite Hc.
    + intros [w [[Hne Hw] [<- | Heq]]].
      * simpl in Hw. apply andb_true_iff in Hw. tauto.
      * destruct w as [| c' w]; [congruence |].
        simpl in Heq. inversion Heq; subst.
        simpl in Hw. apply andb_true_iff in Hw. destruct Hw as [Hc Hw].
        split; [assumption |]. right. exists w. auto.
Qed.

(** [create_database] gets past its name check exactly for the names made
    of letters, digits and underscores, at least one, possibly followed by
    one newline: the [$] of the pattern also matches before a final newline,
    so a name that ends in a newline passes.  For every other name, and only
    then, it raises [ValueError]. *)
Theorem create_database_name_check :
  forall (connect : option string)
         (server : list event -> string -> option string)
         (db_name : string) (trace : list event),
    (exists w, word w /\ (db_name = w \/ db_name = (w ++ nl)%string)) <->
    (forall msg,
        snd (create_database connect server db_name trace) <> RaisedValueError msg).
Proof.
  intros connect server db_name trace. rewrite <- re_match_name_iff.
  unfold create_database, conn_execute.
  destruct (re_match_name db_name); simpl negb; cbv iota.
  - split; [| reflexivity]. intros _ msg.
    destruct connect as [err |]; [discriminate |].
    destruct (server _ (terminate_query db_name)); [discriminate |].
    destruct (server _ (drop_statement db_name)); [discriminate |].
    destruct (server _ (create_statement db_name)); discriminate.
  - split; [discriminate |]. intros H. exfalso.
    apply (H "Invalid database name."). reflexivity.
Qed.

(** ** What reaches the server *)

Lemma word_chars (w : string) (c : ascii) :
  word w -> In c (list_ascii_of_string w) -> is_word_char c = true.
Proof.
  intros [_ Hall] Hc. rewrite forallb_forall in Hall. auto.
Qed.

Lemma list_ascii_of_string_app (u v : string) :
  list_ascii_of_string (u ++ v)
  = (list_ascii_of_string u ++ list_ascii_of_string v)%list.
Proof. induction u as [| c u IH]; simpl; [reflexivity | now f_equal]. Qed.

(** For an accepted name, what the function adds to the events, by
    outcome.  It returns only after the three statements were sent in the
    order terminate, drop, create, the connection was closed and the success
    line was printed.  When it raises a database error, either the
    connection could not be opened and nothing happened, or it sent the
    first [k] of the three statements, the server refused the last of them,
    and the connection was closed; the success line is not printed.  It
    does not raise [ValueError]. *)
Theorem create_database_trace :
  forall (connect : option string)
         (server : list event -> string -> option string)
         (db_name : string) (trace : list event),
    re_match_name db_name = true ->
    let statements :=
      [terminate_query db_name; drop_statement db_name; create_statement db_name] in
    match create_database connect server db_name trace with
    | (t, Returned) =>
        connect = None
        /\ t = (trace ++ Connected :: map Sent statements
                      ++ [Closed; Printed (success_line db_name)])%list
    | (t, RaisedDatabaseError err) =>
        (connect = Some err /\ t = trace)
        \/ (connect = None
            /\ exists k, (k < 3)%nat
                 /\ t = (trace ++ Connected :: map Sent (firstn (S k) statements)
                               ++ [Closed])%list
                 /\ server (trace ++ Connected :: map Sent (firstn k statements))%list
                           (nth k statements "") = Some err)
    | (t, RaisedValueError _) => False
    end.
Proof.
  intros connect server db_name trace Hname. cbv zeta.
  unfold create_database, conn_execute. rewrite Hname. simpl negb. cbv iota.
  destruct connect as [err |]; [left; auto |].
  destruct (server (trace ++ [Connected])%list (terminate_query db_name))
    as [e1 |] eqn:H1.
  { right. split; [reflexivity |]. exists 0%nat. split; [lia |]. simpl.
    rewrite <- !app_assoc. simpl. auto. }
  destruct (server ((trace ++ [Connected]) ++ [Sent (terminate_query db_name)])%list
              (drop_statement db_name)) as [e2 |] eqn:H2.
  { right. split; [reflexivity |]. exists 1%nat. split; [lia |]. simpl.
    rewrite <- !app_assoc in *. simpl in *. auto. }
  destruct (server (((trace ++ [Connected]) ++ [Sent (terminate_query db_name)])
                    ++ [Sent (drop_statement db_name)])%list
              (create_statement db_name)) as [e3 |] eqn:H3.
  { right. split; [reflexivity |]. exists 2%nat. split; [lia |]. simpl.
    rewrite <- !app_assoc in *. simpl in *. auto. }
  split; [reflexivity |]. rewrite <- !app_assoc. reflexivity.
Qed.

(** An instance: the name [shop] on a server that refuses [DROP]. *)
Lemma create_database_trace_witness :
  let server := fun (t : list event) (sql : string) =>
                  if String.eqb sql (drop_statement "shop")
                  then Some "database is being accessed" else None in
  (None (A := string) = Some "database is being accessed"
   /\ [Connected; Sent (terminate_query "shop"); Sent (drop_statement "shop"); Closed]
      = [])
  \/ (None (A := string) = None
      /\ exists k, (k < 3)%nat
           /\ [Connected; Sent (terminate_query "shop"); Sent (drop_statement "shop"); Closed]
              = ([] ++ Connected
                    :: map Sent
                         (firstn (S k)
                            [terminate_query "shop"; drop_statement "shop";
                             create_statement "shop"])
                    ++ [Closed])%list
           /\ server ([] ++ Connected
                        :: map Sent
                             (firstn k
                                [terminate_query "shop"; drop_statement "shop";
                                 create_statement "shop"]))%list
                     (nth k [terminate_query "shop"; drop_statement "shop";
                             create_statement "shop"] "")
              = Some "database is being accessed").
Proof.
  cbv zeta.
  apply (create_database_trace None
           (fun (t : list event) (sql : string) =>
              if String.eqb sql (drop_statement "shop")
              then Some "database is being accessed" else None)
           "shop" []).
  reflexivity.
Defined.

(** A name that is not a run of letters, digits and underscores, possibly
    followed by one newline, is refused with [ValueError] before anything
    happens.  So whatever the server does, every statement the function
    sends is one of its three statements for a name of that form, in which
    each character is a letter, a digit, an underscore or a final newline:
    no quote, semicolon or blank reaches the server through the name. *)
Theorem create_database_sends_only_checked_names :
  forall (connect : option string)
         (server : list event -> string -> option string)
         (db_name : string) (trace : list event),
    (~ (exists w, word w /\ (db_name = w \/ db_name = (w ++ nl)%string)) ->
     create_database connect server db_name trace
     = (trace, RaisedValueError "Invalid database name."))
    /\ (forall sql,
          In (Sent sql) (fst (create_database connect server db_name trace)) ->
          ~ In (Sent sql) trace ->
          (exists w, word w /\ (db_name = w \/ db_name = (w ++ nl)%string))
          /\ (forall c, In c (list_ascii_of_string db_name) ->
                        is_word_char c = true \/ c = newline)
          /\ (sql = terminate_query db_name
              \/ sql = drop_statement db_name
              \/ sql = create_statement db_name)).
Proof.
  intros connect server db_name trace. split.
  - intros Hbad. unfold create_database.
    destruct (re_match_name db_name) eqn:Hname; [| reflexivity].
    exfalso. apply Hbad. now apply re_match_name_iff.
  - intros sql Hin Hnew.
    destruct (re_match_name db_name) eqn:Hname.
    + pose proof (proj1 (re_match_name_iff db_name) Hname) as Hw.
      split; [exact Hw |]. split.
      * destruct Hw as [w [Hword [-> | ->]]]; intros c Hc.
        -- left. eapply word_chars; eauto.
        -- rewrite list_ascii_of_string_app in Hc. apply in_app_or in Hc.
           destruct Hc as [Hc | [<- | []]]; [left; eapply word_chars; eauto | now right].
      * unfold create_database, conn_execute in Hin. rewrite Hname in Hin.
        simpl negb in Hin. cbv iota in Hin.
        destruct connect as [err |]; [contradiction |].
        destruct (server _ (terminate_query db_name));
          [| destruct (server _ (drop_statement db_name));
             [| destruct (server _ (create_statement db_name))]];
          simpl in Hin; rewrite !in_app_iff in Hin; simpl in Hin;
          repeat match goal with
                 | H : _ \/ _ |- _ => destruct H as [H | H]
                 | H : Sent _ = Sent _ |- _ => injection H as <-
                 | H : False |- _ => contradiction
                 end;
          try contradiction; try discriminate; auto.
    + unfold create_database in Hin. rewrite Hname in Hin. simpl in Hin. contradiction.
Qed.

(** * Across the analyzers *)



Lemma slice_to_negative_length {A} (k : Z) (l : list A) :
  (k < 0)%Z ->
  Z.of_nat (length (slice_to k l)) = Z.max 0 (Z.of_nat (length l) + k).
Proof.
  intros Hk. unfold slice_to. destruct (Z.leb_spec 0 k); [lia |].
  rewrite length_firstn. lia.
Qed.

(** A negative size is read as Python reads a negative slice bound: the
    schema's sample of a column then holds all its distinct values but the
    last [-k], and [top_values] of the cardinality report all frequency
    counts but the last [-top_n]. *)
Theorem negative_sizes_drop_from_the_end :
  (forall (df : DataFrame) (k : Z) (schema : dict ColumnSchema)
          (c : string) (e : ColumnSchema),
      (k < 0)%Z ->
      run (infer_schema k) df = Ok schema ->
      dict_get schema c = Some e ->
      Z.of_nat (length (schema_sample_values e)) = Z.max 0 (schema_unique e + k))
  /\ (forall (df : DataFrame) (top_n : Z) (report : dict CardinalityEntry)
             (c : string) (u : Z) (top : list (cell * Z)),
         (top_n < 0)%Z ->
         run (cardinality_report top_n) df = Ok report ->
         dict_get report c = Some (CardValues u top) ->
         Z.of_nat (length top) = Z.max 0 (u + top_n)).
Proof.
  split.
  - intros df k schema c e Hk Hrun Hget. rewrite run_infer_schema in Hrun.
    apply (store_loop_get _ _ _ c e Hrun) in Hget. destruct Hget as [_ He].
    apply schema_entry_ok in He.
    destruct He as (s & values & _ & _ & _ & _ & _ & _ & Huniq & Hsample).
    rewrite Hsample, Huniq. now apply slice_to_negative_length.
  - intros df top_n report c u top Hn Hrun Hget.
    destruct (cardinality_report_get df top_n report c _ Hrun Hget) as [_ He].
    unfold cardinality_entry in He.
    destruct (getitem df c) as [s | x]; [| discriminate].
    destruct (value_counts s) as [vc | x]; [| discriminate].
    injection He as -> ->. now apply slice_to_negative_length.
Qed.

(** An instance: the column 3, 3, 1, 2 with the sizes -1 and -2. *)
Lemma negative_sizes_drop_from_the_end_witness :
  Z.of_nat (length [Some (PInt 3); Some (PInt 1)]) = (Z.max 0 (3 + -1))%Z
  /\ Z.of_nat (length [(Some (PInt 3), 2%Z)]) = (Z.max 0 (3 + -2))%Z.
Proof.
  split.
  - apply (proj1 negative_sizes_drop_from_the_end
             (mkFrame 4 [mkSeries "x" (Int64Data [3; 3; 1; 2]%Z)]) (-1)%Z
             [("x", mkColumnSchema "int64" 0 (py_round (0 / 4) 4) 3
                      [Some (PInt 3); Some (PInt 1)])]
             "x"
             (mkColumnSchema "int64" 0 (py_round (0 / 4) 4) 3
                [Some (PInt 3); Some (PInt 1)])).
    + lia.
    + reflexivity.
    + reflexivity.
  - apply (proj2 negative_sizes_drop_from_the_end
             (mkFrame 4 [mkSeries "x" (Int64Data [3; 3; 1; 2]%Z)]) (-2)%Z
             [("x", CardValues 3 [(Some (PInt 3), 2%Z)])]
             "x" 3%Z [(Some (PInt 3), 2%Z)]).
    + lia.
    + reflexivity.
    + reflexivity.
Defined.
